(** * Mini Motorways simulation core: road graph, A* router, traffic and
      run-state bookkeeping.

    Shallow embedding of the TypeScript sources
    (entities/Road, utils/Pathfinding, entities/Destination, entities/Car,
    systems/TrafficManager, systems/GameState, systems/SpawnManager) and the
    properties of the design document that concern them.

    Conventions of the embedding:
    - integer-valued JavaScript numbers (grid coordinates, counters, path
      costs) are [Z]; world coordinates, speeds and time deltas are IEEE
      binary64 values ([PrimFloat.float]);
    - the code computes on binary64 numbers, which hold every integer
      below [2 ^ 53] in magnitude and round beyond; the arithmetic on [Z]
      is the code's arithmetic below that magnitude only, so the
      properties that rest on the arithmetic of cell coordinates are
      stated for cells within [coordLimit], and those that read a pointer
      for positions whose quotients by the cell size are finite;
    - an anonymous object [{ gridX, gridY }] is a pair [(gridX, gridY)];
    - a JavaScript [Map<string, V>] is an association list in insertion
      order, a [Set<string>] a duplicate-free list in insertion order
      (iteration order is observable in the router's tie-break);
    - rendering calls (graphics, text, shapes) carry no simulation state and
      are left out. *)

From Stdlib Require Import ZArith List String Ascii Bool Lia.
From Stdlib Require Import DecimalString DecimalZ DecimalPos.
From Stdlib Require Import PrimFloat Uint63 SpecFloat FloatOps.
Import ListNotations.

Open Scope Z_scope.

(** An anonymous [{ gridX: number; gridY: number }] object. *)
Definition GridPos : Type := (Z * Z)%type.

(* ------------------------------------------------------------------ *)
(** ** JavaScript containers *)

(** [Set<string>]: insertion-ordered, no duplicates. *)
Module JsSet.

Definition t : Type := list string.

Definition empty : t := [].

Definition has (k : string) (s : t) : bool :=
  existsb (String.eqb k) s.

Definition add (k : string) (s : t) : t :=
  if has k s then s else s ++ [k].

Definition delete (k : string) (s : t) : t :=
  filter (fun k' => negb (String.eqb k k')) s.

End JsSet.

(** [Map<string, V>]: insertion-ordered association list, one entry per key. *)
Module JsMap.

Section WithValue.
Context {V : Type}.

Definition t : Type := list (string * V).

Definition empty : t := [].

Definition get (k : string) (m : t) : option V :=
  option_map snd (find (fun e => String.eqb k (fst e)) m).

Definition has (k : string) (m : t) : bool :=
  match get k m with Some _ => true | None => false end.

(** [m.set(k, v)]: an existing key keeps its position, a new one goes last. *)
Definition set (k : string) (v : V) (m : t) : t :=
  if has k m
  then map (fun e => if String.eqb k (fst e) then (fst e, v) else e) m
  else m ++ [(k, v)].

Definition delete (k : string) (m : t) : t :=
  filter (fun e => negb (String.eqb k (fst e))) m.

(** In-place mutation of the object stored under [k] (the entry is shared
    by reference in the source, so the change is seen through the map). *)
Definition mutate (k : string) (upd : V -> V) (m : t) : t :=
  map (fun e => if String.eqb k (fst e) then (fst e, upd (snd e)) else e) m.

Definition values (m : t) : list V := map snd m.

Definition keys (m : t) : list string := map fst m.

Definition size (m : t) : nat := List.length m.

End WithValue.

Arguments t : clear implicits.

End JsMap.

(* ------------------------------------------------------------------ *)
(** ** Cell keys: the template string [`${gridX},${gridY}`] *)

(** [`${n}`] for an integer-valued number. *)
Definition showZ (z : Z) : string := NilZero.string_of_int (Z.to_int z).

Definition cellKey (p : GridPos) : string :=
  (showZ (fst p) ++ "," ++ showZ (snd p))%string.

(** [s.split(',')]. *)
Fixpoint splitComma (s : string) : list string :=
  match s with
  | EmptyString => [EmptyString]
  | String c s' =>
      if Ascii.eqb c ","%char then EmptyString :: splitComma s'
      else match splitComma s' with
           | hd :: tl => String c hd :: tl
           | [] => [String c EmptyString]
           end
  end.

(** [Number(s)] on the decimal integer strings the keys are made of.  A
    string that is not a decimal integer gives [NaN] in JavaScript; it has
    no counterpart in [Z] and is mapped to [0] here.  Keys stored in a
    neighbour set are always produced by [cellKey], so that case is never
    reached on a road built through the class interface. *)
Definition Number (s : string) : Z :=
  match NilZero.int_of_string s with
  | Some d => Z.of_int d
  | None => 0
  end.

(** [const [x, y] = key.split(',').map(Number)]. *)
Definition parseKey (k : string) : GridPos :=
  let parts := map Number (splitComma k) in
  (nth 0 parts 0, nth 1 parts 0).

(** The four directions, in the order of the source's [directions] array:
    up, right, down, left. *)
Definition directions : list (Z * Z) := [(0, -1); (1, 0); (0, 1); (-1, 0)].

(** [gridX + dir.dx], [gridY + dir.dy]: exact in the code for coordinates
    below [2 ^ 53] in magnitude. *)
Definition shift (p : GridPos) (d : Z * Z) : GridPos :=
  (fst p + fst d, snd p + snd d).

(* ------------------------------------------------------------------ *)
(** ** config/GameConfig *)

Module GameConfig.

Record t := {
  GRID_SIZE : Z;
  GAME_WIDTH : Z;
  GAME_HEIGHT : Z;
  CAR_SPEED : Z;
  MAX_CARS_PER_DESTINATION : Z;
  POINTS_PER_DELIVERY : Z;
  COLORS : list Z
}.

Definition palette : list Z := [0xff6b6b; 0x4ecdc4; 0xffe66d; 0x95e1d3].

(** The repository carries two revisions of the constants. *)
Definition lenient : t :=
  {| GRID_SIZE := 25; GAME_WIDTH := 48; GAME_HEIGHT := 32;
     CAR_SPEED := 150; MAX_CARS_PER_DESTINATION := 8;
     POINTS_PER_DELIVERY := 10; COLORS := palette |}.

Definition original : t :=
  {| GRID_SIZE := 25; GAME_WIDTH := 48; GAME_HEIGHT := 32;
     CAR_SPEED := 80; MAX_CARS_PER_DESTINATION := 6;
     POINTS_PER_DELIVERY := 10; COLORS := palette |}.

End GameConfig.

(* ------------------------------------------------------------------ *)
(** ** entities/Road *)

Module Road.

Record RoadSegment := {
  gridX : Z;
  gridY : Z;
  neighbors : JsSet.t   (* "x,y" format *)
}.

Definition pos (s : RoadSegment) : GridPos := (gridX s, gridY s).

(** The simulation state of a [Road] is its [segments] map. *)
Definition t : Type := JsMap.t RoadSegment.

(** [new Road(scene)]. *)
Definition create : t := JsMap.empty.

Definition withNeighbor (k : string) (s : RoadSegment) : RoadSegment :=
  {| gridX := gridX s; gridY := gridY s;
     neighbors := JsSet.add k (neighbors s) |}.

Definition withoutNeighbor (k : string) (s : RoadSegment) : RoadSegment :=
  {| gridX := gridX s; gridY := gridY s;
     neighbors := JsSet.delete k (neighbors s) |}.

(** One turn of the [for (const dir of directions)] loop of [addSegment]:
    the accumulator is the segment under construction and the map, whose
    neighbour object is mutated in place. *)
Definition connect (p : GridPos) (acc : RoadSegment * t) (dir : Z * Z)
  : RoadSegment * t :=
  let '(segment, segments) := acc in
  let key := cellKey p in
  let neighborKey := cellKey (shift p dir) in
  if JsMap.has neighborKey segments
  then (withNeighbor neighborKey segment,
        JsMap.mutate neighborKey (withNeighbor key) segments)
  else (segment, segments).

Definition addSegment (p : GridPos) (segments : t) : bool * t :=
  let key := cellKey p in
  if JsMap.has key segments then (false, segments)
  else
    let segment := {| gridX := fst p; gridY := snd p;
                      neighbors := JsSet.empty |} in
    let '(segment', segments') :=
      fold_left (connect p) directions (segment, segments) in
    (true, JsMap.set key segment' segments').

(** One turn of the [for (const neighborKey of segment.neighbors)] loop of
    [removeSegment]. *)
Definition disconnect (key : string) (segments : t) (neighborKey : string)
  : t :=
  JsMap.mutate neighborKey (withoutNeighbor key) segments.

Definition removeSegment (p : GridPos) (segments : t) : bool * t :=
  let key := cellKey p in
  match JsMap.get key segments with
  | None => (false, segments)
  | Some segment =>
      let segments' :=
        fold_left (disconnect key) (neighbors segment) segments in
      (true, JsMap.delete key segments')
  end.

Definition hasSegment (p : GridPos) (segments : t) : bool :=
  JsMap.has (cellKey p) segments.

Definition getAllSegments (segments : t) : list RoadSegment :=
  JsMap.values segments.

Definition getNeighbors (p : GridPos) (segments : t) : list GridPos :=
  match JsMap.get (cellKey p) segments with
  | None => []
  | Some segment => map parseKey (neighbors segment)
  end.

Definition clear (segments : t) : t := JsMap.empty.

(** [getGraph()]: the adjacency list, each entry filed under the key
    rebuilt from the segment's own coordinates. *)
Definition getGraph (segments : t) : JsMap.t (list string) :=
  fold_left
    (fun graph segment =>
       JsMap.set (cellKey (pos segment)) (neighbors segment) graph)
    (JsMap.values segments) JsMap.empty.

End Road.

(** The calls a client can make on a [Road], and a road's history. *)
Inductive RoadOp :=
| AddSegment (p : GridPos)
| RemoveSegment (p : GridPos)
| ClearRoad.

Definition applyOp (r : Road.t) (op : RoadOp) : Road.t :=
  match op with
  | AddSegment p => snd (Road.addSegment p r)
  | RemoveSegment p => snd (Road.removeSegment p r)
  | ClearRoad => Road.clear r
  end.

Definition buildRoad (ops : list RoadOp) : Road.t :=
  fold_left applyOp ops Road.create.

(* ------------------------------------------------------------------ *)
(** ** utils/Pathfinding *)

Module Pathfinding.

#[local] Set Warnings "-register-all".

(** [interface PathNode].  [parent] points to a node that has already left
    the open set; such a node is never written again, so holding its value
    is the same as holding the reference. *)
Inductive PathNode :=
  mkPathNode (key : string) (gridX gridY : Z) (g h f : Z)
             (parent : option PathNode).

Definition key (n : PathNode) := let '(mkPathNode k _ _ _ _ _ _) := n in k.
Definition gridX (n : PathNode) := let '(mkPathNode _ x _ _ _ _ _) := n in x.
Definition gridY (n : PathNode) := let '(mkPathNode _ _ y _ _ _ _) := n in y.
Definition g (n : PathNode) := let '(mkPathNode _ _ _ c _ _ _) := n in c.
Definition h (n : PathNode) := let '(mkPathNode _ _ _ _ c _ _) := n in c.
Definition f (n : PathNode) := let '(mkPathNode _ _ _ _ _ c _) := n in c.
Definition parent (n : PathNode) := let '(mkPathNode _ _ _ _ _ _ p) := n in p.

Definition pos (n : PathNode) : GridPos := (gridX n, gridY n).

(** Manhattan distance; exact in the code while the sum stays below
    [2 ^ 53]. *)
Definition heuristic (a b : GridPos) : Z :=
  Z.abs (fst a - fst b) + Z.abs (snd a - snd b).

(** [reconstructPath]: walk the parent links, [unshift]ing each cell. *)
Fixpoint reconstructFrom (current : PathNode) (path : list GridPos)
  : list GridPos :=
  match current with
  | mkPathNode _ x y _ _ _ par =>
      match par with
      | None => (x, y) :: path
      | Some p => reconstructFrom p ((x, y) :: path)
      end
  end.

Definition reconstructPath (node : PathNode) : list GridPos :=
  reconstructFrom node [].

(** The scan for the node with the lowest [f]: [lowestF] starts at
    [Infinity] ([None]), and only a strictly smaller [f] replaces the
    current choice, so the first-inserted node wins a tie. *)
Definition pickLower (acc : option PathNode * option Z) (node : PathNode)
  : option PathNode * option Z :=
  match snd acc with
  | None => (Some node, Some (f node))
  | Some lowestF =>
      if f node <? lowestF then (Some node, Some (f node)) else acc
  end.

Definition lowest (openSet : JsMap.t PathNode) : option PathNode :=
  fst (fold_left pickLower (JsMap.values openSet) (None, None)).

Definition improve (current : PathNode) (tentativeG : Z) (n : PathNode)
  : PathNode :=
  mkPathNode (key n) (gridX n) (gridY n) tentativeG (h n)
             (tentativeG + h n) (Some current).

(** One turn of the [for (const neighbor of neighbors)] loop. *)
Definition relax (goal : GridPos) (current : PathNode) (closedSet : JsSet.t)
    (openSet : JsMap.t PathNode) (neighbor : GridPos) : JsMap.t PathNode :=
  let neighborKey := cellKey neighbor in
  if JsSet.has neighborKey closedSet then openSet
  else
    let tentativeG := g current + 1 in
    match JsMap.get neighborKey openSet with
    | None =>
        let hn := heuristic neighbor goal in
        JsMap.set neighborKey
          (mkPathNode neighborKey (fst neighbor) (snd neighbor)
                      tentativeG hn (tentativeG + hn) (Some current))
          openSet
    | Some neighborNode =>
        if tentativeG <? g neighborNode
        then JsMap.mutate neighborKey (improve current tentativeG) openSet
        else openSet
    end.

(** The [while (openSet.size > 0)] loop.  [fuel] bounds the number of
    turns; [None] means the bound was hit before the loop ended. *)
Fixpoint search (fuel : nat) (road : Road.t) (goal : GridPos)
    (openSet : JsMap.t PathNode) (closedSet : JsSet.t)
  : option (list GridPos) :=
  match fuel with
  | O => None
  | S fuel' =>
      if (0 <? JsMap.size openSet)%nat then
        match lowest openSet with
        | None => Some []
        | Some current =>
            let currentKey := key current in
            if String.eqb currentKey (cellKey goal)
            then Some (reconstructPath current)
            else
              let openSet1 := JsMap.delete currentKey openSet in
              let closedSet1 := JsSet.add currentKey closedSet in
              let neighbors := Road.getNeighbors (pos current) road in
              let openSet2 :=
                fold_left (relax goal current closedSet1) neighbors openSet1 in
              search fuel' road goal openSet2 closedSet1
        end
      else Some []
  end.

(** Every turn that does not return moves one occupied cell into the closed
    set, so one turn per segment and a last one suffice. *)
Definition searchBound (road : Road.t) : nat := S (JsMap.size road).

Definition findPathWithin (fuel : nat) (road : Road.t) (start goal : GridPos)
  : option (list GridPos) :=
  let startKey := cellKey start in
  let endKey := cellKey goal in
  if negb (Road.hasSegment start road) || negb (Road.hasSegment goal road)
  then Some []
  else if String.eqb startKey endKey then Some [start]
  else
    let h0 := heuristic start goal in
    let startNode :=
      mkPathNode startKey (fst start) (snd start) 0 h0 (0 + h0) None in
    search fuel road goal (JsMap.set startKey startNode JsMap.empty)
           JsSet.empty.

Definition findPath (road : Road.t) (start goal : GridPos)
  : option (list GridPos) :=
  findPathWithin (searchBound road) road start goal.

(** Manhattan distance from [position] to a stored segment; exact in the
    code while the sum stays below [2 ^ 53]. *)
Definition distanceFrom (position : GridPos) (segment : Road.RoadSegment) : Z :=
  Z.abs (Road.gridX segment - fst position)
  + Z.abs (Road.gridY segment - snd position).

(** One turn of the scan of [findNearestRoad]; [minDistance] starts at
    [Infinity] ([None]). *)
Definition nearer (position : GridPos) (maxDistance : Z)
    (acc : option GridPos * option Z) (segment : Road.RoadSegment)
  : option GridPos * option Z :=
  let distance := distanceFrom position segment in
  let below :=
    match snd acc with
    | None => true
    | Some minDistance => distance <? minDistance
    end in
  if below && (distance <=? maxDistance)
  then (Some (Road.pos segment), Some distance)
  else acc.

(** [findNearestRoad(road, position, maxDistance)]; the source's default
    for [maxDistance] is 5, its callers pass 3. *)
Definition findNearestRoad (road : Road.t) (position : GridPos)
    (maxDistance : Z) : option GridPos :=
  fst (fold_left (nearer position maxDistance)
                 (Road.getAllSegments road) (None, None)).

End Pathfinding.

(* ------------------------------------------------------------------ *)
(** ** Numbers that are not integers *)

(** An integer-valued number as a binary64 value (exact below 2^53). *)
Definition Z2F (z : Z) : float :=
  match z with
  | Z0 => 0%float
  | Zpos _ => of_uint63 (Uint63.of_Z z)
  | Zneg p => (- of_uint63 (Uint63.of_Z (Zpos p)))%float
  end.

(** [Math.floor] of a finite value, read back as an integer.  Infinities
    and NaN have no integer counterpart and are mapped to [0]; the code
    keeps them, and its range tests then fail, so what is stated of cells
    read from a pointer is stated for finite quotients. *)
Definition floorF (x : float) : Z :=
  match Prim2SF x with
  | S754_finite s m e =>
      let n := if s then Zneg m else Zpos m in
      if 0 <=? e then n * 2 ^ e else n / 2 ^ (- e)
  | _ => 0
  end.

(* ------------------------------------------------------------------ *)
(** ** entities/House and entities/Destination *)

Module House.

Record t := {
  gridX : Z;
  gridY : Z;
  color : Z
}.

Definition create (p : GridPos) (c : Z) : t :=
  {| gridX := fst p; gridY := snd p; color := c |}.

Definition getGridPosition (b : t) : GridPos := (gridX b, gridY b).

End House.

Module Destination.

Record t := {
  gridX : Z;
  gridY : Z;
  color : Z;
  waitingCars : Z
}.

(** [new Destination(scene, gridX, gridY, color, grid)]: the counter
    starts at [0]. *)
Definition create (p : GridPos) (c : Z) : t :=
  {| gridX := fst p; gridY := snd p; color := c; waitingCars := 0 |}.

Definition addWaitingCar (d : t) : t :=
  {| gridX := gridX d; gridY := gridY d; color := color d;
     waitingCars := waitingCars d + 1 |}.

Definition removeWaitingCar (d : t) : t :=
  {| gridX := gridX d; gridY := gridY d; color := color d;
     waitingCars := Z.max 0 (waitingCars d - 1) |}.

Definition getWaitingCars (d : t) : Z := waitingCars d.

Definition getGridPosition (d : t) : GridPos := (gridX d, gridY d).

End Destination.

(** The two events that touch a destination's counter. *)
Inductive CounterEvent := CarAssigned | CarArrived.

Definition applyEvent (d : Destination.t) (e : CounterEvent)
  : Destination.t :=
  match e with
  | CarAssigned => Destination.addWaitingCar d
  | CarArrived => Destination.removeWaitingCar d
  end.

(* ------------------------------------------------------------------ *)
(** ** entities/Car *)

Module Car.

(** [currentPathIndex] starts at [0] and is only ever incremented; it is a
    natural number here. *)
Record t := {
  x : float;
  y : float;
  color : Z;
  targetDestination : option GridPos;
  path : list GridPos;
  currentPathIndex : nat;
  speed : float;
  isMoving : bool;
  lastX : float;
  lastY : float
}.

(** [new Car(scene, x, y, color)]. *)
Definition create (cfg : GameConfig.t) (x0 y0 : float) (c : Z) : t :=
  {| x := x0; y := y0; color := c; targetDestination := None;
     path := []; currentPathIndex := 0;
     speed := Z2F (GameConfig.CAR_SPEED cfg); isMoving := false;
     lastX := x0; lastY := y0 |}.

Definition setPath (p : list GridPos) (c : t) : t :=
  {| x := x c; y := y c; color := color c;
     targetDestination := targetDestination c;
     path := p; currentPathIndex := 0;
     speed := speed c; isMoving := (0 <? List.length p)%nat;
     lastX := lastX c; lastY := lastY c |}.

Definition setTarget (d : GridPos) (c : t) : t :=
  {| x := x c; y := y c; color := color c;
     targetDestination := Some d;
     path := path c; currentPathIndex := currentPathIndex c;
     speed := speed c; isMoving := isMoving c;
     lastX := lastX c; lastY := lastY c |}.

Definition stopped (c : t) : t :=
  {| x := x c; y := y c; color := color c;
     targetDestination := targetDestination c;
     path := path c; currentPathIndex := currentPathIndex c;
     speed := speed c; isMoving := false;
     lastX := lastX c; lastY := lastY c |}.

Definition atIndex (i : nat) (c : t) : t :=
  {| x := x c; y := y c; color := color c;
     targetDestination := targetDestination c;
     path := path c; currentPathIndex := i;
     speed := speed c; isMoving := isMoving c;
     lastX := lastX c; lastY := lastY c |}.

Definition movedBy (moveX moveY : float) (c : t) : t :=
  {| x := (x c + moveX)%float; y := (y c + moveY)%float; color := color c;
     targetDestination := targetDestination c;
     path := path c; currentPathIndex := currentPathIndex c;
     speed := speed c; isMoving := isMoving c;
     lastX := x c; lastY := y c |}.

(** World coordinate of a cell centre along one axis. *)
Definition cellCentre (cfg : GameConfig.t) (gridCoord : Z) : float :=
  let gridSize := Z2F (GameConfig.GRID_SIZE cfg) in
  (Z2F gridCoord * gridSize + gridSize / 2)%float.

(** Distance to the current waypoint, as [update] computes it. *)
Definition distanceTo (cfg : GameConfig.t) (target : GridPos) (c : t)
  : float :=
  let dx := (cellCentre cfg (fst target) - x c)%float in
  let dy := (cellCentre cfg (snd target) - y c)%float in
  PrimFloat.sqrt (dx * dx + dy * dy)%float.

(** [update(delta)]: the returned flag is the method's result. *)
Definition update (cfg : GameConfig.t) (delta : float) (c : t) : bool * t :=
  if negb (isMoving c) || (List.length (path c) =? 0)%nat then (false, c)
  else if (List.length (path c) <=? currentPathIndex c)%nat
  then (true, stopped c)
  else
    let target := nth (currentPathIndex c) (path c) (0, 0) in
    let dx := (cellCentre cfg (fst target) - x c)%float in
    let dy := (cellCentre cfg (snd target) - y c)%float in
    let distance := PrimFloat.sqrt (dx * dx + dy * dy)%float in
    if PrimFloat.ltb distance 3 then
      let c1 := atIndex (S (currentPathIndex c)) c in
      if (List.length (path c1) <=? currentPathIndex c1)%nat
      then (true, stopped c1)
      else (false, c1)
    else
      let moveDistance := (speed c * delta / 1000)%float in
      let moveX := (dx / distance * moveDistance)%float in
      let moveY := (dy / distance * moveDistance)%float in
      (false, movedBy moveX moveY c).

Definition hasReachedDestination (c : t) : bool :=
  negb (isMoving c) && (List.length (path c) <=? currentPathIndex c)%nat.

Definition getPosition (c : t) : float * float := (x c, y c).

End Car.

(* ------------------------------------------------------------------ *)
(** ** utils/Grid and utils/ColorManager *)

Module Grid.

(** The grid reads its cell size and dimensions from [GameConfig]. *)
Definition worldToGrid (cfg : GameConfig.t) (x y : float) : GridPos :=
  let gridSize := Z2F (GameConfig.GRID_SIZE cfg) in
  (floorF (x / gridSize), floorF (y / gridSize)).

Definition gridToWorld (cfg : GameConfig.t) (p : GridPos) : float * float :=
  let gridSize := Z2F (GameConfig.GRID_SIZE cfg) in
  ((Z2F (fst p) * gridSize + gridSize / 2)%float,
   (Z2F (snd p) * gridSize + gridSize / 2)%float).

Definition snapToGrid (cfg : GameConfig.t) (x y : float) : float * float :=
  gridToWorld cfg (worldToGrid cfg x y).

Definition isValidGridPosition (cfg : GameConfig.t) (p : GridPos) : bool :=
  (0 <=? fst p) && (fst p <? GameConfig.GAME_WIDTH cfg)
  && (0 <=? snd p) && (snd p <? GameConfig.GAME_HEIGHT cfg).

(** [getNeighbors]: the cells up, right, down and left that lie on the
    grid, in that order. *)
Definition getNeighbors (cfg : GameConfig.t) (p : GridPos) : list GridPos :=
  filter (isValidGridPosition cfg) (map (shift p) directions).

End Grid.

Module ColorManager.

Definition colorsMatch (color1 color2 : Z) : bool := color1 =? color2.

(** [getColor(index)] is [colors[index % colors.length]]: JavaScript's
    [%] takes the sign of the dividend, and reading an array at a negative
    index gives [undefined] ([None]). *)
Definition getColor (cfg : GameConfig.t) (index : Z) : option Z :=
  let colors := GameConfig.COLORS cfg in
  let i := Z.rem index (Z.of_nat (List.length colors)) in
  if i <? 0 then None else nth_error colors (Z.to_nat i).

End ColorManager.

(* ------------------------------------------------------------------ *)
(** ** systems/TrafficManager *)

Module TrafficManager.

Definition atTarget (target : GridPos) (d : Destination.t) : bool :=
  (Destination.gridX d =? fst target) && (Destination.gridY d =? snd target).

(** [findDestinationForCar] followed by [dest.removeWaitingCar()]: the
    first destination at the car's target cell, if any, is decremented. *)
Fixpoint releaseAt (target : GridPos) (destinations : list Destination.t)
  : list Destination.t :=
  match destinations with
  | [] => []
  | d :: rest =>
      if atTarget target d then Destination.removeWaitingCar d :: rest
      else d :: releaseAt target rest
  end.

Definition release (car : Car.t) (destinations : list Destination.t)
  : list Destination.t :=
  match Car.targetDestination car with
  | None => destinations
  | Some target => releaseAt target destinations
  end.

(** [update(time, delta, destinations)]: the loop runs from the last index
    down to the first, so the tail of the list is processed before its
    head; a car that reports arrival is spliced out. *)
Fixpoint update (cfg : GameConfig.t) (delta : float) (cars : list Car.t)
    (destinations : list Destination.t)
  : list Car.t * list Destination.t :=
  match cars with
  | [] => ([], destinations)
  | car :: rest =>
      let '(rest', destinations1) := update cfg delta rest destinations in
      let '(reachedDestination, car') := Car.update cfg delta car in
      if reachedDestination
      then (rest', release car' destinations1)
      else (car' :: rest', destinations1)
  end.

(** Outcome of the search for a destination in [spawnCar]. *)
Inductive Choice :=
| NoRoute
| Route (path : list GridPos) (target : Destination.t)
        (destinations' : list Destination.t).

(** The [for (const dest of matchingDestinations)] loop of [spawnCar],
    run over the whole array with the colour test of the [filter] inside.
    The first destination of the house's colour that has a road cell
    nearby and a non-empty route is chosen; it is the very object whose
    counter [addWaitingCar] later raises, so the list is returned with
    that element updated in place.  [None]: the router hit its bound. *)
Fixpoint chooseDestination (road : Road.t) (houseColor : Z)
    (nearestRoad : GridPos) (destinations : list Destination.t)
  : option Choice :=
  match destinations with
  | [] => Some NoRoute
  | dest :: rest =>
      let next :=
        match chooseDestination road houseColor nearestRoad rest with
        | Some (Route path target rest') =>
            Some (Route path target (dest :: rest'))
        | other => other
        end in
      if ColorManager.colorsMatch (Destination.color dest) houseColor then
        match Pathfinding.findNearestRoad
                road (Destination.getGridPosition dest) 3 with
        | Some destNearestRoad =>
            match Pathfinding.findPath road nearestRoad destNearestRoad with
            | None => None
            | Some testPath =>
                if (0 <? List.length testPath)%nat
                then Some (Route testPath dest
                                 (Destination.addWaitingCar dest :: rest))
                else next
            end
        | None => next
        end
      else next
  end.

(** One firing of a house's [spawnCar] callback.  Every branch re-arms the
    timer with the same delay; the timer is not part of the state. *)
Definition spawnCar (cfg : GameConfig.t) (road : Road.t) (house : House.t)
    (cars : list Car.t) (destinations : list Destination.t)
  : option (list Car.t * list Destination.t) :=
  let matchingDestinations :=
    filter (fun dest =>
              ColorManager.colorsMatch (Destination.color dest)
                                       (House.color house))
           destinations in
  if (List.length matchingDestinations =? 0)%nat
  then Some (cars, destinations)
  else
    match Pathfinding.findNearestRoad
            road (House.getGridPosition house) 3 with
    | None => Some (cars, destinations)
    | Some nearestRoad =>
        match chooseDestination road (House.color house) nearestRoad
                                destinations with
        | None => None
        | Some NoRoute => Some (cars, destinations)
        | Some (Route path targetDestination destinations') =>
            let worldPos := Grid.gridToWorld cfg nearestRoad in
            let car :=
              Car.create cfg (fst worldPos) (snd worldPos)
                         (House.color house) in
            let destGridPos :=
              Destination.getGridPosition targetDestination in
            let path' :=
              match Pathfinding.findNearestRoad road destGridPos 3 with
              | Some destNearestRoad =>
                  let lastPathNode := last path (0, 0) in
                  if negb (fst lastPathNode =? fst destNearestRoad)
                     || negb (snd lastPathNode =? snd destNearestRoad)
                  then path ++ [destNearestRoad]
                  else path
              | None => path
              end in
            let car' := Car.setTarget destGridPos (Car.setPath path' car) in
            Some (cars ++ [car'], destinations')
        end
    end.

End TrafficManager.

(* ------------------------------------------------------------------ *)
(** ** systems/GameState *)

Module GameStateManager.

Fixpoint checkGameOver (cfg : GameConfig.t)
    (destinations : list Destination.t) : bool :=
  match destinations with
  | [] => false
  | dest :: rest =>
      if GameConfig.MAX_CARS_PER_DESTINATION cfg
           <=? Destination.getWaitingCars dest
      then true
      else checkGameOver cfg rest
  end.

Inductive GameState := MENU | PLAYING | GAME_OVER.

Definition GameState_eqb (a b : GameState) : bool :=
  match a, b with
  | MENU, MENU | PLAYING, PLAYING | GAME_OVER, GAME_OVER => true
  | _, _ => false
  end.

(** [startTime] is what [Date.now()] returned in [startGame]. *)
Record t := {
  state : GameState;
  score : Z;
  startTime : Z
}.

Definition create : t := {| state := MENU; score := 0; startTime := 0 |}.

Definition startGame (now : Z) (g : t) : t :=
  {| state := PLAYING; score := 0; startTime := now |}.

Definition endGame (g : t) : t :=
  {| state := GAME_OVER; score := score g; startTime := startTime g |}.

Definition returnToMenu (g : t) : t :=
  {| state := MENU; score := score g; startTime := startTime g |}.

Definition addScore (points : Z) (g : t) : t :=
  {| state := state g; score := score g + points; startTime := startTime g |}.

Definition getScore (g : t) : Z := score g.

Definition getState (g : t) : GameState := state g.

End GameStateManager.

(* ------------------------------------------------------------------ *)
(** ** systems/SpawnManager *)

Module SpawnManager.

#[local] Set Warnings "-inexact-float".

(** [Math.random()] is an oracle: the [n]-th call of a run returns
    [random n].  [draws] counts the calls made so far. *)
Record t := {
  houses : list House.t;
  destinations : list Destination.t;
  draws : nat
}.

Definition create : t := {| houses := []; destinations := []; draws := 0 |}.

Definition manhattan (a b : GridPos) : Z :=
  Z.abs (fst a - fst b) + Z.abs (snd a - snd b).

Definition isValidSpawnPosition (road : Road.t) (st : t) (p : GridPos)
  : bool :=
  if Road.hasSegment p road then false
  else
    let minDistance := 3 in
    if existsb (fun house =>
                  manhattan (House.getGridPosition house) p <? minDistance)
               (houses st)
    then false
    else if existsb (fun destination =>
                  manhattan (Destination.getGridPosition destination) p
                    <? minDistance)
               (destinations st)
    then false
    else true.

(** [Math.floor(Math.random() * n)] at draw number [i]. *)
Definition randomBelow (random : nat -> float) (i : nat) (n : Z) : Z :=
  floorF (random i * Z2F n)%float.

(** The [for (let attempt = 0; attempt < maxAttempts; attempt++)] loop;
    [i] is the number of draws made before the attempt. *)
Fixpoint tryPositions (attempts : nat) (random : nat -> float)
    (cfg : GameConfig.t) (road : Road.t) (st : t) (i : nat)
  : option GridPos * nat :=
  match attempts with
  | O => (None, i)
  | S attempts' =>
      let gridX := randomBelow random i (GameConfig.GAME_WIDTH cfg) in
      let gridY := randomBelow random (S i) (GameConfig.GAME_HEIGHT cfg) in
      if isValidSpawnPosition road st (gridX, gridY)
      then (Some (gridX, gridY), S (S i))
      else tryPositions attempts' random cfg road st (S (S i))
  end.

Definition maxAttempts : nat := 50.

Definition findValidSpawnPosition (random : nat -> float)
    (cfg : GameConfig.t) (road : Road.t) (st : t) : option GridPos * nat :=
  tryPositions maxAttempts random cfg road st (draws st).

(** [ColorManager.getRandomColor()] at draw number [i]; an index outside
    the palette reads [undefined], which has no counterpart and is [0]. *)
Definition getRandomColor (random : nat -> float) (cfg : GameConfig.t)
    (i : nat) : Z :=
  let colors := GameConfig.COLORS cfg in
  nth (Z.to_nat (randomBelow random i (Z.of_nat (List.length colors))))
      colors 0.

Definition spawnHouse (random : nat -> float) (cfg : GameConfig.t)
    (road : Road.t) (st : t) : t :=
  match findValidSpawnPosition random cfg road st with
  | (None, i) =>
      {| houses := houses st; destinations := destinations st; draws := i |}
  | (Some position, i) =>
      let color := getRandomColor random cfg i in
      {| houses := houses st ++ [House.create position color];
         destinations := destinations st;
         draws := S i |}
  end.

Definition spawnDestination (random : nat -> float) (cfg : GameConfig.t)
    (road : Road.t) (st : t) : t :=
  match findValidSpawnPosition random cfg road st with
  | (None, i) =>
      {| houses := houses st; destinations := destinations st; draws := i |}
  | (Some position, i) =>
      let color0 := getRandomColor random cfg i in
      let matchHouse :=
        PrimFloat.ltb (random (S i)) 0.7 && (0 <? List.length (houses st))%nat
      in
      let color :=
        if matchHouse
        then House.color
               (nth (Z.to_nat (randomBelow random (S (S i))
                                 (Z.of_nat (List.length (houses st)))))
                    (houses st) (House.create (0, 0) 0))
        else color0 in
      {| houses := houses st;
         destinations := destinations st ++ [Destination.create position color];
         draws := if matchHouse then S (S (S i)) else S (S i) |}
  end.

Definition spawnBuilding (random : nat -> float) (cfg : GameConfig.t)
    (road : Road.t) (st : t) : t :=
  let shouldSpawnHouse :=
    (List.length (houses st) <=? List.length (destinations st))%nat in
  if shouldSpawnHouse then spawnHouse random cfg road st
  else spawnDestination random cfg road st.

Definition getDestinationsByColor (color : Z) (st : t)
  : list Destination.t :=
  filter (fun dest => Destination.color dest =? color) (destinations st).

(** Positions of all buildings placed so far. *)
Definition buildings (st : t) : list GridPos :=
  map House.getGridPosition (houses st)
  ++ map Destination.getGridPosition (destinations st).

End SpawnManager.

(** A spawn call together with the road as it is when the call is made. *)
Inductive SpawnCall :=
| CallSpawnHouse (road : Road.t)
| CallSpawnDestination (road : Road.t)
| CallSpawnBuilding (road : Road.t).

Definition applySpawn (random : nat -> float) (cfg : GameConfig.t)
    (st : SpawnManager.t) (c : SpawnCall) : SpawnManager.t :=
  match c with
  | CallSpawnHouse road => SpawnManager.spawnHouse random cfg road st
  | CallSpawnDestination road => SpawnManager.spawnDestination random cfg road st
  | CallSpawnBuilding road => SpawnManager.spawnBuilding random cfg road st
  end.

Definition runSpawns (random : nat -> float) (cfg : GameConfig.t)
    (calls : list SpawnCall) : SpawnManager.t :=
  fold_left (applySpawn random cfg) calls SpawnManager.create.

(** The spawn cadence of [SpawnManager]: the constants it reads from
    [GameConfig] and the interval update of [scheduleNextSpawn]. *)
Module SpawnCadence.

Record t := {
  INITIAL_SPAWN_DELAY : Z;
  SPAWN_INTERVAL : Z;
  SPAWN_INTERVAL_DECREASE : Z;
  MIN_SPAWN_INTERVAL : Z
}.

Definition lenient : t :=
  {| INITIAL_SPAWN_DELAY := 6000; SPAWN_INTERVAL := 8000;
     SPAWN_INTERVAL_DECREASE := 50; MIN_SPAWN_INTERVAL := 4000 |}.

Definition original : t :=
  {| INITIAL_SPAWN_DELAY := 4000; SPAWN_INTERVAL := 6000;
     SPAWN_INTERVAL_DECREASE := 100; MIN_SPAWN_INTERVAL := 2500 |}.

(** [scheduleNextSpawn]: the new value of [currentSpawnInterval], which
    is also the delay of the timer it arms. *)
Definition scheduleNextSpawn (c : t) (currentSpawnInterval : Z) : Z :=
  Z.max (MIN_SPAWN_INTERVAL c)
        (currentSpawnInterval - SPAWN_INTERVAL_DECREASE c).

(** The interval after [n] calls, from the constructor's initial value. *)
Definition intervalAfter (c : t) (n : nat) : Z :=
  Nat.iter n (scheduleNextSpawn c) (SPAWN_INTERVAL c).

End SpawnCadence.

(* ------------------------------------------------------------------ *)
(** ** systems/RoadBuilder *)

Module RoadBuilder.

(** The [while (true)] loop of [getPathBetween]; [None] when [fuel] turns
    did not reach the end cell.  The steps [x0 + sx], [y0 + sy] and the
    error term are exact in the code for cells below [2 ^ 25] in
    magnitude; beyond [2 ^ 53] a step of the code can leave [x0] where it
    is. *)
Fixpoint trace (fuel : nat) (x0 y0 x1 y1 dx dy sx sy err : Z)
  : option (list GridPos) :=
  match fuel with
  | O => None
  | S fuel' =>
      if (x0 =? x1) && (y0 =? y1) then Some [(x0, y0)]
      else
        let e2 := 2 * err in
        let stepX := - dy <? e2 in
        let err1 := if stepX then err - dy else err in
        let x0' := if stepX then x0 + sx else x0 in
        let stepY := e2 <? dx in
        let err2 := if stepY then err1 + dx else err1 in
        let y0' := if stepY then y0 + sy else y0 in
        option_map (cons (x0, y0))
                   (trace fuel' x0' y0' x1 y1 dx dy sx sy err2)
  end.

Definition getPathBetweenWithin (fuel : nat) (start finish : GridPos)
  : option (list GridPos) :=
  let x0 := fst start in
  let y0 := snd start in
  let x1 := fst finish in
  let y1 := snd finish in
  let dx := Z.abs (x1 - x0) in
  let dy := Z.abs (y1 - y0) in
  let sx := if x0 <? x1 then 1 else -1 in
  let sy := if y0 <? y1 then 1 else -1 in
  let err := dx - dy in
  trace fuel x0 y0 x1 y1 dx dy sx sy err.

(** Each turn moves at least one coordinate one step towards the end, so
    one turn per step and a last one suffice. *)
Definition traceBound (start finish : GridPos) : nat :=
  S (Z.to_nat (Z.abs (fst finish - fst start)
               + Z.abs (snd finish - snd start))).

Definition getPathBetween (start finish : GridPos) : option (list GridPos) :=
  getPathBetweenWithin (traceBound start finish) start finish.

(** [buildRoadPath]: add every cell of the line. *)
Definition buildRoadPath (road : Road.t) (start finish : GridPos)
  : option Road.t :=
  option_map
    (fun path =>
       fold_left (fun r segment => snd (Road.addSegment segment r)) path road)
    (getPathBetween start finish).

(** The later revision of the builder builds while the pointer is dragged
    and erases with the right button.  Its own fields: *)
Record t := {
  isBuilding : bool;
  isErasing : bool;
  lastBuiltPos : option GridPos
}.

Definition create : t :=
  {| isBuilding := false; isErasing := false; lastBuiltPos := None |}.

(** What the handlers read from a Phaser pointer. *)
Record Pointer := {
  x : float;
  y : float;
  rightButtonDown : bool;
  leftButtonDown : bool;
  isDown : bool
}.

Definition eraseAt (cfg : GameConfig.t) (x y : float) (road : Road.t)
  : Road.t :=
  let gridPos := Grid.worldToGrid cfg x y in
  if Grid.isValidGridPosition cfg gridPos
  then if Road.hasSegment gridPos road
       then snd (Road.removeSegment gridPos road)
       else road
  else road.

(** [upgradeSelected] is what [checkUpgradeSelected && checkUpgradeSelected()]
    evaluates to at the call. *)
Definition startBuilding (cfg : GameConfig.t) (upgradeSelected : bool)
    (x y : float) (st : t) (road : Road.t) : t * Road.t :=
  if upgradeSelected then (st, road)
  else
    let gridPos := Grid.worldToGrid cfg x y in
    if negb (Grid.isValidGridPosition cfg gridPos) then (st, road)
    else
      ({| isBuilding := true; isErasing := isErasing st;
          lastBuiltPos := Some gridPos |},
       snd (Road.addSegment gridPos road)).

Definition continueBuilding (cfg : GameConfig.t) (x y : float)
    (st : t) (road : Road.t) : option (t * Road.t) :=
  match lastBuiltPos st with
  | None => Some (st, road)
  | Some last =>
      if negb (isBuilding st) then Some (st, road)
      else
        let currentGridPos := Grid.worldToGrid cfg x y in
        if negb (Grid.isValidGridPosition cfg currentGridPos)
        then Some (st, road)
        else if negb (fst currentGridPos =? fst last)
                || negb (snd currentGridPos =? snd last)
        then
          option_map
            (fun path =>
               ({| isBuilding := isBuilding st; isErasing := isErasing st;
                   lastBuiltPos := Some currentGridPos |},
                fold_left (fun r segment => snd (Road.addSegment segment r))
                          path road))
            (getPathBetween last currentGridPos)
        else Some (st, road)
  end.

Definition stopBuilding (st : t) : t :=
  {| isBuilding := false; isErasing := isErasing st; lastBuiltPos := None |}.

(** The three handlers that [setupInput] registers. *)
Definition onPointerDown (cfg : GameConfig.t) (upgradeSelected : bool)
    (pointer : Pointer) (st : t) (road : Road.t) : t * Road.t :=
  if rightButtonDown pointer
  then ({| isBuilding := isBuilding st; isErasing := true;
           lastBuiltPos := lastBuiltPos st |},
        eraseAt cfg (x pointer) (y pointer) road)
  else if leftButtonDown pointer
  then startBuilding cfg upgradeSelected (x pointer) (y pointer) st road
  else (st, road).

Definition onPointerMove (cfg : GameConfig.t) (pointer : Pointer)
    (st : t) (road : Road.t) : option (t * Road.t) :=
  if isErasing st && isDown pointer
  then Some (st, eraseAt cfg (x pointer) (y pointer) road)
  else if isBuilding st && isDown pointer
  then continueBuilding cfg (x pointer) (y pointer) st road
  else Some (st, road).

Definition onPointerUp (st : t) (road : Road.t) : t * Road.t :=
  let st1 := if isBuilding st then stopBuilding st else st in
  ({| isBuilding := isBuilding st1; isErasing := false;
      lastBuiltPos := lastBuiltPos st1 |},
   road).

End RoadBuilder.

(** The pointer events the builder listens to; a press carries what the
    upgrade check answers at that moment. *)
Inductive InputEvent :=
| PointerDown (upgradeSelected : bool) (pointer : RoadBuilder.Pointer)
| PointerMove (pointer : RoadBuilder.Pointer)
| PointerUp (pointer : RoadBuilder.Pointer).

Definition handleInput (cfg : GameConfig.t)
    (acc : option (RoadBuilder.t * Road.t)) (e : InputEvent)
  : option (RoadBuilder.t * Road.t) :=
  match acc with
  | None => None
  | Some (st, road) =>
      match e with
      | PointerDown upgradeSelected pointer =>
          Some (RoadBuilder.onPointerDown cfg upgradeSelected pointer st road)
      | PointerMove pointer => RoadBuilder.onPointerMove cfg pointer st road
      | PointerUp _ => Some (RoadBuilder.onPointerUp st road)
      end
  end.

(* ------------------------------------------------------------------ *)
(** ** systems/UpgradeManager *)

Module UpgradeManager.

Inductive UpgradeType := ROUNDABOUT | BRIDGE.

(** The enum's string values, which key the [upgradeCounts] map. *)
Definition typeKey (type : UpgradeType) : string :=
  match type with
  | ROUNDABOUT => "roundabout"
  | BRIDGE => "bridge"
  end.

Record Upgrade := {
  gridX : Z;
  gridY : Z;
  type : UpgradeType
}.

Record t := {
  upgrades : list Upgrade;
  selectedUpgradeType : option UpgradeType;
  upgradeCounts : JsMap.t Z
}.

Definition create : t :=
  {| upgrades := [];
     selectedUpgradeType := None;
     upgradeCounts :=
       JsMap.set (typeKey BRIDGE) 0
                 (JsMap.set (typeKey ROUNDABOUT) 0 JsMap.empty) |}.

Definition selectUpgrade (type : option UpgradeType) (m : t) : t :=
  {| upgrades := upgrades m;
     selectedUpgradeType := type;
     upgradeCounts := upgradeCounts m |}.

Definition getSelectedUpgrade (m : t) : option UpgradeType :=
  selectedUpgradeType m.

Definition atCell (p : GridPos) (upgrade : Upgrade) : bool :=
  (gridX upgrade =? fst p) && (gridY upgrade =? snd p).

Definition hasUpgradeAt (p : GridPos) (m : t) : bool :=
  existsb (atCell p) (upgrades m).

Definition getUpgradeAt (p : GridPos) (m : t) : option Upgrade :=
  find (atCell p) (upgrades m).

(** [this.upgradeCounts.get(type) || 0]. *)
Definition getUpgradeCount (type : UpgradeType) (m : t) : Z :=
  match JsMap.get (typeKey type) (upgradeCounts m) with
  | Some n => n
  | None => 0
  end.

Definition placeUpgrade (road : Road.t) (p : GridPos) (m : t) : bool * t :=
  match selectedUpgradeType m with
  | None => (false, m)
  | Some selected =>
      if negb (Road.hasSegment p road) then (false, m)
      else if hasUpgradeAt p m then (false, m)
      else
        let upgrade :=
          {| gridX := fst p; gridY := snd p; type := selected |} in
        let currentCount := getUpgradeCount selected m in
        (true,
         {| upgrades := upgrades m ++ [upgrade];
            selectedUpgradeType := selectedUpgradeType m;
            upgradeCounts :=
              JsMap.set (typeKey selected) (currentCount + 1)
                        (upgradeCounts m) |})
  end.

End UpgradeManager.

(** The calls a client can make on an [UpgradeManager], each placement
    with the road as it is at that moment. *)
Inductive UpgradeCall :=
| SelectUpgrade (type : option UpgradeManager.UpgradeType)
| PlaceUpgrade (road : Road.t) (p : GridPos).

Definition applyUpgradeCall (m : UpgradeManager.t) (c : UpgradeCall)
  : UpgradeManager.t :=
  match c with
  | SelectUpgrade type => UpgradeManager.selectUpgrade type m
  | PlaceUpgrade road p => snd (UpgradeManager.placeUpgrade road p m)
  end.

Definition runUpgradeCalls (calls : list UpgradeCall) : UpgradeManager.t :=
  fold_left applyUpgradeCall calls UpgradeManager.create.

(* ------------------------------------------------------------------ *)
(** ** scenes/GameScene: the per-frame driver *)

Module GameScene.

(** The scene's share of the simulation state: the run state, the live
    cars of its [TrafficManager] and the destinations of its
    [SpawnManager]. *)
Record t := {
  gameState : GameStateManager.t;
  cars : list Car.t;
  destinations : list Destination.t
}.

(** The state after [create()]: the game is started at once. *)
Definition create (now : Z) : t :=
  {| gameState := GameStateManager.startGame now GameStateManager.create;
     cars := [];
     destinations := [] |}.

(** [update(time, delta)]. *)
Definition update (cfg : GameConfig.t) (delta : float) (s : t) : t :=
  if negb (GameStateManager.GameState_eqb
             (GameStateManager.getState (gameState s))
             GameStateManager.PLAYING)
  then s
  else
    let carsBefore := Z.of_nat (List.length (cars s)) in
    let '(cars', destinations') :=
      TrafficManager.update cfg delta (cars s) (destinations s) in
    let carsAfter := Z.of_nat (List.length cars') in
    let deliveries := carsBefore - carsAfter in
    let gameState1 :=
      if 0 <? deliveries
      then GameStateManager.addScore
             (deliveries * GameConfig.POINTS_PER_DELIVERY cfg) (gameState s)
      else gameState s in
    let gameState2 :=
      if GameStateManager.checkGameOver cfg destinations'
      then GameStateManager.endGame gameState1
      else gameState1 in
    {| gameState := gameState2; cars := cars';
       destinations := destinations' |}.

End GameScene.

(** What happens to a running scene: a house's spawn timer fires (against
    the road its history has built by then), a frame is drawn, or the
    spawn manager opens a new destination. *)
Inductive SceneEvent :=
| HouseFires (history : list RoadOp) (house : House.t)
| FrameTick (delta : float)
| DestinationOpens (p : GridPos) (color : Z).

(** A scene together with the number of cars spawned so far. *)
Definition applySceneEvent (cfg : GameConfig.t)
    (acc : option (GameScene.t * nat)) (e : SceneEvent)
  : option (GameScene.t * nat) :=
  match acc with
  | None => None
  | Some (s, spawned) =>
      match e with
      | HouseFires history house =>
          match TrafficManager.spawnCar cfg (buildRoad history) house
                  (GameScene.cars s) (GameScene.destinations s) with
          | None => None
          | Some (cars', destinations') =>
              Some ({| GameScene.gameState := GameScene.gameState s;
                       GameScene.cars := cars';
                       GameScene.destinations := destinations' |},
                    (spawned + (List.length cars'
                                - List.length (GameScene.cars s)))%nat)
          end
      | FrameTick delta => Some (GameScene.update cfg delta s, spawned)
      | DestinationOpens p color =>
          Some ({| GameScene.gameState := GameScene.gameState s;
                   GameScene.cars := GameScene.cars s;
                   GameScene.destinations :=
                     GameScene.destinations s
                     ++ [Destination.create p color] |},
                spawned)
      end
  end.

Definition runScene (cfg : GameConfig.t) (now : Z) (events : list SceneEvent)
  : option (GameScene.t * nat) :=
  fold_left (applySceneEvent cfg) events (Some (GameScene.create now, 0%nat)).

(* ================================================================== *)
(** * Vocabulary of the properties *)

(** No character of [s] is a comma. *)
Fixpoint noComma (s : string) : bool :=
  match s with
  | EmptyString => true
  | String c s' => negb (Ascii.eqb c ","%char) && noComma s'
  end.

(** [b] is one step up, right, down or left of [a]. *)
Definition adjacent4 (a b : GridPos) : Prop :=
  exists d, In d directions /\ b = shift a d.

(** What a stored segment must look like in a given road: it sits under
    its own key, and its neighbour set lists, once each, exactly the keys
    of the occupied cells one step away. *)
Definition segmentOk (r : Road.t) (k : string) (s : Road.RoadSegment) : Prop :=
  k = cellKey (Road.pos s) /\
  NoDup (Road.neighbors s) /\
  forall k', In k' (Road.neighbors s) <->
             (exists q, k' = cellKey q /\ adjacent4 (Road.pos s) q) /\
             JsMap.has k' r = true.

(** A well-formed road: one entry per key, every stored segment as
    [segmentOk] asks. *)
Definition roadInvariant (r : Road.t) : Prop :=
  NoDup (JsMap.keys r) /\
  forall k s, JsMap.get k r = Some s -> segmentOk r k s.

(** The keys a cell's segment lists as neighbours (none if the cell is
    free). *)
Definition neighborKeys (r : Road.t) (a : GridPos) : list string :=
  match JsMap.get (cellKey a) r with
  | Some s => Road.neighbors s
  | None => []
  end.

(** [roadPath r a e p]: [p] lists occupied cells from [a] to [e], each one
    step from the one before. *)
Inductive roadPath (r : Road.t) : GridPos -> GridPos -> list GridPos -> Prop :=
| roadPath_one a :
    Road.hasSegment a r = true -> roadPath r a a [a]
| roadPath_cons a b e p :
    Road.hasSegment a r = true -> adjacent4 a b ->
    roadPath r b e p -> roadPath r a e (a :: p).

(** Number of edges of a path given as its list of cells. *)
Definition edgeCount (p : list GridPos) : Z := Z.of_nat (List.length p) - 1.

(** [walk r s c n]: [c] is reached from [s] in [n] steps along the stored
    neighbour lists. *)
Inductive walk (r : Road.t) (s : GridPos) : GridPos -> Z -> Prop :=
| walk_here : walk r s s 0
| walk_step c w n :
    walk r s c n -> In w (Road.getNeighbors c r) -> walk r s w (n + 1).

(** A node and its parents record a route from [start]: each node sits on
    an occupied cell under that cell's key, one stored-neighbour step from
    its parent and one unit dearer, with [h] the heuristic and
    [f = g + h]. *)
Fixpoint chainOk (r : Road.t) (start goal : GridPos)
    (n : Pathfinding.PathNode) : Prop :=
  match n with
  | Pathfinding.mkPathNode k x y g h f par =>
      k = cellKey (x, y) /\
      Road.hasSegment (x, y) r = true /\
      h = Pathfinding.heuristic (x, y) goal /\
      f = g + h /\
      match par with
      | None => (x, y) = start /\ g = 0
      | Some p =>
          g = Pathfinding.g p + 1 /\
          In (x, y) (Road.getNeighbors (Pathfinding.pos p) r) /\
          chainOk r start goal p
      end
  end.

(** The loop invariant of [search]. *)
Record searchInv (r : Road.t) (start goal : GridPos)
    (openSet : JsMap.t Pathfinding.PathNode)
    (closedSet : JsSet.t) : Prop := {
  inv_open_keys : NoDup (JsMap.keys openSet);
  inv_open_nodes : forall k n,
      JsMap.get k openSet = Some n ->
      Pathfinding.key n = k /\ chainOk r start goal n /\ ~ In k closedSet;
  inv_closed_nodup : NoDup closedSet;
  inv_closed_occupied : forall k,
      In k closedSet -> In k (JsMap.keys r);
  inv_goal_open : ~ In (cellKey goal) closedSet;
  inv_start : In (cellKey start) closedSet \/
      exists n, JsMap.get (cellKey start) openSet = Some n /\
                Pathfinding.g n <= 0;
  inv_expanded : forall c m w,
      In (cellKey c) closedSet -> walk r start c m ->
      In w (Road.getNeighbors c r) ->
      In (cellKey w) closedSet \/
      exists n, JsMap.get (cellKey w) openSet = Some n /\
                Pathfinding.g n <= m + 1
}.

(** What the neighbour loop keeps true of the open set. *)
Definition openOk (r : Road.t) (start goal : GridPos) (closedSet : JsSet.t)
    (openSet : JsMap.t Pathfinding.PathNode) : Prop :=
  NoDup (JsMap.keys openSet) /\
  forall k n, JsMap.get k openSet = Some n ->
              Pathfinding.key n = k /\ chainOk r start goal n /\ ~ In k closedSet.

(** Nodes stay in the open set and their cost never grows. *)
Definition improves (before after : JsMap.t Pathfinding.PathNode) : Prop :=
  forall k n, JsMap.get k before = Some n ->
              exists n', JsMap.get k after = Some n' /\
                         Pathfinding.g n' <= Pathfinding.g n.

(** A neighbour of [current] is closed or open at cost [g current + 1] at
    most. *)
Definition reached (current : Pathfinding.PathNode) (closedSet : JsSet.t)
    (openSet : JsMap.t Pathfinding.PathNode) (w : GridPos) : Prop :=
  In (cellKey w) closedSet \/
  exists n, JsMap.get (cellKey w) openSet = Some n /\
            Pathfinding.g n <= Pathfinding.g current + 1.

(** A closed ring of eight cells around (1,1), drawn clockwise from the
    origin. *)
Definition ringOps : list RoadOp :=
  map AddSegment
      [(0, 0); (1, 0); (2, 0); (2, 1); (2, 2); (1, 2); (0, 2); (0, 1)].

(** The same ring with its top-right cell erased again and two loose
    cells far away. *)
Definition brokenRingOps : list RoadOp :=
  ringOps ++ [RemoveSegment (2, 0); AddSegment (7, 7); AddSegment (8, 7)].

(** A destination after a sequence of counter events. *)
Definition runEvents (d : Destination.t) (events : list CounterEvent)
  : Destination.t :=
  fold_left applyEvent events d.

(** The change of the counter the design document asks of one event. *)
Definition unitStep (d : Destination.t) (e : CounterEvent) : Prop :=
  Destination.waitingCars (applyEvent d e) - Destination.waitingCars d =
  match e with CarAssigned => 1 | CarArrived => -1 end.

(** The tick is a snap tick for [c]: the car is moving, has a current
    waypoint, and is closer to it than the snap threshold. *)
Definition snapTick (cfg : GameConfig.t) (c : Car.t) : Prop :=
  Car.isMoving c = true /\
  (Car.currentPathIndex c < List.length (Car.path c))%nat /\
  PrimFloat.ltb
    (Car.distanceTo cfg (nth (Car.currentPathIndex c) (Car.path c) (0, 0)) c)
    3 = true.

(** The car's position changes during the tick. *)
Definition movesThisTick (cfg : GameConfig.t) (delta : float) (c : Car.t)
  : Prop :=
  Car.getPosition (snd (Car.update cfg delta c)) <> Car.getPosition c.

(** A car just spawned on the first cell of a two-cell route. *)
Definition freshCar : Car.t :=
  Car.setTarget (4, 1)
    (Car.setPath [(0, 0); (1, 0)]
       (Car.create GameConfig.original 12.5 12.5 0xff6b6b)).

(** A car that was never given a route. *)
Definition idleCar : Car.t :=
  Car.setTarget (4, 1)
    (Car.setPath [] (Car.create GameConfig.original 12.5 12.5 0xff6b6b)).

(** The state the defensive check of [Car.update] is written for: a
    moving car with a route whose index has run off its end. *)
Definition arrivedState (c : Car.t) : Prop :=
  Car.isMoving c = true /\ Car.path c <> [] /\
  (List.length (Car.path c) <= Car.currentPathIndex c)%nat.

(** Cars of a list that report arrival on this tick. *)
Definition arrivals (cfg : GameConfig.t) (delta : float) (cars : list Car.t)
  : nat :=
  List.length (filter (fun c => fst (Car.update cfg delta c)) cars).

(** Sum of the counters of a list of destinations. *)
Definition totalWaiting (destinations : list Destination.t) : Z :=
  fold_right (fun d acc => Destination.waitingCars d + acc) 0 destinations.

(** Every two cells of the list, taken at different places, are at least
    three steps apart. *)
Definition spaced (cells : list GridPos) : Prop :=
  forall i j a b,
    i <> j -> nth_error cells i = Some a -> nth_error cells j = Some b ->
    3 <= SpawnManager.manhattan a b.

(** The same, by recursion on the list: each cell is three steps or more
    from all later ones. *)
Fixpoint pairwiseApart (cells : list GridPos) : Prop :=
  match cells with
  | [] => True
  | a :: rest =>
      (forall b, In b rest -> 3 <= SpawnManager.manhattan a b) /\
      pairwiseApart rest
  end.

(** The cell sampled by the attempt that starts at draw number [i]. *)
Definition candidate (random : nat -> float) (cfg : GameConfig.t) (i : nat)
  : GridPos :=
  (SpawnManager.randomBelow random i (GameConfig.GAME_WIDTH cfg),
   SpawnManager.randomBelow random (S i) (GameConfig.GAME_HEIGHT cfg)).

(** The road a spawn call runs against. *)
Definition roadOf (c : SpawnCall) : Road.t :=
  match c with
  | CallSpawnHouse road | CallSpawnDestination road
  | CallSpawnBuilding road => road
  end.

(** Outcome of one spawn call from [st] to [st']: either nothing is
    placed, all of the [maxAttempts] sampled cells having been rejected,
    or one building is appended at the first sampled cell that passes
    [isValidSpawnPosition]. *)
Definition spawnOutcome (random : nat -> float) (cfg : GameConfig.t)
    (road : Road.t) (st st' : SpawnManager.t) : Prop :=
  (SpawnManager.houses st' = SpawnManager.houses st /\
   SpawnManager.destinations st' = SpawnManager.destinations st /\
   forall k, (k < SpawnManager.maxAttempts)%nat ->
     SpawnManager.isValidSpawnPosition road st
       (candidate random cfg (SpawnManager.draws st + 2 * k)) = false) \/
  (exists k p,
     (k < SpawnManager.maxAttempts)%nat /\
     p = candidate random cfg (SpawnManager.draws st + 2 * k) /\
     SpawnManager.isValidSpawnPosition road st p = true /\
     (forall j, (j < k)%nat ->
        SpawnManager.isValidSpawnPosition road st
          (candidate random cfg (SpawnManager.draws st + 2 * j)) = false) /\
     ((exists c, SpawnManager.houses st' =
                   SpawnManager.houses st ++ [House.create p c] /\
                 SpawnManager.destinations st' = SpawnManager.destinations st)
      \/
      (exists c, SpawnManager.destinations st' =
                   SpawnManager.destinations st ++ [Destination.create p c] /\
                 SpawnManager.houses st' = SpawnManager.houses st))).

(** The ring of [ringOps], drawn the other way round. *)
Definition counterRingOps : list RoadOp :=
  map AddSegment
      [(0, 0); (0, 1); (0, 2); (1, 2); (2, 2); (2, 1); (2, 0); (1, 0)].

(** A car on its way: moving, with a current waypoint. *)
Definition enRoute (c : Car.t) : Prop :=
  Car.isMoving c = true /\
  (Car.currentPathIndex c < List.length (Car.path c))%nat.

(** The car's target is the cell [q]. *)
Definition headsFor (q : GridPos) (c : Car.t) : bool :=
  match Car.targetDestination c with
  | Some target => (fst target =? fst q) && (snd target =? snd q)
  | None => false
  end.

(** Number of cars of the list whose target is [q]. *)
Definition carsFor (q : GridPos) (cars : list Car.t) : Z :=
  Z.of_nat (List.length (filter (headsFor q) cars)).

(** Counter of the destination that [findDestinationForCar] finds at [q]
    (zero when there is none). *)
Definition waitingAt (q : GridPos) (destinations : list Destination.t) : Z :=
  match find (TrafficManager.atTarget q) destinations with
  | Some d => Destination.waitingCars d
  | None => 0
  end.

(** Cars of the list that report arrival on this tick with target [q]. *)
Definition reportedFor (cfg : GameConfig.t) (delta : float) (q : GridPos)
    (cars : list Car.t) : Z :=
  Z.of_nat (List.length
    (filter (fun c => fst (Car.update cfg delta c) && headsFor q c) cars)).

(** A destination the spawner can serve from [nearestRoad]: of the house's
    colour, with a road cell within 3 and a non-empty route to it. *)
Definition routable (road : Road.t) (nearestRoad : GridPos) (color : Z)
    (d : Destination.t) : Prop :=
  ColorManager.colorsMatch (Destination.color d) color = true /\
  exists destNearestRoad path,
    Pathfinding.findNearestRoad road (Destination.getGridPosition d) 3
      = Some destNearestRoad /\
    Pathfinding.findPath road nearestRoad destNearestRoad = Some path /\
    path <> [].

(** The bookkeeping a scene keeps: destinations sit on distinct cells,
    every live car is en route to one of them, and each cell's counter is
    the number of live cars heading for it. *)
Definition sceneOk (s : GameScene.t) : Prop :=
  NoDup (map Destination.getGridPosition (GameScene.destinations s)) /\
  (forall c, In c (GameScene.cars s) ->
     enRoute c /\
     exists target,
       Car.targetDestination c = Some target /\
       In target (map Destination.getGridPosition
                      (GameScene.destinations s))) /\
  (forall q, waitingAt q (GameScene.destinations s)
             = carsFor q (GameScene.cars s)).

(** Every destination of the event list opens on a cell no earlier one
    uses ([seen] lists the cells in use). *)
Fixpoint freshOpenings (seen : list GridPos) (events : list SceneEvent)
  : Prop :=
  match events with
  | [] => True
  | DestinationOpens p _ :: rest =>
      ~ In p seen /\ freshOpenings (p :: seen) rest
  | _ :: rest => freshOpenings seen rest
  end.

(** The straight five-cell corridor of the design document's scenario. *)
Definition corridorOps : list RoadOp :=
  map AddSegment [(0, 0); (1, 0); (2, 0); (3, 0); (4, 0)].

(** The car [spawnCar] creates for [house]: at the centre of the house's
    road cell, with the given route and the destination's cell as its
    target. *)
Definition spawnedCar (cfg : GameConfig.t) (house : House.t)
    (nearestRoad : GridPos) (target : Destination.t) (path : list GridPos)
  : Car.t :=
  Car.setTarget (Destination.getGridPosition target)
    (Car.setPath path
       (Car.create cfg (fst (Grid.gridToWorld cfg nearestRoad))
                   (snd (Grid.gridToWorld cfg nearestRoad))
                   (House.color house))).

(** The invariant of a run of the scene: the bookkeeping of [sceneOk],
    with [seen] covering the destinations' cells, and the score equal to
    the points of every car spawned and no longer live. *)
Definition sceneInv (cfg : GameConfig.t) (seen : list GridPos)
    (s : GameScene.t) (spawned : nat) : Prop :=
  sceneOk s /\
  (forall p, In p (map Destination.getGridPosition (GameScene.destinations s))
             -> In p seen) /\
  (List.length (GameScene.cars s) <= spawned)%nat /\
  GameStateManager.score (GameScene.gameState s)
  = GameConfig.POINTS_PER_DELIVERY cfg
    * (Z.of_nat spawned - Z.of_nat (List.length (GameScene.cars s))).

(** The design document's first scenario: a destination opens beside the
    corridor, the house at its other end fires, two frames are drawn. *)
Definition corridorRun : list SceneEvent :=
  [DestinationOpens (4, 1) 0xff6b6b;
   HouseFires corridorOps (House.create (0, 1) 0xff6b6b);
   FrameTick 16; FrameTick 16].

(** Every two consecutive cells of the list are related by [R]. *)
Fixpoint stepwise (R : GridPos -> GridPos -> Prop) (path : list GridPos)
  : Prop :=
  match path with
  | a :: (b :: _) as rest => R a b /\ stepwise R rest
  | _ => True
  end.

(** [b] is one step from [a] towards [finish]: it differs from [a], and
    each coordinate either stays or moves one cell in the direction of
    [finish]. *)
Definition stepTowards (finish a b : GridPos) : Prop :=
  b <> a /\
  (fst b = fst a \/ fst b = fst a + Z.sgn (fst finish - fst a)) /\
  (snd b = snd a \/ snd b = snd a + Z.sgn (snd finish - snd a)).

(** The two cells lie in one row or one column. *)
Definition aligned (a b : GridPos) : Prop :=
  fst a = fst b \/ snd a = snd b.

(** The cell an upgrade was placed on, as [getGridPosition] reports it. *)
Definition upgradeCell (u : UpgradeManager.Upgrade) : GridPos :=
  (UpgradeManager.gridX u, UpgradeManager.gridY u).

Definition UpgradeType_eqb (a b : UpgradeManager.UpgradeType) : bool :=
  match a, b with
  | UpgradeManager.ROUNDABOUT, UpgradeManager.ROUNDABOUT
  | UpgradeManager.BRIDGE, UpgradeManager.BRIDGE => true
  | _, _ => false
  end.

(** Number of placed upgrades of a type. *)
Definition placedOfType (type : UpgradeManager.UpgradeType)
    (upgrades : list UpgradeManager.Upgrade) : Z :=
  Z.of_nat (List.length
    (filter (fun u => UpgradeType_eqb (UpgradeManager.type u) type) upgrades)).

(** The run state of a scene is consistent with its counters: the game is
    on, or it is over and some counter is at the limit. *)
Definition overInv (cfg : GameConfig.t) (s : GameScene.t) : Prop :=
  GameStateManager.getState (GameScene.gameState s) = GameStateManager.PLAYING
  \/ (GameStateManager.getState (GameScene.gameState s)
      = GameStateManager.GAME_OVER /\
      GameStateManager.checkGameOver cfg (GameScene.destinations s) = true).

(** One coordinate of the round trip through the centre of a cell, for a
    cell size of 25. *)
Definition centreRoundTrips (x : Z) : bool :=
  floorF ((Z2F x * Z2F 25 + Z2F 25 / 2) / Z2F 25) =? x.

(** The cell under a pointer. *)
Definition pointerCell (cfg : GameConfig.t) (pointer : RoadBuilder.Pointer)
  : GridPos :=
  Grid.worldToGrid cfg (RoadBuilder.x pointer) (RoadBuilder.y pointer).



(** The cell [c] is on the grid and was under the pointer at the press or
    at one of the moves made with the button held. *)
Definition erasedBy (cfg : GameConfig.t) (press : RoadBuilder.Pointer)
    (moves : list RoadBuilder.Pointer) (c : GridPos) : Prop :=
  Grid.isValidGridPosition cfg c = true /\
  (c = pointerCell cfg press \/
   exists p, In p moves /\ RoadBuilder.isDown p = true /\
             c = pointerCell cfg p).

(** A right-button press on the third cell of the corridor. *)
Definition erasePress : RoadBuilder.Pointer :=
  {| RoadBuilder.x := 62; RoadBuilder.y := 12;
     RoadBuilder.rightButtonDown := true;
     RoadBuilder.leftButtonDown := false;
     RoadBuilder.isDown := true |}.

(** The car's [update] called once per frame with the frames' deltas: the
    flags returned, in order, and the car at the end. *)
Fixpoint driveCar (cfg : GameConfig.t) (deltas : list float) (c : Car.t)
  : list bool * Car.t :=
  match deltas with
  | [] => ([], c)
  | delta :: rest =>
      let '(flag, c1) := Car.update cfg delta c in
      let '(flags, c2) := driveCar cfg rest c1 in
      (flag :: flags, c2)
  end.

(** Coordinates are JavaScript numbers.  For cells below this magnitude
    every step [x + dx], every Manhattan distance, every cost [g + h] of
    the router (a route has fewer edges than there are cells in the
    square) and every error term of the line algorithm is an integer
    below [2 ^ 53], where the code's binary64 arithmetic is exact and is
    the arithmetic on [Z] used here. *)
Definition coordLimit : Z := 2 ^ 25.

Definition inRange (p : GridPos) : bool :=
  (Z.abs (fst p) <? coordLimit) && (Z.abs (snd p) <? coordLimit).

Definition opInRange (op : RoadOp) : bool :=
  match op with
  | AddSegment p => inRange p
  | RemoveSegment p => inRange p
  | ClearRoad => true
  end.

(** Every cell named by the history is within [coordLimit]. *)
Definition opsInRange (ops : list RoadOp) : bool := forallb opInRange ops.

Definition destinationsInRange (destinations : list Destination.t) : bool :=
  forallb (fun d => inRange (Destination.getGridPosition d)) destinations.

(** The constants the grid reads are numbers the code can hold exactly,
    and the cells of the grid are within [coordLimit]. *)
Definition cfgInRange (cfg : GameConfig.t) : bool :=
  (Z.abs (GameConfig.GRID_SIZE cfg) <? 2 ^ 53)
  && (Z.abs (GameConfig.GAME_WIDTH cfg) <=? coordLimit)
  && (Z.abs (GameConfig.GAME_HEIGHT cfg) <=? coordLimit).

(** Both quotients that [worldToGrid] floors are finite numbers (the
    pointer's coordinates are finite and the cell size is not zero):
    [Math.floor] then returns an integer, the one [floorF] computes. *)
Definition finitePointer (cfg : GameConfig.t) (p : RoadBuilder.Pointer)
  : bool :=
  PrimFloat.is_finite
    (RoadBuilder.x p / Z2F (GameConfig.GRID_SIZE cfg))%float
  && PrimFloat.is_finite
       (RoadBuilder.y p / Z2F (GameConfig.GRID_SIZE cfg))%float.

(** The choice of one turn of the router under the rule "lowest [f], then
    first inserted": [best] is in the open set, nothing inserted before it
    has an [f] as low, nothing inserted after it a lower one. *)
Definition firstLowest (openSet : JsMap.t Pathfinding.PathNode)
    (best : Pathfinding.PathNode) : Prop :=
  exists pre post,
    JsMap.values openSet = pre ++ best :: post /\
    (forall n, In n pre -> Pathfinding.f best < Pathfinding.f n) /\
    (forall n, In n post -> Pathfinding.f best <= Pathfinding.f n).

(** The runs of the router's loop under that rule, as a relation: the
    loop ends with no route on an empty open set; otherwise a node chosen
    by the rule either sits on the goal, and its route is returned, or is
    closed and expanded and the run goes on. *)
Inductive tieBreakRun (road : Road.t) (goal : GridPos)
  : JsMap.t Pathfinding.PathNode -> JsSet.t -> list GridPos -> Prop :=
| run_exhausted closedSet :
    tieBreakRun road goal JsMap.empty closedSet []
| run_reached openSet closedSet current :
    firstLowest openSet current ->
    Pathfinding.key current = cellKey goal ->
    tieBreakRun road goal openSet closedSet
                (Pathfinding.reconstructPath current)
| run_expand openSet closedSet current p :
    firstLowest openSet current ->
    Pathfinding.key current <> cellKey goal ->
    tieBreakRun road goal
      (fold_left
         (Pathfinding.relax goal current
            (JsSet.add (Pathfinding.key current) closedSet))
         (Road.getNeighbors (Pathfinding.pos current) road)
         (JsMap.delete (Pathfinding.key current) openSet))
      (JsSet.add (Pathfinding.key current) closedSet) p ->
    tieBreakRun road goal openSet closedSet p.

(** A run of [findPath] under the rule: the two early returns, then the
    loop from the open set that holds the start node alone. *)
Definition findPathRun (road : Road.t) (start goal : GridPos)
    (p : list GridPos) : Prop :=
  if negb (Road.hasSegment start road) || negb (Road.hasSegment goal road)
  then p = []
  else if String.eqb (cellKey start) (cellKey goal) then p = [start]
  else
    let h0 := Pathfinding.heuristic start goal in
    tieBreakRun road goal
      (JsMap.set (cellKey start)
         (Pathfinding.mkPathNode (cellKey start) (fst start) (snd start)
                                 0 h0 (0 + h0) None)
         JsMap.empty)
      JsSet.empty p.

(** A house and a destination beside the two ends of the corridor. *)
Definition corridorHouse : House.t := House.create (0, 1) 0xff6b6b.

Definition corridorDestination : Destination.t :=
  Destination.create (4, 1) 0xff6b6b.

(** A right-button drag from the third to the fourth cell of the
    corridor. *)
Definition eraseDrag : list RoadBuilder.Pointer :=
  [{| RoadBuilder.x := 87; RoadBuilder.y := 12;
      RoadBuilder.rightButtonDown := true;
      RoadBuilder.leftButtonDown := false;
      RoadBuilder.isDown := true |}].

Arguments inv_open_keys {r start goal openSet closedSet}.
Arguments inv_open_nodes {r start goal openSet closedSet}.
Arguments inv_closed_nodup {r start goal openSet closedSet}.
Arguments inv_closed_occupied {r start goal openSet closedSet}.
Arguments inv_goal_open {r start goal openSet closedSet}.
Arguments inv_start {r start goal openSet closedSet}.
Arguments inv_expanded {r start goal openSet closedSet}.

(* ================================================================== *)
(** * Properties *)

(* ------------------------------------------------------------------ *)
(** ** Facts about the containers *)

Lemma jsset_has_In (k : string) (s : JsSet.t) :
  JsSet.has k s = true <-> In k s.
Proof.
  unfold JsSet.has. rewrite existsb_exists. split.
  - intros (k' & Hin & He). apply String.eqb_eq in He. now subst.
  - intros Hin. exists k. split; [assumption | apply String.eqb_refl].
Qed.

Lemma jsset_has_false (k : string) (s : JsSet.t) :
  JsSet.has k s = false <-> ~ In k s.
Proof.
  rewrite <- jsset_has_In. destruct (JsSet.has k s); split; congruence.
Qed.

Lemma jsset_add_In (k k' : string) (s : JsSet.t) :
  In k' (JsSet.add k s) <-> In k' s \/ k' = k.
Proof.
  unfold JsSet.add. destruct (JsSet.has k s) eqn:Hh.
  - apply jsset_has_In in Hh. split; [tauto | intros [H | ->]; assumption].
  - rewrite in_app_iff. simpl. intuition.
Qed.

Lemma jsset_add_NoDup (k : string) (s : JsSet.t) :
  NoDup s -> NoDup (JsSet.add k s).
Proof.
  intros Hnd. unfold JsSet.add. destruct (JsSet.has k s) eqn:Hh; [assumption|].
  apply jsset_has_false in Hh.
  apply NoDup_app; [assumption | repeat constructor; simpl; tauto |].
  intros a Ha [<- | []]. contradiction.
Qed.

Lemma jsset_delete_In (k k' : string) (s : JsSet.t) :
  In k' (JsSet.delete k s) <-> In k' s /\ k' <> k.
Proof.
  unfold JsSet.delete. rewrite filter_In, negb_true_iff, String.eqb_neq.
  intuition congruence.
Qed.

Lemma jsset_delete_NoDup (k : string) (s : JsSet.t) :
  NoDup s -> NoDup (JsSet.delete k s).
Proof. apply NoDup_filter. Qed.

Lemma jsset_delete_absent (k : string) (s : JsSet.t) :
  ~ In k s -> JsSet.delete k s = s.
Proof.
  unfold JsSet.delete. induction s as [|a s IH]; simpl; intros Hn; [reflexivity|].
  destruct (String.eqb_spec k a) as [->|Hne]; simpl.
  - exfalso. apply Hn. now left.
  - f_equal. apply IH. tauto.
Qed.

Lemma jsset_delete_add (k : string) (s : JsSet.t) :
  ~ In k s -> JsSet.delete k (JsSet.add k s) = s.
Proof.
  intros Hn. unfold JsSet.add.
  destruct (JsSet.has k s) eqn:Hh.
  - apply jsset_has_In in Hh. contradiction.
  - unfold JsSet.delete. rewrite filter_app. simpl.
    rewrite String.eqb_refl. simpl. rewrite app_nil_r.
    now apply jsset_delete_absent.
Qed.

Section JsMapFacts.
Context {V : Type}.
Implicit Types (m : JsMap.t V) (k : string) (v : V).

Lemma jsmap_get_cons k k0 v0 m :
  JsMap.get k ((k0, v0) :: m) =
  if String.eqb k k0 then Some v0 else JsMap.get k m.
Proof.
  unfold JsMap.get. simpl. now destruct (String.eqb k k0).
Qed.

Lemma jsmap_get_In k v m : JsMap.get k m = Some v -> In (k, v) m.
Proof.
  induction m as [|[k0 v0] m IH]; [discriminate|].
  rewrite jsmap_get_cons. destruct (String.eqb_spec k k0) as [->|Hne].
  - intros [= ->]. now left.
  - intros H. right. auto.
Qed.

Lemma jsmap_get_None k m : JsMap.get k m = None <-> ~ In k (JsMap.keys m).
Proof.
  induction m as [|[k0 v0] m IH]; [simpl; tauto|].
  rewrite jsmap_get_cons. simpl.
  destruct (String.eqb_spec k k0) as [->|Hne].
  - split; [discriminate | tauto].
  - rewrite IH. intuition congruence.
Qed.

Lemma jsmap_has_keys k m : JsMap.has k m = true <-> In k (JsMap.keys m).
Proof.
  unfold JsMap.has. destruct (JsMap.get k m) eqn:Hg.
  - split; [intros _ | reflexivity].
    apply jsmap_get_In in Hg. apply (in_map fst) in Hg. assumption.
  - apply jsmap_get_None in Hg. split; [discriminate | contradiction].
Qed.

Lemma jsmap_has_get k m :
  JsMap.has k m = true <-> exists v, JsMap.get k m = Some v.
Proof.
  unfold JsMap.has. destruct (JsMap.get k m).
  - split; eauto.
  - split; [discriminate | intros [? [=]]].
Qed.

Lemma jsmap_In_get k v m :
  NoDup (JsMap.keys m) -> In (k, v) m -> JsMap.get k m = Some v.
Proof.
  induction m as [|[k0 v0] m IH]; simpl; [tauto|].
  intros Hnd [[= -> ->] | Hin]; rewrite jsmap_get_cons.
  - now rewrite String.eqb_refl.
  - inversion Hnd as [|? ? Hnot Hnd']; subst.
    destruct (String.eqb_spec k k0) as [->|Hne].
    + exfalso. apply Hnot. apply (in_map fst) in Hin. assumption.
    + auto.
Qed.

Lemma jsmap_keys_mutate k (upd : V -> V) m :
  JsMap.keys (JsMap.mutate k upd m) = JsMap.keys m.
Proof.
  unfold JsMap.keys, JsMap.mutate. rewrite map_map. apply map_ext.
  intros [k0 v0]. simpl. now destruct (String.eqb k k0).
Qed.

Lemma jsmap_get_mutate k k' (upd : V -> V) m :
  JsMap.get k' (JsMap.mutate k upd m) =
  if String.eqb k k' then option_map upd (JsMap.get k' m) else JsMap.get k' m.
Proof.
  unfold JsMap.mutate.
  induction m as [|[k0 v0] m IH]; simpl.
  - now destruct (String.eqb k k').
  - destruct (String.eqb k k0) eqn:E0; simpl; rewrite !jsmap_get_cons, IH;
      destruct (String.eqb k' k0) eqn:E1; try reflexivity.
    + apply String.eqb_eq in E0, E1. subst. now rewrite String.eqb_refl.
    + apply String.eqb_eq in E1. subst. now rewrite E0.
Qed.

Lemma jsmap_has_mutate k k' (upd : V -> V) m :
  JsMap.has k' (JsMap.mutate k upd m) = JsMap.has k' m.
Proof.
  unfold JsMap.has. rewrite jsmap_get_mutate.
  destruct (String.eqb k k'), (JsMap.get k' m); reflexivity.
Qed.

Lemma jsmap_get_app k m1 m2 :
  JsMap.get k (m1 ++ m2) =
  match JsMap.get k m1 with Some v => Some v | None => JsMap.get k m2 end.
Proof.
  induction m1 as [|[k0 v0] m1 IH]; [reflexivity|].
  simpl. rewrite !jsmap_get_cons. now destruct (String.eqb k k0).
Qed.

Lemma jsmap_get_set k k' v m :
  JsMap.get k' (JsMap.set k v m) =
  if String.eqb k k' then Some v else JsMap.get k' m.
Proof.
  unfold JsMap.set. destruct (JsMap.has k m) eqn:Hh.
  - change (map _ m) with (JsMap.mutate k (fun _ => v) m).
    rewrite jsmap_get_mutate.
    destruct (String.eqb_spec k k') as [<-|Hne]; [|reflexivity].
    apply jsmap_has_get in Hh. destruct Hh as [v0 ->]. reflexivity.
  - rewrite jsmap_get_app. rewrite jsmap_get_cons.
    destruct (String.eqb_spec k k') as [<-|Hne].
    + unfold JsMap.has in Hh. destruct (JsMap.get k m); [discriminate|].
      now rewrite String.eqb_refl.
    + destruct (String.eqb_spec k' k) as [->|_]; [congruence|].
      now destruct (JsMap.get k' m).
Qed.

Lemma jsmap_set_new k v m :
  JsMap.has k m = false -> JsMap.set k v m = m ++ [(k, v)].
Proof. unfold JsMap.set. now intros ->. Qed.

Lemma jsmap_keys_set_new k v m :
  JsMap.has k m = false -> JsMap.keys (JsMap.set k v m) = JsMap.keys m ++ [k].
Proof.
  intros H. rewrite jsmap_set_new by assumption.
  unfold JsMap.keys. now rewrite map_app.
Qed.

Lemma jsmap_keys_delete k m :
  JsMap.keys (JsMap.delete k m) =
  filter (fun k' => negb (String.eqb k k')) (JsMap.keys m).
Proof.
  induction m as [|[k0 v0] m IH]; [reflexivity|].
  simpl. destruct (String.eqb k k0); simpl; now rewrite <- IH.
Qed.

Lemma jsmap_get_delete k k' m :
  JsMap.get k' (JsMap.delete k m) =
  if String.eqb k k' then None else JsMap.get k' m.
Proof.
  unfold JsMap.delete.
  induction m as [|[k0 v0] m IH]; simpl.
  - now destruct (String.eqb k k').
  - destruct (String.eqb k k0) eqn:E0; simpl; rewrite !jsmap_get_cons, ?IH;
      destruct (String.eqb k' k0) eqn:E1; try reflexivity.
    + apply String.eqb_eq in E0, E1. subst. now rewrite String.eqb_refl.
    + apply String.eqb_eq in E1. subst. now rewrite E0.
Qed.

(** Two maps with the same key order and the same bindings are equal. *)
Lemma jsmap_ext m1 m2 :
  NoDup (JsMap.keys m1) ->
  JsMap.keys m1 = JsMap.keys m2 ->
  (forall k, JsMap.get k m1 = JsMap.get k m2) ->
  m1 = m2.
Proof.
  revert m2. induction m1 as [|[k1 v1] m1 IH]; intros [|[k2 v2] m2]; simpl;
    try discriminate; [reflexivity|].
  intros Hnd [= <- Hk] Hget. inversion Hnd as [|? ? Hnot Hnd']; subst.
  assert (v1 = v2) as <-.
  { specialize (Hget k1). rewrite !jsmap_get_cons, String.eqb_refl in Hget.
    congruence. }
  f_equal. apply IH; [assumption .. |].
  intros k. specialize (Hget k). rewrite !jsmap_get_cons in Hget.
  destruct (String.eqb_spec k k1) as [E|Hne]; [subst k|assumption].
  assert (JsMap.get k1 m1 = None) as -> by now apply jsmap_get_None.
  symmetry. apply jsmap_get_None. now rewrite <- Hk.
Qed.

End JsMapFacts.

(* ------------------------------------------------------------------ *)
(** ** Cell keys identify cells *)

Lemma noComma_string_of_uint (d : Decimal.uint) :
  noComma (NilEmpty.string_of_uint d) = true.
Proof. induction d; simpl; auto. Qed.

Lemma noComma_showZ (z : Z) : noComma (showZ z) = true.
Proof.
  unfold showZ, NilZero.string_of_int, NilZero.string_of_uint.
  destruct (Z.to_int z) as [d|d]; destruct d; simpl;
    auto using noComma_string_of_uint.
Qed.

Lemma splitComma_noComma (s : string) :
  noComma s = true -> splitComma s = [s].
Proof.
  induction s as [|c s IH]; simpl; [reflexivity|].
  intros H. apply andb_true_iff in H. destruct H as [Hc Hs].
  apply negb_true_iff in Hc. rewrite Hc, IH by assumption. reflexivity.
Qed.

Lemma splitComma_app (a b : string) :
  noComma a = true ->
  splitComma (a ++ String ","%char b) = a :: splitComma b.
Proof.
  induction a as [|c a IH]; simpl; [reflexivity|].
  intros H. apply andb_true_iff in H. destruct H as [Hc Ha].
  apply negb_true_iff in Hc. rewrite Hc, IH by assumption. reflexivity.
Qed.

Lemma Number_showZ (z : Z) : Number (showZ z) = z.
Proof.
  unfold Number, showZ. rewrite NilZero.isi.
  - apply DecimalZ.of_to.
  - destruct z; simpl; try discriminate.
    intros [= H]. now apply Unsigned.to_uint_nonnil in H.
  - destruct z; simpl; try discriminate.
    intros [= H]. now apply Unsigned.to_uint_nonnil in H.
Qed.

Lemma parseKey_cellKey (p : GridPos) : parseKey (cellKey p) = p.
Proof.
  destruct p as [x y]. unfold parseKey, cellKey. simpl fst. simpl snd.
  change (showZ x ++ "," ++ showZ y)%string
    with (showZ x ++ String ","%char (showZ y))%string.
  rewrite splitComma_app by apply noComma_showZ.
  rewrite splitComma_noComma by apply noComma_showZ.
  simpl. now rewrite !Number_showZ.
Qed.

Lemma cellKey_inj (p q : GridPos) : cellKey p = cellKey q -> p = q.
Proof.
  intros H. rewrite <- (parseKey_cellKey p), <- (parseKey_cellKey q).
  now rewrite H.
Qed.

(* ------------------------------------------------------------------ *)
(** ** The road graph *)

Lemma adjacent4_iff (a b : GridPos) :
  adjacent4 a b <->
  Z.abs (fst a - fst b) + Z.abs (snd a - snd b) = 1.
Proof.
  destruct a as [ax ay], b as [bx b_y]. unfold adjacent4, shift, directions.
  simpl. split.
  - intros (d & Hd & [= -> ->]).
    destruct Hd as [<-|[<-|[<-|[<-|[]]]]]; simpl; lia.
  - intros H.
    assert (Hcases : (bx = ax /\ b_y = ay - 1) \/ (bx = ax + 1 /\ b_y = ay) \/
                     (bx = ax /\ b_y = ay + 1) \/ (bx = ax - 1 /\ b_y = ay))
      by lia.
    destruct Hcases as [[-> ->]|[[-> ->]|[[-> ->]|[-> ->]]]].
    + exists (0, -1). split; [tauto|]. simpl. f_equal; lia.
    + exists (1, 0). split; [tauto|]. simpl. f_equal; lia.
    + exists (0, 1). split; [tauto|]. simpl. f_equal; lia.
    + exists (-1, 0). split; [tauto|]. simpl. f_equal; lia.
Qed.

Lemma adjacent4_sym (a b : GridPos) : adjacent4 a b -> adjacent4 b a.
Proof. rewrite !adjacent4_iff. lia. Qed.

Lemma adjacent4_irrefl (a : GridPos) : ~ adjacent4 a a.
Proof. rewrite adjacent4_iff. lia. Qed.

Lemma withNeighbor_idem (k : string) (s : Road.RoadSegment) :
  Road.withNeighbor k (Road.withNeighbor k s) = Road.withNeighbor k s.
Proof.
  unfold Road.withNeighbor. simpl. f_equal.
  unfold JsSet.add at 1.
  assert (JsSet.has k (JsSet.add k (Road.neighbors s)) = true) as ->; [|reflexivity].
  apply jsset_has_In, jsset_add_In. now right.
Qed.

(** Effect of the linking loop of [addSegment] over any list of
    directions. *)
Lemma connect_fold (p : GridPos) (dirs : list (Z * Z)) :
  forall seg m seg' m',
    fold_left (Road.connect p) dirs (seg, m) = (seg', m') ->
    JsMap.keys m' = JsMap.keys m /\
    (forall k, JsMap.get k m' =
       option_map (fun s =>
           if existsb (fun d => String.eqb (cellKey (shift p d)) k) dirs
           then Road.withNeighbor (cellKey p) s else s)
         (JsMap.get k m)) /\
    Road.pos seg' = Road.pos seg /\
    (NoDup (Road.neighbors seg) -> NoDup (Road.neighbors seg')) /\
    (forall k', In k' (Road.neighbors seg') <->
        In k' (Road.neighbors seg) \/
        exists d, In d dirs /\ k' = cellKey (shift p d) /\
                  JsMap.has k' m = true).
Proof.
  induction dirs as [|d dirs IH]; intros seg m seg' m'; simpl.
  - intros [= <- <-]. repeat split; try tauto.
    + intros k. now destruct (JsMap.get k m).
    + intros [H | (d & [] & _)]. assumption.
  - destruct (JsMap.has (cellKey (shift p d)) m) eqn:Hh; intros Hf;
      apply IH in Hf; destruct Hf as (Hk & Hg & Hp & Hnd & Hin).
    + repeat split.
      * now rewrite Hk, jsmap_keys_mutate.
      * intros k. rewrite Hg, jsmap_get_mutate.
        destruct (String.eqb (cellKey (shift p d)) k) eqn:E; simpl;
          [|reflexivity].
        destruct (JsMap.get k m); simpl; [|reflexivity].
        destruct (existsb _ dirs); [now rewrite withNeighbor_idem | reflexivity].
      * assumption.
      * intros H. apply Hnd. simpl. now apply jsset_add_NoDup.
      * rewrite Hin. simpl. rewrite jsset_add_In.
        intros [[H | ->] | (d' & Hd' & -> & Hh')]; [tauto | | ].
        -- right. exists d. tauto.
        -- right. exists d'. rewrite jsmap_has_mutate in Hh'. tauto.
      * rewrite Hin. simpl. rewrite jsset_add_In.
        intros [H | (d' & [<- | Hd'] & -> & Hh')]; [tauto | tauto |].
        right. exists d'. rewrite jsmap_has_mutate. tauto.
    + repeat split; try assumption.
      * intros k. rewrite Hg.
        destruct (String.eqb_spec (cellKey (shift p d)) k) as [<-|Hne].
        -- unfold JsMap.has in Hh.
           destruct (JsMap.get (cellKey (shift p d)) m); [discriminate|].
           reflexivity.
        -- reflexivity.
      * rewrite Hin. intros [H | (d' & Hd' & -> & Hh')]; [tauto|].
        right. exists d'. tauto.
      * rewrite Hin. intros [H | (d' & [<- | Hd'] & -> & Hh')];
          [tauto | congruence |].
        right. exists d'. tauto.
Qed.

Lemma jsmap_has_set {V : Type} (k k' : string) (v : V) (m : JsMap.t V) :
  JsMap.has k' (JsMap.set k v m) = String.eqb k k' || JsMap.has k' m.
Proof.
  unfold JsMap.has at 1. rewrite jsmap_get_set.
  destruct (String.eqb k k'); reflexivity.
Qed.

Lemma jsmap_has_delete {V : Type} (k k' : string) (m : JsMap.t V) :
  JsMap.has k' (JsMap.delete k m) = negb (String.eqb k k') && JsMap.has k' m.
Proof.
  unfold JsMap.has at 1. rewrite jsmap_get_delete.
  destruct (String.eqb k k'); reflexivity.
Qed.

Lemma jsmap_has_same_keys {V : Type} (k : string) (m1 m2 : JsMap.t V) :
  JsMap.keys m1 = JsMap.keys m2 -> JsMap.has k m1 = JsMap.has k m2.
Proof.
  intros Hk. apply eq_true_iff_eq. rewrite !jsmap_has_keys. now rewrite Hk.
Qed.

Lemma direction_key (p : GridPos) (k : string) (dirs : list (Z * Z)) :
  existsb (fun d => String.eqb (cellKey (shift p d)) k) dirs = true <->
  exists d, In d dirs /\ k = cellKey (shift p d).
Proof.
  rewrite existsb_exists. split; intros (d & Hd & He); exists d; split;
    try assumption.
  - apply String.eqb_eq in He. now symmetry.
  - subst k. apply String.eqb_refl.
Qed.

(** What [addSegment] builds on a free cell. *)
Lemma addSegment_free (p : GridPos) (r : Road.t) :
  Road.hasSegment p r = false ->
  exists seg m,
    Road.addSegment p r = (true, m ++ [(cellKey p, seg)]) /\
    JsMap.keys m = JsMap.keys r /\
    (forall k, JsMap.get k m =
       option_map (fun s =>
           if existsb (fun d => String.eqb (cellKey (shift p d)) k) directions
           then Road.withNeighbor (cellKey p) s else s)
         (JsMap.get k r)) /\
    Road.pos seg = p /\
    NoDup (Road.neighbors seg) /\
    (forall k', In k' (Road.neighbors seg) <->
        (exists q, k' = cellKey q /\ adjacent4 p q) /\ JsMap.has k' r = true).
Proof.
  intros Hfree. unfold Road.addSegment. unfold Road.hasSegment in Hfree.
  rewrite Hfree.
  destruct (fold_left _ _ _) as [seg m] eqn:Hf.
  apply connect_fold in Hf. destruct Hf as (Hk & Hg & Hp & Hnd & Hin).
  exists seg, m. repeat split.
  - rewrite jsmap_set_new; [reflexivity|].
    now rewrite (jsmap_has_same_keys _ m r).
  - assumption.
  - assumption.
  - rewrite Hp. now destruct p.
  - apply Hnd. constructor.
  - apply Hin in H. destruct H as [[] | (d & Hd & -> & Hh)].
    exists (shift p d). split; [reflexivity|]. now exists d.
  - apply Hin in H. destruct H as [[] | (d & Hd & -> & Hh)]. assumption.
  - intros [(q & -> & d & Hd & ->) Hh]. apply Hin. right. now exists d.
Qed.

Lemma addSegment_occupied (p : GridPos) (r : Road.t) :
  Road.hasSegment p r = true -> Road.addSegment p r = (false, r).
Proof.
  unfold Road.addSegment, Road.hasSegment. now intros ->.
Qed.

Lemma addSegment_invariant (p : GridPos) (r : Road.t) :
  roadInvariant r -> roadInvariant (snd (Road.addSegment p r)).
Proof.
  intros [Hnd Hok].
  destruct (Road.hasSegment p r) eqn:Hfree.
  { rewrite addSegment_occupied by assumption. now split. }
  destruct (addSegment_free p r Hfree)
    as (seg & m & -> & Hk & Hg & Hp & Hsnd & Hsin).
  simpl snd.
  assert (Hhm : JsMap.has (cellKey p) m = false)
    by now rewrite (jsmap_has_same_keys _ m r).
  rewrite <- (jsmap_set_new _ _ _ Hhm).
  assert (Hhas : forall k', JsMap.has k' (JsMap.set (cellKey p) seg m) = true <->
                            k' = cellKey p \/ JsMap.has k' r = true).
  { intros k'. rewrite jsmap_has_set, orb_true_iff, String.eqb_eq.
    rewrite (jsmap_has_same_keys _ m r) by assumption.
    intuition congruence. }
  split.
  - rewrite jsmap_keys_set_new, Hk by assumption.
    apply NoDup_app; [assumption | repeat constructor; simpl; tauto |].
    intros a Ha [<- | []]. apply jsmap_has_keys in Ha.
    unfold Road.hasSegment in Hfree. congruence.
  - intros k s. rewrite jsmap_get_set.
    destruct (String.eqb_spec (cellKey p) k) as [<-|Hne].
    + intros [= <-]. split; [now rewrite Hp|]. split; [assumption|].
      intros k'. rewrite Hsin, Hp, Hhas. split; [tauto|].
      intros [(q & -> & Hadj) [He | Hh]]; split; eauto.
      apply cellKey_inj in He. subst q. now apply adjacent4_irrefl in Hadj.
    + rewrite Hg. destruct (JsMap.get k r) as [s0|] eqn:Hs0; [|discriminate].
      cbn [option_map]. specialize (Hok k s0 Hs0). destruct Hok as (Hkey & Hnd0 & Hin0).
      destruct (existsb _ directions) eqn:Hflag; intros [= <-].
      * apply direction_key in Hflag. destruct Hflag as (d & Hd & Hkd).
        assert (Hadj : adjacent4 (Road.pos s0) p).
        { apply adjacent4_sym. exists d. split; [assumption|].
          apply cellKey_inj. congruence. }
        split; [assumption|]. split; [now apply jsset_add_NoDup|].
        intros k'. simpl. rewrite jsset_add_In, Hin0, Hhas.
        split.
        -- intros [[Hq Hh] | ->]; [tauto|]. split; [|tauto].
           now exists p.
        -- intros [Hq [-> | Hh]]; tauto.
      * split; [assumption|]. split; [assumption|].
        intros k'. rewrite Hin0, Hhas. split; [tauto|].
        intros [Hq [-> | Hh]]; [|tauto]. exfalso.
        destruct Hq as (q & Hq & Hadj). apply cellKey_inj in Hq. subst q.
        apply adjacent4_sym in Hadj. destruct Hadj as (d & Hd & Hs).
        assert (existsb (fun d => String.eqb (cellKey (shift p d)) k)
                        directions = true); [|congruence].
        apply direction_key. exists d. split; [assumption|]. congruence.
Qed.

Lemma withoutNeighbor_idem (k : string) (s : Road.RoadSegment) :
  Road.withoutNeighbor k (Road.withoutNeighbor k s) = Road.withoutNeighbor k s.
Proof.
  unfold Road.withoutNeighbor. simpl. f_equal.
  apply jsset_delete_absent. rewrite jsset_delete_In. tauto.
Qed.

(** Effect of the unlinking loop of [removeSegment] over any list of
    neighbour keys. *)
Lemma disconnect_fold (key : string) (nbrs : list string) :
  forall m,
    JsMap.keys (fold_left (Road.disconnect key) nbrs m) = JsMap.keys m /\
    (forall k, JsMap.get k (fold_left (Road.disconnect key) nbrs m) =
       option_map (fun s =>
           if existsb (fun n => String.eqb n k) nbrs
           then Road.withoutNeighbor key s else s)
         (JsMap.get k m)).
Proof.
  induction nbrs as [|n nbrs IH]; intros m; simpl.
  - split; [reflexivity|]. intros k. now destruct (JsMap.get k m).
  - destruct (IH (Road.disconnect key m n)) as [Hk Hg]. split.
    + rewrite Hk. apply jsmap_keys_mutate.
    + intros k. rewrite Hg. unfold Road.disconnect.
      rewrite jsmap_get_mutate.
      destruct (String.eqb n k); simpl; [|reflexivity].
      destruct (JsMap.get k m); simpl; [|reflexivity].
      destruct (existsb _ nbrs); [now rewrite withoutNeighbor_idem | reflexivity].
Qed.

Lemma existsb_eqb_In (k : string) (l : list string) :
  existsb (fun n => String.eqb n k) l = true <-> In k l.
Proof.
  rewrite existsb_exists. split.
  - intros (n & Hn & He). apply String.eqb_eq in He. now subst.
  - intros H. exists k. split; [assumption | apply String.eqb_refl].
Qed.

Lemma removeSegment_invariant (p : GridPos) (r : Road.t) :
  roadInvariant r -> roadInvariant (snd (Road.removeSegment p r)).
Proof.
  intros [Hnd Hok]. unfold Road.removeSegment.
  destruct (JsMap.get (cellKey p) r) as [seg|] eqn:Hseg; [|now split].
  simpl snd.
  destruct (disconnect_fold (cellKey p) (Road.neighbors seg) r) as [Hk Hg].
  set (m := fold_left _ _ r) in *.
  assert (Hhas : forall k', JsMap.has k' (JsMap.delete (cellKey p) m) = true <->
                            k' <> cellKey p /\ JsMap.has k' r = true).
  { intros k'. rewrite jsmap_has_delete, andb_true_iff, negb_true_iff.
    rewrite String.eqb_neq, (jsmap_has_same_keys _ m r) by assumption.
    intuition congruence. }
  split.
  - rewrite jsmap_keys_delete, Hk. now apply NoDup_filter.
  - intros k s. rewrite jsmap_get_delete.
    destruct (String.eqb_spec (cellKey p) k) as [<-|Hne]; [discriminate|].
    rewrite Hg. destruct (JsMap.get k r) as [s0|] eqn:Hs0; [|discriminate].
    cbn [option_map].
    destruct (Hok k s0 Hs0) as (Hkey & Hnd0 & Hin0).
    destruct (Hok _ seg Hseg) as (Hpkey & _ & Hpin).
    apply cellKey_inj in Hpkey.
    destruct (existsb _ (Road.neighbors seg)) eqn:Hflag; intros [= <-].
    + split; [assumption|]. split; [now apply jsset_delete_NoDup|].
      intros k'. simpl. rewrite jsset_delete_In, Hin0, Hhas. tauto.
    + split; [assumption|]. split; [assumption|].
      intros k'. rewrite Hin0, Hhas. split; [|tauto].
      intros [Hq Hh]. split; [assumption|]. split; [|assumption].
      intros ->. destruct Hq as (q & Hq & Hadj).
      apply cellKey_inj in Hq. subst q.
      assert (In k (Road.neighbors seg)) as Hin.
      { apply Hpin. split.
        - exists (Road.pos s0). split; [assumption|].
          rewrite <- Hpkey. now apply adjacent4_sym.
        - apply jsmap_has_get. eauto. }
      apply existsb_eqb_In in Hin. congruence.
Qed.

Lemma create_invariant : roadInvariant Road.create.
Proof. split; [constructor | discriminate]. Qed.

Lemma applyOp_invariant (r : Road.t) (op : RoadOp) :
  roadInvariant r -> roadInvariant (applyOp r op).
Proof.
  destruct op; simpl.
  - apply addSegment_invariant.
  - apply removeSegment_invariant.
  - intros _. apply create_invariant.
Qed.

Lemma buildRoad_invariant (ops : list RoadOp) : roadInvariant (buildRoad ops).
Proof.
  unfold buildRoad. generalize create_invariant. generalize Road.create.
  induction ops as [|op ops IH]; intros r Hr; simpl; [assumption|].
  apply IH. now apply applyOp_invariant.
Qed.

Lemma invariant_pos (r : Road.t) (a : GridPos) (s : Road.RoadSegment) :
  roadInvariant r -> JsMap.get (cellKey a) r = Some s -> Road.pos s = a.
Proof.
  intros [_ Hok] Hs. destruct (Hok _ _ Hs) as (Hk & _).
  now apply cellKey_inj in Hk.
Qed.

Lemma neighborKeys_spec (r : Road.t) (a : GridPos) (k : string) :
  roadInvariant r ->
  In k (neighborKeys r a) <->
  exists b, k = cellKey b /\ adjacent4 a b /\
            Road.hasSegment a r = true /\ Road.hasSegment b r = true.
Proof.
  intros Hinv. unfold neighborKeys, Road.hasSegment.
  destruct (JsMap.get (cellKey a) r) as [s|] eqn:Hs.
  - pose proof (invariant_pos _ _ _ Hinv Hs) as Hp.
    destruct Hinv as [_ Hok]. destruct (Hok _ _ Hs) as (_ & _ & Hin).
    rewrite Hin, Hp. split.
    + intros [(b & -> & Hadj) Hh]. exists b. repeat split; try assumption.
      apply jsmap_has_get. eauto.
    + intros (b & -> & Hadj & _ & Hb). split; eauto.
  - split; [intros []|]. intros (b & _ & _ & Ha & _).
    apply jsmap_has_get in Ha. destruct Ha as [v Ha]. congruence.
Qed.

Lemma getNeighbors_spec (r : Road.t) (a b : GridPos) :
  roadInvariant r ->
  In b (Road.getNeighbors a r) <->
  adjacent4 a b /\ Road.hasSegment a r = true /\ Road.hasSegment b r = true.
Proof.
  intros Hinv.
  assert (Heq : Road.getNeighbors a r = map parseKey (neighborKeys r a)).
  { unfold Road.getNeighbors, neighborKeys.
    now destruct (JsMap.get (cellKey a) r). }
  rewrite Heq, in_map_iff. split.
  - intros (k & <- & Hk). apply neighborKeys_spec in Hk; [|assumption].
    destruct Hk as (q & -> & H). now rewrite parseKey_cellKey.
  - intros H. exists (cellKey b). split; [apply parseKey_cellKey|].
    apply neighborKeys_spec; [assumption|]. exists b. tauto.
Qed.

(** C2. After every sequence of [addSegment]/[removeSegment] (and
    [clear]) calls on a fresh road, on cells within [coordLimit], a cell's
    neighbour set holds exactly the keys of the occupied cells one step
    away from it when the cell is occupied; hence for occupied 4-adjacent
    cells A and B, A lists B iff B lists A, and no neighbour set holds a
    non-adjacent or free cell. *)
Theorem road_neighbors_symmetric_adjacency (ops : list RoadOp) :
  let r := buildRoad ops in
  opsInRange ops = true ->
  (forall a k, In k (neighborKeys r a) <->
     exists b, k = cellKey b /\ adjacent4 a b /\
               Road.hasSegment a r = true /\ Road.hasSegment b r = true) /\
  (forall a b, Road.hasSegment a r = true -> Road.hasSegment b r = true ->
     adjacent4 a b ->
     In (cellKey b) (neighborKeys r a) /\ In (cellKey a) (neighborKeys r b)) /\
  (forall a b, In (cellKey b) (neighborKeys r a) <->
               In (cellKey a) (neighborKeys r b)) /\
  (forall a b, In b (Road.getNeighbors a r) <-> In a (Road.getNeighbors b r)) /\
  (forall a k, In k (neighborKeys r a) ->
     exists b, k = cellKey b /\ adjacent4 a b /\ Road.hasSegment b r = true).
Proof.
  intros r _. pose proof (buildRoad_invariant ops) as Hinv. fold r in Hinv.
  assert (Hkeys : forall a b, In (cellKey b) (neighborKeys r a) <->
            adjacent4 a b /\ Road.hasSegment a r = true /\
            Road.hasSegment b r = true).
  { intros a b. rewrite neighborKeys_spec by assumption. split.
    - intros (q & Hq & H). apply cellKey_inj in Hq. now subst q.
    - intros H. exists b. tauto. }
  split; [|split; [|split; [|split]]].
  - intros a k. now apply neighborKeys_spec.
  - intros a b Ha Hb Hadj. rewrite !Hkeys. pose proof (adjacent4_sym _ _ Hadj).
    tauto.
  - intros a b. rewrite !Hkeys.
    split; intros (Hadj & ? & ?); apply adjacent4_sym in Hadj; tauto.
  - intros a b. rewrite !getNeighbors_spec by assumption.
    split; intros (Hadj & ? & ?); apply adjacent4_sym in Hadj; tauto.
  - intros a k Hk. apply neighborKeys_spec in Hk; [|assumption].
    destruct Hk as (b & ? & ? & ? & ?). eauto.
Qed.

Lemma road_neighbors_symmetric_adjacency_witness :
  opsInRange brokenRingOps = true /\
  (forall a b, In (cellKey b) (neighborKeys (buildRoad brokenRingOps) a) <->
               In (cellKey a) (neighborKeys (buildRoad brokenRingOps) b)) /\
  In (cellKey (0, 1)) (neighborKeys (buildRoad brokenRingOps) (0, 0)).
Proof.
  assert (H : opsInRange brokenRingOps = true) by reflexivity.
  split; [exact H|].
  destruct (road_neighbors_symmetric_adjacency brokenRingOps H)
    as (_ & Hadj & Hsym & _).
  split; [exact Hsym|].
  assert (Hstep : adjacent4 (0, 0) (0, 1))
    by (apply adjacent4_iff; reflexivity).
  exact (proj1 (Hadj (0, 0) (0, 1) eq_refl eq_refl Hstep)).
Defined.

Lemma withoutNeighbor_withNeighbor (k : string) (s : Road.RoadSegment) :
  ~ In k (Road.neighbors s) ->
  Road.withoutNeighbor k (Road.withNeighbor k s) = s.
Proof.
  intros Hn. destruct s as [x y nb]. unfold Road.withoutNeighbor, Road.withNeighbor.
  simpl in *. f_equal. now apply jsset_delete_add.
Qed.

(** On a well-formed road, adding a free cell and removing it again gives
    back the very same map: same entries, same order, same neighbour
    lists. *)
Lemma add_remove_identity (p : GridPos) (r : Road.t) :
  roadInvariant r ->
  Road.hasSegment p r = false ->
  fst (Road.addSegment p r) = true /\
  Road.removeSegment p (snd (Road.addSegment p r)) = (true, r).
Proof.
  intros Hinv Hfree.
  destruct (addSegment_free p r Hfree)
    as (seg & m & -> & Hk & Hg & Hp & Hsnd & Hsin).
  split; [reflexivity|]. simpl snd.
  assert (Hhm : JsMap.has (cellKey p) m = false)
    by now rewrite (jsmap_has_same_keys _ m r).
  assert (Hnotin : ~ In (cellKey p) (JsMap.keys r)).
  { rewrite <- jsmap_has_keys. unfold Road.hasSegment in Hfree. congruence. }
  rewrite <- (jsmap_set_new _ _ _ Hhm).
  unfold Road.removeSegment.
  rewrite jsmap_get_set, String.eqb_refl.
  destruct (disconnect_fold (cellKey p) (Road.neighbors seg)
              (JsMap.set (cellKey p) seg m)) as [Hk2 Hg2].
  set (m2 := fold_left _ _ _) in *.
  f_equal. symmetry. destruct Hinv as [Hnd Hok].
  apply jsmap_ext; [assumption | |].
  - rewrite jsmap_keys_delete, Hk2, jsmap_keys_set_new, Hk by assumption.
    rewrite filter_app. simpl. rewrite String.eqb_refl. simpl.
    rewrite app_nil_r. symmetry. now apply jsset_delete_absent.
  - intros k. rewrite jsmap_get_delete, Hg2, jsmap_get_set.
    destruct (String.eqb_spec (cellKey p) k) as [<-|Hne].
    + now apply jsmap_get_None.
    + rewrite Hg. destruct (JsMap.get k r) as [s0|] eqn:Hs0; [|reflexivity].
      cbn [option_map]. f_equal.
      destruct (Hok _ _ Hs0) as (Hkey & _ & Hin0).
      assert (Hfresh : ~ In (cellKey p) (Road.neighbors s0)).
      { rewrite Hin0. intros [_ Hh]. apply jsmap_has_keys in Hh. contradiction. }
      assert (Hsame : existsb (fun n => String.eqb n k) (Road.neighbors seg) =
                      existsb (fun d => String.eqb (cellKey (shift p d)) k)
                              directions).
      { apply eq_true_iff_eq. rewrite existsb_eqb_In, direction_key, Hsin.
        split.
        - intros [(q & -> & d & Hd & ->) _]. eauto.
        - intros (d & Hd & ->). split.
          + exists (shift p d). split; [reflexivity|]. now exists d.
          + apply jsmap_has_get. eauto. }
      rewrite Hsame. destruct (existsb _ directions); [|reflexivity].
      symmetry. now apply withoutNeighbor_withNeighbor.
Qed.

(** C10. On a road reached by any history of calls, [addSegment] on a
    free cell followed by [removeSegment] on the same cell succeeds twice
    and restores the road: the same occupied cells and, for every cell, the
    same neighbour set (indeed the identical map). *)
Theorem add_then_remove_round_trip (ops : list RoadOp) (p : GridPos) :
  let r := buildRoad ops in
  Road.hasSegment p r = false ->
  let r1 := snd (Road.addSegment p r) in
  let r2 := snd (Road.removeSegment p r1) in
  fst (Road.addSegment p r) = true /\
  fst (Road.removeSegment p r1) = true /\
  r2 = r /\
  (forall c, Road.hasSegment c r2 = Road.hasSegment c r) /\
  (forall c, neighborKeys r2 c = neighborKeys r c) /\
  (forall c, Road.getNeighbors c r2 = Road.getNeighbors c r).
Proof.
  intros r Hfree r1 r2.
  destruct (add_remove_identity p r (buildRoad_invariant ops) Hfree)
    as [Hadd Hrem].
  assert (Hr2 : r2 = r) by (unfold r2, r1; now rewrite Hrem).
  split; [assumption|]. split; [unfold r1; now rewrite Hrem|].
  split; [assumption|]. rewrite Hr2. auto.
Qed.

Lemma add_then_remove_round_trip_witness :
  Road.hasSegment (1, 1) (buildRoad ringOps) = false /\
  snd (Road.removeSegment (1, 1)
         (snd (Road.addSegment (1, 1) (buildRoad ringOps))))
  = buildRoad ringOps.
Proof.
  split; [reflexivity|].
  destruct (add_then_remove_round_trip ringOps (1, 1) eq_refl)
    as (_ & _ & H & _).
  exact H.
Defined.

(** The history matters.  A map whose segment at (0,0) already lists the
    free cell (1,0) is not restored; [segments] being private, no sequence
    of calls on the class builds such a map ([buildRoad_invariant]). *)
Example add_remove_needs_well_formed_road :
  let stale : Road.t :=
    [("0,0"%string,
      {| Road.gridX := 0; Road.gridY := 0;
         Road.neighbors := ["1,0"%string] |})] in
  Road.hasSegment (1, 0) stale = false /\
  snd (Road.removeSegment (1, 0) (snd (Road.addSegment (1, 0) stale)))
  <> stale.
Proof. split; [reflexivity | discriminate]. Qed.

(* ------------------------------------------------------------------ *)
(** ** Paths in the road graph *)

Lemma walk_nonneg r s c n : walk r s c n -> 0 <= n.
Proof. induction 1; lia. Qed.

Lemma walk_trans r s c e n m :
  walk r s c n -> walk r c e m -> walk r s e (n + m).
Proof.
  intros Hsc Hce. induction Hce as [|c' w k Hc' IH Hw].
  - now rewrite Z.add_0_r.
  - rewrite Z.add_assoc. econstructor; eassumption.
Qed.

Lemma roadPath_start_occupied r a e p :
  roadPath r a e p -> Road.hasSegment a r = true.
Proof. destruct 1; assumption. Qed.

Lemma roadPath_nonempty r a e p : roadPath r a e p -> p <> [].
Proof. destruct 1; discriminate. Qed.

Lemma roadPath_walk r a e p :
  roadInvariant r -> roadPath r a e p -> walk r a e (edgeCount p).
Proof.
  intros Hinv. unfold edgeCount. induction 1 as [a Ha | a b e p Ha Hadj Hp IH].
  - simpl. constructor.
  - pose proof (roadPath_start_occupied _ _ _ _ Hp) as Hb.
    replace (Z.of_nat (List.length (a :: p)) - 1)
      with ((0 + 1) + (Z.of_nat (List.length p) - 1))
      by (simpl List.length; lia).
    eapply walk_trans; [|eassumption].
    econstructor; [constructor|]. apply getNeighbors_spec; tauto.
Qed.

Lemma roadPath_snoc r a c w p :
  roadPath r a c p -> adjacent4 c w -> Road.hasSegment w r = true ->
  roadPath r a w (p ++ [w]).
Proof.
  intros Hp Hadj Hw. induction Hp as [a Ha | a b e p Ha Hab Hp IH]; simpl.
  - econstructor; [assumption | eassumption | now constructor].
  - econstructor; [assumption | eassumption | auto].
Qed.

(** The Manhattan heuristic changes by at most one along an edge. *)
Lemma heuristic_consistent (a b goal : GridPos) :
  adjacent4 a b ->
  Pathfinding.heuristic a goal <= Pathfinding.heuristic b goal + 1.
Proof.
  rewrite adjacent4_iff. unfold Pathfinding.heuristic. lia.
Qed.

(** Induction over a node and its chain of parents. *)
Lemma PathNode_chain_ind (P : Pathfinding.PathNode -> Prop) :
  (forall k x y g h f, P (Pathfinding.mkPathNode k x y g h f None)) ->
  (forall k x y g h f p,
      P p -> P (Pathfinding.mkPathNode k x y g h f (Some p))) ->
  forall n, P n.
Proof.
  intros Hroot Hlink. fix IH 1. intros [k x y g h f [p|]].
  - apply Hlink, IH.
  - apply Hroot.
Qed.

Lemma reconstructFrom_app (n : Pathfinding.PathNode) :
  forall acc,
    Pathfinding.reconstructFrom n acc = Pathfinding.reconstructPath n ++ acc.
Proof.
  unfold Pathfinding.reconstructPath.
  induction n as [k x y g h f | k x y g h f p IH] using PathNode_chain_ind;
    intros acc; simpl.
  - reflexivity.
  - rewrite (IH (_ :: acc)), (IH (_ :: nil)), <- app_assoc. reflexivity.
Qed.

(* ------------------------------------------------------------------ *)
(** ** The A* search *)

Section Search.

Variable r : Road.t.
Variables start goal : GridPos.
Hypothesis Hinv : roadInvariant r.

#[local] Abbreviation chainOk := (chainOk r start goal).
#[local] Abbreviation searchInv := (searchInv r start goal).

Lemma chainOk_key n :
  chainOk n -> Pathfinding.key n = cellKey (Pathfinding.pos n).
Proof. destruct n; simpl. tauto. Qed.

Lemma chainOk_occupied n :
  chainOk n -> Road.hasSegment (Pathfinding.pos n) r = true.
Proof. destruct n; simpl. tauto. Qed.

Lemma chainOk_f n :
  chainOk n ->
  Pathfinding.f n =
  Pathfinding.g n + Pathfinding.heuristic (Pathfinding.pos n) goal.
Proof. destruct n; simpl. intros (_ & _ & -> & -> & _). reflexivity. Qed.

Lemma chainOk_path n :
  chainOk n ->
  roadPath r start (Pathfinding.pos n) (Pathfinding.reconstructPath n) /\
  edgeCount (Pathfinding.reconstructPath n) = Pathfinding.g n.
Proof.
  unfold Pathfinding.reconstructPath.
  induction n as [k x y g h f | k x y g h f p IH] using PathNode_chain_ind;
    simpl.
  - intros (_ & Hocc & _ & _ & <- & ->). split; [now constructor | reflexivity].
  - intros (_ & Hocc & _ & _ & -> & Hin & Hp).
    destruct (IH Hp) as [Hpath Hlen].
    apply getNeighbors_spec in Hin; [|assumption].
    destruct Hin as (Hadj & _ & _).
    rewrite reconstructFrom_app. unfold Pathfinding.reconstructPath. split.
    + now apply roadPath_snoc with (Pathfinding.pos p).
    + unfold edgeCount in *. rewrite length_app. simpl. lia.
Qed.

Lemma open_node_pos openSet closedSet c n :
  searchInv openSet closedSet ->
  JsMap.get (cellKey c) openSet = Some n -> Pathfinding.pos n = c.
Proof.
  intros HI Hn. destruct (inv_open_nodes HI _ _ Hn) as (Hk & Hc & _).
  apply chainOk_key in Hc. apply cellKey_inj. congruence.
Qed.

(** Every route to a cell that is not closed yet crosses the open set at a
    node whose [f] does not exceed the route's length plus the heuristic
    of its end. *)
Lemma frontier openSet closedSet u m :
  searchInv openSet closedSet ->
  walk r start u m ->
  ~ In (cellKey u) closedSet ->
  exists k n, JsMap.get k openSet = Some n /\
              Pathfinding.f n <= m + Pathfinding.heuristic u goal.
Proof.
  intros HI Hw. induction Hw as [|c w m Hw IH Hin]; intros Hopen.
  - destruct (inv_start HI) as [Hc | (n & Hn & Hg)]; [contradiction|].
    exists (cellKey start), n. split; [assumption|].
    destruct (inv_open_nodes HI _ _ Hn) as (_ & Hc & _).
    rewrite (chainOk_f _ Hc), (open_node_pos _ _ _ _ HI Hn). lia.
  - destruct (in_dec string_dec (cellKey c) closedSet) as [Hc | Hc].
    + destruct (inv_expanded HI c m w Hc Hw Hin) as [Hcl | (n & Hn & Hg)];
        [contradiction|].
      exists (cellKey w), n. split; [assumption|].
      destruct (inv_open_nodes HI _ _ Hn) as (_ & Hch & _).
      rewrite (chainOk_f _ Hch), (open_node_pos _ _ _ _ HI Hn). lia.
    + destruct (IH Hc) as (k & n & Hn & Hf). exists k, n.
      split; [assumption|].
      apply getNeighbors_spec in Hin; [|assumption].
      destruct Hin as (Hadj & _).
      pose proof (heuristic_consistent c w goal Hadj). lia.
Qed.

(** [lowest] returns a node of the open set with the least [f]. *)
Lemma pickLower_fold (nodes : list Pathfinding.PathNode) :
  forall cur lo,
    (forall c, cur = Some c -> lo = Some (Pathfinding.f c)) ->
    (cur = None -> lo = None) ->
    match fst (fold_left Pathfinding.pickLower nodes (cur, lo)) with
    | None => cur = None /\ nodes = []
    | Some best =>
        (cur = Some best \/ In best nodes) /\
        (forall c, cur = Some c -> Pathfinding.f best <= Pathfinding.f c) /\
        (forall n, In n nodes -> Pathfinding.f best <= Pathfinding.f n)
    end.
Proof.
  induction nodes as [|n nodes IH]; intros cur lo Hsome Hnone; simpl.
  - destruct cur as [c|]; [|tauto].
    split; [tauto|]. split; [intros ? [= <-]; lia | intros ? []].
  - unfold Pathfinding.pickLower at 2. simpl snd.
    destruct lo as [lowestF|].
    + destruct cur as [c|]; [|specialize (Hnone eq_refl); discriminate].
      specialize (Hsome c eq_refl). injection Hsome as ->.
      destruct (Z.ltb_spec (Pathfinding.f n) (Pathfinding.f c)) as [Hlt | Hge].
      * specialize (IH (Some n) (Some (Pathfinding.f n))).
        destruct (fst (fold_left _ nodes _)) as [best|].
        -- destruct IH as ([He | Hb] & Hcur & Hall);
             try (intros ? [= <-]; reflexivity); try discriminate.
           ++ injection He as <-. split; [tauto|].
              split; [intros ? [= <-]; lia|].
              intros n' [<- | Hn']; [lia | auto].
           ++ specialize (Hcur _ eq_refl). split; [tauto|].
              split; [intros ? [= <-]; lia|].
              intros n' [<- | Hn']; [lia | auto].
        -- destruct IH as [He _];
             try (intros ? [= <-]; reflexivity); discriminate.
      * specialize (IH (Some c) (Some (Pathfinding.f c))).
        destruct (fst (fold_left _ nodes _)) as [best|].
        -- destruct IH as ([He | Hb] & Hcur & Hall);
             try (intros ? [= <-]; reflexivity); try discriminate.
           ++ injection He as <-. split; [tauto|].
              split; [intros ? [= <-]; lia|].
              intros n' [<- | Hn']; [lia | auto].
           ++ specialize (Hcur _ eq_refl). split; [tauto|].
              split; [intros ? [= <-]; lia|].
              intros n' [<- | Hn']; [lia | auto].
        -- destruct IH as [He _];
             try (intros ? [= <-]; reflexivity); discriminate.
    + destruct cur as [c|]; [specialize (Hsome c eq_refl); discriminate|].
      specialize (IH (Some n) (Some (Pathfinding.f n))).
      destruct (fst (fold_left _ nodes _)) as [best|].
      * destruct IH as ([He | Hb] & Hcur & Hall);
          try (intros ? [= <-]; reflexivity); try discriminate.
        -- injection He as <-. split; [tauto|].
           split; [discriminate|].
           intros n' [<- | Hn']; [lia | auto].
        -- specialize (Hcur _ eq_refl). split; [tauto|].
           split; [discriminate|].
           intros n' [<- | Hn']; [lia | auto].
      * destruct IH as [He _];
          try (intros ? [= <-]; reflexivity); discriminate.
Qed.

Lemma lowest_spec (openSet : JsMap.t Pathfinding.PathNode) :
  NoDup (JsMap.keys openSet) ->
  match Pathfinding.lowest openSet with
  | None => openSet = []
  | Some current =>
      (exists k, JsMap.get k openSet = Some current) /\
      (forall k n, JsMap.get k openSet = Some n ->
                   Pathfinding.f current <= Pathfinding.f n)
  end.
Proof.
  intros Hnd. unfold Pathfinding.lowest.
  pose proof (pickLower_fold (JsMap.values openSet) None None) as H.
  destruct (fst (fold_left _ _ _)) as [best|].
  - destruct H as ([He | Hb] & _ & Hall); try discriminate; try tauto.
    split.
    + unfold JsMap.values in Hb. apply in_map_iff in Hb.
      destruct Hb as ([k n] & <- & Hin). exists k.
      now apply jsmap_In_get.
    + intros k n Hn. apply Hall. apply jsmap_get_In in Hn.
      now apply (in_map snd) in Hn.
  - destruct H as [_ Hv]; try discriminate; try tauto.
    unfold JsMap.values in Hv. now apply map_eq_nil in Hv.
Qed.

Section Relax.

Variable current : Pathfinding.PathNode.
Variable closedSet : JsSet.t.
Hypothesis Hcurrent : chainOk current.

#[local] Abbreviation openOk := (openOk r start goal closedSet).
#[local] Abbreviation reached := (reached current closedSet).

Lemma improves_refl openSet : improves openSet openSet.
Proof. intros k n Hn. exists n. split; [assumption | lia]. Qed.

Lemma improves_trans a b c : improves a b -> improves b c -> improves a c.
Proof.
  intros Hab Hbc k n Hn. destruct (Hab k n Hn) as (n1 & Hn1 & H1).
  destruct (Hbc k n1 Hn1) as (n2 & Hn2 & H2). exists n2. split; [assumption | lia].
Qed.

Lemma reached_improves a b w : improves a b -> reached a w -> reached b w.
Proof.
  intros Hab [Hc | (n & Hn & Hg)]; [now left|]. right.
  destruct (Hab _ _ Hn) as (n' & Hn' & Hg'). exists n'. split; [assumption | lia].
Qed.

Lemma relax_step openSet w :
  openOk openSet ->
  In w (Road.getNeighbors (Pathfinding.pos current) r) ->
  let openSet' := Pathfinding.relax goal current closedSet openSet w in
  openOk openSet' /\ improves openSet openSet' /\ reached openSet' w.
Proof.
  intros [Hnd Hnodes] Hw. simpl. unfold Pathfinding.relax.
  pose proof Hw as Hw'. apply getNeighbors_spec in Hw'; [|assumption].
  destruct Hw' as (Hadj & _ & Hocc).
  destruct (JsSet.has (cellKey w) closedSet) eqn:Hcl.
  { split; [now split|]. split; [apply improves_refl|].
    left. now apply jsset_has_In. }
  apply jsset_has_false in Hcl.
  destruct (JsMap.get (cellKey w) openSet) as [nn|] eqn:Hnn.
  - destruct (Hnodes _ _ Hnn) as (Hknn & Hcnn & _).
    assert (Hpos : Pathfinding.pos nn = w).
    { apply chainOk_key in Hcnn. apply cellKey_inj. congruence. }
    destruct (Z.ltb_spec (Pathfinding.g current + 1) (Pathfinding.g nn))
      as [Hlt | Hge].
    + split; [split|split].
      * now rewrite jsmap_keys_mutate.
      * intros k n. rewrite jsmap_get_mutate.
        destruct (String.eqb_spec (cellKey w) k) as [<-|Hne]; [|apply Hnodes].
        rewrite Hnn. intros [= <-]. split; [assumption|]. split; [|assumption].
        destruct nn as [k0 x0 y0 g0 h0 f0 par0]. simpl in *.
        unfold Pathfinding.pos in Hpos. simpl in Hpos. rewrite Hpos.
        destruct Hcnn as (Hk0 & Hocc0 & Hh0 & _). rewrite Hpos in *.
        repeat split; assumption.
      * intros k n Hn. rewrite jsmap_get_mutate.
        destruct (String.eqb_spec (cellKey w) k) as [<-|Hne].
        -- rewrite Hn. simpl. eexists. split; [reflexivity|].
           assert (nn = n) by congruence. subst n.
           destruct nn. simpl in *. lia.
        -- exists n. split; [assumption | lia].
      * right. rewrite jsmap_get_mutate, String.eqb_refl, Hnn. simpl.
        eexists. split; [reflexivity|]. destruct nn. simpl. lia.
    + split; [now split|]. split; [apply improves_refl|].
      right. exists nn. split; [assumption | lia].
  - assert (Hhas : JsMap.has (cellKey w) openSet = false)
      by (unfold JsMap.has; now rewrite Hnn).
    split; [split|split].
    + rewrite jsmap_keys_set_new by assumption.
      apply NoDup_app; [assumption | repeat constructor; simpl; tauto |].
      intros a Ha [<- | []]. apply jsmap_get_None in Hnn. contradiction.
    + intros k n. rewrite jsmap_get_set.
      destruct (String.eqb_spec (cellKey w) k) as [<-|Hne]; [|apply Hnodes].
      intros [= <-]. simpl. destruct w as [wx wy]. simpl.
      repeat split; assumption.
    + intros k n Hn. rewrite jsmap_get_set.
      destruct (String.eqb_spec (cellKey w) k) as [<-|Hne]; [congruence|].
      exists n. split; [assumption | lia].
    + right. rewrite jsmap_get_set, String.eqb_refl.
      eexists. split; [reflexivity|]. simpl. lia.
Qed.

Lemma relax_fold (nbrs : list GridPos) :
  forall openSet,
    openOk openSet ->
    (forall w, In w nbrs ->
               In w (Road.getNeighbors (Pathfinding.pos current) r)) ->
    let openSet' :=
      fold_left (Pathfinding.relax goal current closedSet) nbrs openSet in
    openOk openSet' /\ improves openSet openSet' /\
    forall w, In w nbrs -> reached openSet' w.
Proof.
  induction nbrs as [|w nbrs IH]; intros openSet Hok Hn; simpl.
  - split; [assumption|]. split; [apply improves_refl | intros ? []].
  - destruct (relax_step openSet w Hok (Hn w (or_introl eq_refl)))
      as (Hok1 & Himp1 & Hr1).
    destruct (IH _ Hok1 (fun w' Hw' => Hn w' (or_intror Hw')))
      as (Hok2 & Himp2 & Hr2).
    split; [assumption|]. split; [eapply improves_trans; eassumption|].
    intros w' [<- | Hw']; [|auto].
    eapply reached_improves; eassumption.
Qed.

End Relax.

(** The node taken out of the open set is reached at the least cost. *)
Lemma current_optimal openSet closedSet current :
  searchInv openSet closedSet ->
  Pathfinding.lowest openSet = Some current ->
  forall m, walk r start (Pathfinding.pos current) m ->
            Pathfinding.g current <= m.
Proof.
  intros HI Hlow m Hw.
  pose proof (lowest_spec openSet (inv_open_keys HI)) as Hspec.
  rewrite Hlow in Hspec. destruct Hspec as [(kc & Hkc) Hmin].
  destruct (inv_open_nodes HI _ _ Hkc) as (Hkey & Hchain & Hnot).
  assert (Hopen : ~ In (cellKey (Pathfinding.pos current)) closedSet).
  { rewrite <- (chainOk_key _ Hchain). congruence. }
  destruct (frontier _ _ _ _ HI Hw Hopen) as (k & n & Hn & Hf).
  specialize (Hmin _ _ Hn). rewrite (chainOk_f _ Hchain) in Hmin. lia.
Qed.

(** One turn of the loop that does not return keeps the invariant and
    closes one more cell. *)
Lemma search_step openSet closedSet current :
  searchInv openSet closedSet ->
  Pathfinding.lowest openSet = Some current ->
  Pathfinding.key current <> cellKey goal ->
  let closedSet1 := JsSet.add (Pathfinding.key current) closedSet in
  let openSet2 :=
    fold_left (Pathfinding.relax goal current closedSet1)
      (Road.getNeighbors (Pathfinding.pos current) r)
      (JsMap.delete (Pathfinding.key current) openSet) in
  searchInv openSet2 closedSet1 /\
  List.length closedSet1 = S (List.length closedSet).
Proof.
  intros HI Hlow Hgoal closedSet1 openSet2.
  pose proof (current_optimal _ _ _ HI Hlow) as Hopt.
  pose proof (lowest_spec openSet (inv_open_keys HI)) as Hspec.
  rewrite Hlow in Hspec. destruct Hspec as [(kc & Hkc) _].
  destruct (inv_open_nodes HI _ _ Hkc) as (Hkey & Hchain & Hnot).
  subst kc. set (ck := Pathfinding.key current) in *.
  assert (Hck : ck = cellKey (Pathfinding.pos current))
    by now apply chainOk_key.
  assert (Hcl1 : forall k, In k closedSet1 <-> In k closedSet \/ k = ck)
    by (intros k; apply jsset_add_In).
  assert (Hopen1 : openOk r start goal closedSet1 (JsMap.delete ck openSet)).
  { split.
    - rewrite jsmap_keys_delete. apply NoDup_filter, (inv_open_keys HI).
    - intros k n. rewrite jsmap_get_delete.
      destruct (String.eqb_spec ck k) as [<-|Hne]; [discriminate|].
      intros Hn. destruct (inv_open_nodes HI _ _ Hn) as (? & ? & ?).
      rewrite Hcl1. intuition congruence. }
  destruct (relax_fold current closedSet1 Hchain
              (Road.getNeighbors (Pathfinding.pos current) r)
              _ Hopen1 (fun w Hw => Hw)) as ([Hnd2 Hnodes2] & Himp & Hreach).
  fold openSet2 in Hnd2, Hnodes2, Himp, Hreach.
  assert (Hkeep : forall k n, JsMap.get k openSet = Some n ->
            k = ck \/ exists n', JsMap.get k openSet2 = Some n' /\
                                 Pathfinding.g n' <= Pathfinding.g n).
  { intros k n Hn. destruct (String.eqb_spec ck k) as [<-|Hne]; [now left|].
    right. apply Himp. rewrite jsmap_get_delete.
    apply String.eqb_neq in Hne. now rewrite Hne. }
  split.
  - constructor.
    + assumption.
    + assumption.
    + apply jsset_add_NoDup, (inv_closed_nodup HI).
    + intros k Hk. apply Hcl1 in Hk. destruct Hk as [Hk | ->].
      * now apply (inv_closed_occupied HI).
      * rewrite Hck. apply jsmap_has_keys.
        apply (chainOk_occupied _ Hchain).
    + rewrite Hcl1. intros [Hg | Hg]; [|congruence].
      now apply (inv_goal_open HI).
    + destruct (inv_start HI) as [Hs | (n & Hn & Hg)].
      * left. apply Hcl1. now left.
      * destruct (Hkeep _ _ Hn) as [He | (n' & Hn' & Hg')].
        -- left. apply Hcl1. now right.
        -- right. exists n'. split; [assumption | lia].
    + intros c m w Hc Hwalk Hw. apply Hcl1 in Hc. destruct Hc as [Hc | Hc].
      * destruct (inv_expanded HI c m w Hc Hwalk Hw)
          as [Hwc | (n & Hn & Hg)].
        -- left. apply Hcl1. now left.
        -- destruct (Hkeep _ _ Hn) as [He | (n' & Hn' & Hg')].
           ++ left. apply Hcl1. now right.
           ++ right. exists n'. split; [assumption | lia].
      * assert (c = Pathfinding.pos current) as ->
          by (apply cellKey_inj; congruence).
        specialize (Hopt _ Hwalk).
        destruct (Hreach w Hw) as [Hwc | (n & Hn & Hg)]; [now left|].
        right. exists n. split; [assumption | lia].
  - unfold closedSet1, JsSet.add.
    assert (JsSet.has ck closedSet = false) as ->
      by now apply jsset_has_false.
    rewrite length_app. simpl. lia.
Qed.

Lemma closed_bound openSet closedSet :
  searchInv openSet closedSet ->
  (List.length closedSet <= JsMap.size r)%nat.
Proof.
  intros HI. unfold JsMap.size.
  rewrite <- (length_map fst r).
  apply NoDup_incl_length; [apply (inv_closed_nodup HI)|].
  intros k Hk. now apply (inv_closed_occupied HI).
Qed.

(** From any state that satisfies the invariant, and with fuel for the
    cells not yet closed, the loop returns: either a cheapest route from
    [start] to [goal], or the empty list when there is no route. *)
Lemma search_correct (fuel : nat) :
  forall openSet closedSet,
    searchInv openSet closedSet ->
    (JsMap.size r - List.length closedSet < fuel)%nat ->
    exists p,
      Pathfinding.search fuel r goal openSet closedSet = Some p /\
      ((p = [] /\ forall m, ~ walk r start goal m) \/
       (roadPath r start goal p /\
        forall m, walk r start goal m -> edgeCount p <= m)).
Proof.
  induction fuel as [|fuel IH]; intros openSet closedSet HI Hfuel; [lia|].
  simpl.
  pose proof (lowest_spec openSet (inv_open_keys HI)) as Hspec.
  destruct (Nat.ltb_spec 0 (JsMap.size openSet)) as [Hsize | Hsize].
  - destruct (Pathfinding.lowest openSet) as [current|] eqn:Hlow.
    + destruct Hspec as [(kc & Hkc) _].
      destruct (inv_open_nodes HI _ _ Hkc) as (_ & Hchain & _).
      destruct (String.eqb_spec (Pathfinding.key current) (cellKey goal))
        as [Heq | Hne].
      * exists (Pathfinding.reconstructPath current). split; [reflexivity|].
        right. destruct (chainOk_path _ Hchain) as [Hpath Hlen].
        assert (Hpos : Pathfinding.pos current = goal).
        { apply cellKey_inj. rewrite <- (chainOk_key _ Hchain). assumption. }
        rewrite Hpos in Hpath. split; [assumption|].
        intros m Hm. rewrite Hlen.
        apply (current_optimal _ _ _ HI Hlow). now rewrite Hpos.
      * destruct (search_step _ _ _ HI Hlow Hne) as [HI' Hlen].
        apply IH; [assumption|].
        pose proof (closed_bound _ _ HI'). lia.
    + subst openSet. simpl in Hsize. lia.
  - exists []. split; [reflexivity|]. left. split; [reflexivity|].
    intros m Hm.
    destruct (frontier _ _ _ _ HI Hm (inv_goal_open HI))
      as (k & n & Hn & _).
    destruct openSet; [discriminate | simpl in Hsize; lia].
Qed.

End Search.

Lemma search_initial (r : Road.t) (start goal : GridPos) :
  Road.hasSegment start r = true ->
  let h0 := Pathfinding.heuristic start goal in
  let startNode :=
    Pathfinding.mkPathNode (cellKey start) (fst start) (snd start)
                           0 h0 (0 + h0) None in
  searchInv r start goal
    (JsMap.set (cellKey start) startNode JsMap.empty) JsSet.empty.
Proof.
  intros Hs h0 startNode. destruct start as [sx sy].
  constructor; simpl.
  - repeat constructor. simpl. tauto.
  - intros k n. unfold JsMap.set. simpl. rewrite jsmap_get_cons.
    destruct (String.eqb_spec k (cellKey (sx, sy))) as [->|Hne];
      [|discriminate].
    intros [= <-]. simpl. tauto.
  - constructor.
  - intros k [].
  - intros [].
  - right. exists startNode. unfold JsMap.set. simpl.
    rewrite jsmap_get_cons, String.eqb_refl. split; [reflexivity | simpl; lia].
  - intros c m w [].
Qed.

(** What [findPath] returns on a well-formed road. *)
Lemma findPath_spec (r : Road.t) (start goal : GridPos) :
  roadInvariant r ->
  exists p,
    Pathfinding.findPath r start goal = Some p /\
    (Road.hasSegment start r = false \/ Road.hasSegment goal r = false ->
     p = []) /\
    (Road.hasSegment start r = true -> Road.hasSegment goal r = true ->
     (start = goal -> p = [start]) /\
     ((p = [] /\ forall m, ~ walk r start goal m) \/
      (roadPath r start goal p /\
       forall m, walk r start goal m -> edgeCount p <= m))).
Proof.
  intros Hinv. unfold Pathfinding.findPath, Pathfinding.findPathWithin.
  destruct (Road.hasSegment start r) eqn:Hs; simpl negb; simpl orb.
  2:{ exists []. split; [reflexivity|]. split; [reflexivity | discriminate]. }
  destruct (Road.hasSegment goal r) eqn:Hg; simpl negb.
  2:{ exists []. split; [reflexivity|]. split; [reflexivity | discriminate]. }
  destruct (String.eqb_spec (cellKey start) (cellKey goal)) as [Heq | Hne].
  - apply cellKey_inj in Heq. subst goal. exists [start].
    split; [reflexivity|]. split; [intros [|]; discriminate|].
    intros _ _. split; [reflexivity|]. right.
    split; [now constructor|]. intros m Hm. apply walk_nonneg in Hm.
    unfold edgeCount. simpl. lia.
  - destruct (search_correct r start goal Hinv (Pathfinding.searchBound r)
                _ _ (search_initial r start goal Hs))
      as (p & Hp & Hres).
    { unfold Pathfinding.searchBound. simpl. lia. }
    exists p. split; [exact Hp|]. split; [intros [|]; discriminate|].
    intros _ _. split; [|assumption].
    intros ->. contradiction.
Qed.

(** Checks a path given cell by cell on a concrete road. *)
Ltac road_path :=
  repeat match goal with
  | |- roadPath _ ?a _ [?a] => apply roadPath_one; reflexivity
  | |- roadPath _ ?a _ (?a :: ?b :: _) =>
      apply (roadPath_cons _ a b);
      [reflexivity | apply adjacent4_iff; reflexivity |]
  end.

(** C1. On a road reached by any history of calls on cells within
    [coordLimit], for occupied cells [start] and [goal] joined by some
    path of 4-adjacent occupied cells, [findPath] returns a non-empty path
    from [start] to [goal] along 4-adjacent occupied cells, and no path
    between the two has fewer edges. *)
Theorem findPath_shortest (ops : list RoadOp) (start goal : GridPos) :
  let r := buildRoad ops in
  opsInRange ops = true ->
  inRange start = true ->
  inRange goal = true ->
  Road.hasSegment start r = true ->
  Road.hasSegment goal r = true ->
  (exists q, roadPath r start goal q) ->
  exists p,
    Pathfinding.findPath r start goal = Some p /\
    p <> [] /\
    roadPath r start goal p /\
    forall q, roadPath r start goal q -> edgeCount p <= edgeCount q.
Proof.
  intros r _ _ _ Hs Hg (q0 & Hq0).
  pose proof (buildRoad_invariant ops) as Hinv. fold r in Hinv.
  destruct (findPath_spec r start goal Hinv) as (p & Hp & _ & Hocc).
  destruct (Hocc Hs Hg) as [_ [[-> Hnone] | [Hpath Hmin]]].
  - exfalso. apply (Hnone (edgeCount q0)). now apply roadPath_walk.
  - exists p. split; [assumption|].
    split; [now apply roadPath_nonempty in Hpath|].
    split; [assumption|].
    intros q Hq. apply Hmin. now apply roadPath_walk.
Qed.

Lemma findPath_shortest_witness :
  opsInRange ringOps = true /\
  Road.hasSegment (0, 0) (buildRoad ringOps) = true /\
  Road.hasSegment (2, 2) (buildRoad ringOps) = true /\
  exists p,
    Pathfinding.findPath (buildRoad ringOps) (0, 0) (2, 2) = Some p /\
    p <> [] /\
    roadPath (buildRoad ringOps) (0, 0) (2, 2) p /\
    forall q, roadPath (buildRoad ringOps) (0, 0) (2, 2) q ->
              edgeCount p <= edgeCount q.
Proof.
  split; [reflexivity|]. split; [reflexivity|]. split; [reflexivity|].
  apply (findPath_shortest ringOps (0, 0) (2, 2));
    [reflexivity | reflexivity | reflexivity | reflexivity | reflexivity |].
  exists [(0, 0); (0, 1); (0, 2); (1, 2); (2, 2)]. road_path.
Defined.

(** C3. On a road reached by any history of calls, for cells within
    [coordLimit], [findPath] always returns.  It returns the empty list
    when [start] or [goal] is not an occupied cell, exactly [[start]] when
    [start = goal] is occupied, and the empty list when both are occupied
    but no path of 4-adjacent occupied cells joins them. *)
Theorem findPath_no_route_cases (ops : list RoadOp) (start goal : GridPos) :
  let r := buildRoad ops in
  opsInRange ops = true ->
  inRange start = true ->
  inRange goal = true ->
  (exists p, Pathfinding.findPath r start goal = Some p) /\
  (Road.hasSegment start r = false \/ Road.hasSegment goal r = false ->
   Pathfinding.findPath r start goal = Some []) /\
  (start = goal -> Road.hasSegment start r = true ->
   Pathfinding.findPath r start goal = Some [start]) /\
  (Road.hasSegment start r = true -> Road.hasSegment goal r = true ->
   (forall q, ~ roadPath r start goal q) ->
   Pathfinding.findPath r start goal = Some []).
Proof.
  intros r _ _ _.
  pose proof (buildRoad_invariant ops) as Hinv. fold r in Hinv.
  destruct (findPath_spec r start goal Hinv) as (p & Hp & Hfree & Hocc).
  split; [eauto|]. split; [|split].
  - intros H. now rewrite Hp, (Hfree H).
  - intros Heq Hs. assert (Hg : Road.hasSegment goal r = true) by now subst.
    destruct (Hocc Hs Hg) as [Hsame _]. now rewrite Hp, (Hsame Heq).
  - intros Hs Hg Hnone.
    destruct (Hocc Hs Hg) as [_ [[-> _] | [Hpath _]]]; [assumption|].
    now apply Hnone in Hpath.
Qed.

Lemma findPath_no_route_cases_witness :
  opsInRange corridorOps = true /\
  inRange (0, 0) = true /\
  inRange (7, 7) = true /\
  Pathfinding.findPath (buildRoad corridorOps) (0, 0) (7, 7) = Some [] /\
  Pathfinding.findPath (buildRoad corridorOps) (0, 0) (0, 0) = Some [(0, 0)].
Proof.
  assert (H1 : opsInRange corridorOps = true) by reflexivity.
  assert (H2 : inRange (0, 0) = true) by reflexivity.
  assert (H3 : inRange (7, 7) = true) by reflexivity.
  split; [exact H1|]. split; [exact H2|]. split; [exact H3|]. split.
  - destruct (findPath_no_route_cases corridorOps (0, 0) (7, 7) H1 H2 H3)
      as (_ & Hfree & _).
    apply Hfree. right. reflexivity.
  - destruct (findPath_no_route_cases corridorOps (0, 0) (0, 0) H1 H2 H2)
      as (_ & _ & Hsame & _).
    apply Hsame; reflexivity.
Defined.

(** The straight five-cell corridor of the design document: the route has
    five waypoints, that is Manhattan distance many edges. *)
Example findPath_corridor :
  Pathfinding.findPath
    (buildRoad (map AddSegment [(0, 0); (1, 0); (2, 0); (3, 0); (4, 0)]))
    (0, 0) (4, 0)
  = Some [(0, 0); (1, 0); (2, 0); (3, 0); (4, 0)].
Proof. reflexivity. Qed.

(** On the broken ring the long way round is the only route between the
    two cells next to the gap; the loose cells are out of reach. *)
Example findPath_broken_ring :
  let r := buildRoad brokenRingOps in
  Pathfinding.findPath r (1, 0) (2, 1)
    = Some [(1, 0); (0, 0); (0, 1); (0, 2); (1, 2); (2, 2); (2, 1)] /\
  Pathfinding.findPath r (0, 0) (8, 7) = Some [] /\
  Pathfinding.findPath r (0, 0) (2, 0) = Some [] /\
  Pathfinding.findPath r (7, 7) (7, 7) = Some [(7, 7)].
Proof. repeat split; reflexivity. Qed.

(* ------------------------------------------------------------------ *)
(** ** Determinism of the router *)

(** Scanning on from a current choice [c]: either [c] stays (nothing later
    is strictly cheaper), or the scan ends on the first later node that is
    strictly cheaper than [c] and than everything before it. *)
Lemma pickLower_first (nodes : list Pathfinding.PathNode) :
  forall c,
    exists best,
      fst (fold_left Pathfinding.pickLower nodes
             (Some c, Some (Pathfinding.f c))) = Some best /\
      ((best = c /\
        forall n, In n nodes -> Pathfinding.f c <= Pathfinding.f n) \/
       (exists pre post,
          nodes = pre ++ best :: post /\
          Pathfinding.f best < Pathfinding.f c /\
          (forall n, In n pre -> Pathfinding.f best < Pathfinding.f n) /\
          (forall n, In n post -> Pathfinding.f best <= Pathfinding.f n))).
Proof.
  induction nodes as [|n nodes IH]; intros c; simpl.
  - exists c. split; [reflexivity|]. left. split; [reflexivity | intros ? []].
  - unfold Pathfinding.pickLower at 2. cbn [snd].
    destruct (Z.ltb_spec (Pathfinding.f n) (Pathfinding.f c)) as [Hlt | Hge].
    + destruct (IH n) as (best & Hbest & Hcase). exists best.
      split; [assumption|]. right.
      destruct Hcase as [[-> Hall] | (pre & post & -> & Hb & Hpre & Hpost)].
      * exists [], nodes. simpl.
        split; [reflexivity|]. split; [lia|]. split; [intros ? []|assumption].
      * exists (n :: pre), post. simpl.
        split; [reflexivity|]. split; [lia|]. split; [|assumption].
        intros n' [<- | Hn']; [lia | auto].
    + destruct (IH c) as (best & Hbest & Hcase). exists best.
      split; [assumption|].
      destruct Hcase as [[-> Hall] | (pre & post & -> & Hb & Hpre & Hpost)].
      * left. split; [reflexivity|]. intros n' [<- | Hn']; [lia | auto].
      * right. exists (n :: pre), post. simpl.
        split; [reflexivity|]. split; [lia|]. split; [|assumption].
        intros n' [<- | Hn']; [lia | auto].
Qed.

(** The tie-break: [lowest] returns the first node, in insertion order,
    among those of least [f]. *)
Lemma lowest_first_inserted (openSet : JsMap.t Pathfinding.PathNode) :
  match Pathfinding.lowest openSet with
  | None => openSet = []
  | Some best =>
      exists pre post,
        JsMap.values openSet = pre ++ best :: post /\
        (forall n, In n pre -> Pathfinding.f best < Pathfinding.f n) /\
        (forall n, In n post -> Pathfinding.f best <= Pathfinding.f n)
  end.
Proof.
  unfold Pathfinding.lowest. destruct openSet as [|[k0 v0] rest]; simpl.
  - reflexivity.
  - change (Pathfinding.pickLower (None, None) v0)
      with (Some v0, Some (Pathfinding.f v0)).
    destruct (pickLower_first (JsMap.values rest) v0) as (best & Hbest & Hcase).
    rewrite Hbest.
    destruct Hcase as [[-> Hall] | (pre & post & Heq & Hb & Hpre & Hpost)].
    + exists [], (JsMap.values rest). simpl.
      split; [reflexivity|]. split; [intros ? [] | assumption].
    + exists (v0 :: pre), post. rewrite Heq. simpl.
      split; [reflexivity|]. split; [|assumption].
      intros n' [<- | Hn']; [lia | auto].
Qed.

Lemma app_cons_cases {A : Type} (pre : list A) :
  forall pre' a b post post',
    pre ++ a :: post = pre' ++ b :: post' ->
    (pre = pre' /\ a = b /\ post = post') \/
    (In a pre' /\ In b post) \/
    (In b pre /\ In a post').
Proof.
  induction pre as [|x pre IH]; intros [|y pre'] a b post post' Heq;
    cbn [app] in Heq; injection Heq as Hhead Htail.
  - left. now subst.
  - right. left. subst. split; [now left|].
    apply in_app_iff. right. now left.
  - right. right. subst. split; [now left|].
    apply in_app_iff. right. now left.
  - subst y. destruct (IH _ _ _ _ _ Htail)
      as [(-> & -> & ->) | [[Ha Hb] | [Hb Ha]]].
    + now left.
    + right. left. split; [now right | exact Hb].
    + right. right. split; [now right | exact Ha].
Qed.

(** The rule leaves no choice: at most one node of an open set is the
    first inserted among those of least [f]. *)
Lemma firstLowest_unique (openSet : JsMap.t Pathfinding.PathNode)
    (a b : Pathfinding.PathNode) :
  firstLowest openSet a -> firstLowest openSet b -> a = b.
Proof.
  intros (pre & post & Hsplit & Hpre & Hpost)
         (pre' & post' & Hsplit' & Hpre' & Hpost').
  rewrite Hsplit in Hsplit'.
  destruct (app_cons_cases _ _ _ _ _ _ Hsplit')
    as [(_ & E & _) | [[Ha Hb] | [Hb Ha]]]; [exact E | |].
  - specialize (Hpre' _ Ha). specialize (Hpost _ Hb). lia.
  - specialize (Hpre _ Hb). specialize (Hpost' _ Ha). lia.
Qed.

Lemma firstLowest_nonempty (best : Pathfinding.PathNode) :
  ~ firstLowest JsMap.empty best.
Proof. intros ([|x pre] & post & Hsplit & _); discriminate. Qed.

(** Two runs under the rule from the same open and closed sets return the
    same route. *)
Lemma tieBreakRun_functional (road : Road.t) (goal : GridPos)
    (openSet : JsMap.t Pathfinding.PathNode) (closedSet : JsSet.t)
    (p : list GridPos) :
  tieBreakRun road goal openSet closedSet p ->
  forall q, tieBreakRun road goal openSet closedSet q -> p = q.
Proof.
  induction 1 as [closedSet
                 | openSet closedSet current Hpick Hgoal
                 | openSet closedSet current p Hpick Hgoal Hrest IH];
    intros q Hq.
  - inversion Hq as [? | ? ? c Hc Hk | ? ? c ? Hc Hk Hr]; subst;
      [reflexivity | |]; now apply firstLowest_nonempty in Hc.
  - inversion Hq as [? | ? ? c Hc Hk | ? ? c ? Hc Hk Hr]; subst.
    + now apply firstLowest_nonempty in Hpick.
    + now rewrite (firstLowest_unique _ _ _ Hpick Hc).
    + rewrite (firstLowest_unique _ _ _ Hpick Hc) in Hgoal. contradiction.
  - inversion Hq as [? | ? ? c Hc Hk | ? ? c ? Hc Hk Hr]; subst.
    + now apply firstLowest_nonempty in Hpick.
    + rewrite (firstLowest_unique _ _ _ Hpick Hc) in Hgoal. contradiction.
    + rewrite <- (firstLowest_unique _ _ _ Hpick Hc) in Hr. now apply IH.
Qed.

(** The loop of the source is a run under the rule. *)
Lemma search_run (road : Road.t) (goal : GridPos) (fuel : nat) :
  forall openSet closedSet p,
    Pathfinding.search fuel road goal openSet closedSet = Some p ->
    tieBreakRun road goal openSet closedSet p.
Proof.
  induction fuel as [|fuel IH]; intros openSet closedSet p Hp;
    [discriminate|].
  cbn [Pathfinding.search] in Hp.
  destruct openSet as [|e openSet'] eqn:Hopen.
  { cbn in Hp. injection Hp as <-. constructor. }
  rewrite <- Hopen in *.
  assert (Hsize : (0 <? JsMap.size openSet)%nat = true) by now rewrite Hopen.
  rewrite Hsize in Hp.
  pose proof (lowest_first_inserted openSet) as Hlow.
  destruct (Pathfinding.lowest openSet) as [current|];
    [|rewrite Hlow in Hopen; discriminate].
  destruct (String.eqb_spec (Pathfinding.key current) (cellKey goal))
    as [Hgoal | Hgoal].
  - injection Hp as <-. now apply run_reached.
  - apply run_expand with (current := current);
      [exact Hlow | exact Hgoal | now apply IH].
Qed.

(** C9. On a road reached by any history of calls, for cells within
    [coordLimit], [findPath] returns a path, and that path is the only
    one a run of the algorithm can return when ties among frontier nodes
    of equal [f] go to the first inserted: for a fixed construction
    history and fixed endpoints every run returns the identical path. *)
Theorem findPath_deterministic
    (ops : list RoadOp) (start goal : GridPos) :
  let r := buildRoad ops in
  opsInRange ops = true ->
  inRange start = true ->
  inRange goal = true ->
  exists p,
    Pathfinding.findPath r start goal = Some p /\
    forall q, findPathRun r start goal q <-> q = p.
Proof.
  intros r _ _ _.
  destruct (findPath_spec r start goal (buildRoad_invariant ops))
    as (p & Hp & _).
  exists p. split; [exact Hp|].
  unfold Pathfinding.findPath, Pathfinding.findPathWithin in Hp.
  unfold findPathRun.
  destruct (negb (Road.hasSegment start r) || negb (Road.hasSegment goal r)).
  { injection Hp as <-. tauto. }
  destruct (String.eqb (cellKey start) (cellKey goal)).
  { injection Hp as <-. tauto. }
  cbv zeta in *. apply search_run in Hp.
  intros q. split.
  - intros Hq. symmetry. exact (tieBreakRun_functional _ _ _ _ _ Hp q Hq).
  - intros ->. exact Hp.
Qed.

Lemma findPath_deterministic_witness :
  opsInRange ringOps = true /\
  exists p,
    Pathfinding.findPath (buildRoad ringOps) (0, 0) (2, 2) = Some p /\
    forall q, findPathRun (buildRoad ringOps) (0, 0) (2, 2) q <-> q = p.
Proof.
  split; [reflexivity|].
  exact (findPath_deterministic ringOps (0, 0) (2, 2)
           eq_refl eq_refl eq_refl).
Defined.

(** The qualifier on the history matters: the same ring drawn in the
    other direction holds the same cells, yet the router breaks the tie
    between its two equally short routes the other way. *)
Example findPath_depends_on_history :
  let clockwise := buildRoad ringOps in
  let counter :=
    buildRoad (map AddSegment
      [(0, 0); (0, 1); (0, 2); (1, 2); (2, 2); (2, 1); (2, 0); (1, 0)]) in
  (forall c, Road.hasSegment c clockwise = Road.hasSegment c counter) /\
  Pathfinding.findPath clockwise (0, 0) (2, 2) =
    Some [(0, 0); (1, 0); (2, 0); (2, 1); (2, 2)] /\
  Pathfinding.findPath counter (0, 0) (2, 2) =
    Some [(0, 0); (0, 1); (0, 2); (1, 2); (2, 2)].
Proof.
  split; [|split; reflexivity].
  intros c. unfold Road.hasSegment.
  apply eq_true_iff_eq. rewrite !jsmap_has_keys.
  vm_compute. tauto.
Qed.

(* ------------------------------------------------------------------ *)
(** ** Destination counters *)

Lemma runEvents_nonneg (events : list CounterEvent) :
  forall d, 0 <= Destination.waitingCars d ->
            0 <= Destination.waitingCars (runEvents d events).
Proof.
  unfold runEvents.
  induction events as [|e events IH]; intros d Hd; simpl; [assumption|].
  apply IH. destruct e; simpl; lia.
Qed.

(** C4, as the code has it.  Whatever events a new destination has seen,
    its counter is not negative; [addWaitingCar] raises it by exactly one;
    [removeWaitingCar] lowers it by exactly one when it is positive and
    leaves it at zero when it is zero. *)
Theorem waitingCars_clamped_unit_steps
    (p : GridPos) (c : Z) (events : list CounterEvent) :
  let d := runEvents (Destination.create p c) events in
  0 <= Destination.waitingCars d /\
  Destination.waitingCars (Destination.addWaitingCar d) =
    Destination.waitingCars d + 1 /\
  Destination.waitingCars (Destination.removeWaitingCar d) =
    (if 0 <? Destination.waitingCars d
     then Destination.waitingCars d - 1
     else 0) /\
  0 <= Destination.waitingCars (Destination.removeWaitingCar d).
Proof.
  intros d.
  assert (Hd : 0 <= Destination.waitingCars d)
    by (apply runEvents_nonneg; simpl; lia).
  split; [assumption|]. split; [reflexivity|]. simpl.
  destruct (Z.ltb_spec 0 (Destination.waitingCars d)); lia.
Qed.

(** C4 as stated fails: an arrival at a destination whose counter is zero
    changes it by 0, not by -1. *)
Lemma waitingCars_arrival_at_zero :
  ~ unitStep (Destination.create (4, 1) 0xff6b6b) CarArrived.
Proof. unfold unitStep. simpl. lia. Qed.

(* ------------------------------------------------------------------ *)
(** ** The game-over test *)

(** C5. [checkGameOver] answers [true] exactly when some destination of
    the list has at least [MAX_CARS_PER_DESTINATION] waiting cars, and
    [false] when every one is strictly below. *)
Theorem checkGameOver_threshold
    (cfg : GameConfig.t) (destinations : list Destination.t) :
  (GameStateManager.checkGameOver cfg destinations = true <->
   exists d, In d destinations /\
             GameConfig.MAX_CARS_PER_DESTINATION cfg
               <= Destination.getWaitingCars d) /\
  ((forall d, In d destinations ->
              Destination.getWaitingCars d
                < GameConfig.MAX_CARS_PER_DESTINATION cfg) ->
   GameStateManager.checkGameOver cfg destinations = false).
Proof.
  assert (Hiff : GameStateManager.checkGameOver cfg destinations = true <->
                 exists d, In d destinations /\
                           GameConfig.MAX_CARS_PER_DESTINATION cfg
                             <= Destination.getWaitingCars d).
  { induction destinations as [|d0 rest IH]; simpl.
    - split; [discriminate | intros (d & [] & _)].
    - destruct (Z.leb_spec (GameConfig.MAX_CARS_PER_DESTINATION cfg)
                           (Destination.getWaitingCars d0)) as [Hle | Hlt].
      + split; [|reflexivity]. intros _. exists d0. tauto.
      + rewrite IH. split.
        * intros (d & Hd & Hle). exists d. tauto.
        * intros (d & [<- | Hd] & Hle); [lia|]. exists d. tauto. }
  split; [assumption|].
  intros Hall. apply not_true_is_false. intros E.
  apply Hiff in E. destruct E as (d & Hd & Hle). specialize (Hall d Hd). lia.
Qed.

(* ------------------------------------------------------------------ *)
(** ** Vehicles *)

(** C6, as the code has it.  On a snap tick the car advances its path
    index by one and re-evaluates completion (it reports arrival and stops
    exactly when the new index reaches the end of the path); it does not
    move on that tick. *)
Theorem snap_tick_advances_in_place
    (cfg : GameConfig.t) (delta : float) (c : Car.t) :
  snapTick cfg c ->
  let reached := fst (Car.update cfg delta c) in
  let c' := snd (Car.update cfg delta c) in
  Car.currentPathIndex c' = S (Car.currentPathIndex c) /\
  reached = (List.length (Car.path c) <=? S (Car.currentPathIndex c))%nat /\
  Car.isMoving c' = negb reached /\
  Car.path c' = Car.path c /\
  Car.getPosition c' = Car.getPosition c.
Proof.
  intros (Hmov & Hidx & Hnear). unfold Car.distanceTo in Hnear.
  unfold Car.update. cbv zeta. rewrite Hmov. simpl negb. simpl orb.
  assert ((List.length (Car.path c) =? 0)%nat = false) as ->
    by (apply Nat.eqb_neq; lia).
  assert ((List.length (Car.path c) <=? Car.currentPathIndex c)%nat = false)
    as -> by (apply Nat.leb_gt; lia).
  rewrite Hnear. cbn [Car.atIndex Car.path Car.currentPathIndex].
  destruct (List.length (Car.path c) <=? S (Car.currentPathIndex c))%nat;
    cbn; rewrite ?Hmov; repeat split; reflexivity.
Qed.

Lemma snap_tick_advances_in_place_witness :
  snapTick GameConfig.original freshCar /\
  Car.currentPathIndex (snd (Car.update GameConfig.original 16 freshCar))
    = 1%nat /\
  Car.getPosition (snd (Car.update GameConfig.original 16 freshCar))
    = Car.getPosition freshCar.
Proof.
  assert (H : snapTick GameConfig.original freshCar).
  { split; [reflexivity|]. split; [vm_compute; lia | vm_compute; reflexivity]. }
  split; [exact H|].
  pose proof (snap_tick_advances_in_place GameConfig.original 16 freshCar H)
    as (Hi & _ & _ & _ & Hp).
  split; [exact Hi | exact Hp].
Defined.

(** C6 as stated fails: on its first tick a fresh car is within the snap
    threshold of its first waypoint, the next waypoint is a whole cell
    away and [speed * delta] is positive, yet the car does not move. *)
Lemma snap_tick_no_displacement :
  snapTick GameConfig.original freshCar /\
  PrimFloat.ltb 0 (Car.speed freshCar * 16 / 1000) = true /\
  Car.currentPathIndex (snd (Car.update GameConfig.original 16 freshCar))
    = 1%nat /\
  ~ movesThisTick GameConfig.original 16 freshCar.
Proof.
  split; [|split; [|split]].
  - split; [reflexivity|]. split; [vm_compute; lia | vm_compute; reflexivity].
  - vm_compute. reflexivity.
  - vm_compute. reflexivity.
  - unfold movesThisTick. intros H. apply H. vm_compute. reflexivity.
Qed.

Lemma update_arrived (cfg : GameConfig.t) (delta : float) (c : Car.t) :
  arrivedState c -> Car.update cfg delta c = (true, Car.stopped c).
Proof.
  intros (Hmov & Hpath & Hidx). unfold Car.update. rewrite Hmov.
  destruct (Car.path c) as [|w ws] eqn:Hp; [contradiction|].
  simpl negb. simpl orb. cbn [List.length Nat.eqb].
  apply Nat.leb_le in Hidx. cbn [List.length] in Hidx. now rewrite Hidx.
Qed.

Lemma update_idle (cfg : GameConfig.t) (delta : float) (c : Car.t) :
  Car.isMoving c = false \/ Car.path c = [] ->
  Car.update cfg delta c = (false, c).
Proof.
  intros [Hmov | Hpath]; unfold Car.update.
  - now rewrite Hmov.
  - rewrite Hpath. simpl. now rewrite orb_true_r.
Qed.

(** A car that [update] leaves alive is not in the arrived state, and a
    car that [update] reports is stopped. *)
Lemma update_outcome (cfg : GameConfig.t) (delta : float) (c : Car.t) :
  if fst (Car.update cfg delta c)
  then Car.isMoving (snd (Car.update cfg delta c)) = false
  else ~ arrivedState (snd (Car.update cfg delta c)).
Proof.
  unfold Car.update. cbv zeta.
  destruct (Car.isMoving c) eqn:Hmov; simpl negb; simpl orb.
  2:{ unfold arrivedState. cbn. intros (H & _). congruence. }
  destruct (Nat.eqb_spec (List.length (Car.path c)) 0) as [Hz | Hnz].
  { unfold arrivedState. cbn. intros (_ & Hp & _). apply Hp.
    now apply length_zero_iff_nil. }
  destruct (Nat.leb_spec (List.length (Car.path c)) (Car.currentPathIndex c))
    as [Hle | Hgt]; [reflexivity|].
  destruct (PrimFloat.ltb _ 3).
  - cbn [Car.atIndex Car.path Car.currentPathIndex].
    destruct (Nat.leb_spec (List.length (Car.path c))
                           (S (Car.currentPathIndex c))) as [Hle | Hgt'].
    + reflexivity.
    + unfold arrivedState. cbn. intros (_ & _ & H). lia.
  - unfold arrivedState. cbn. intros (_ & _ & H). lia.
Qed.

Lemma update_reported_once (cfg : GameConfig.t) (delta delta' : float)
    (c : Car.t) :
  fst (Car.update cfg delta c) = true ->
  Car.update cfg delta' (snd (Car.update cfg delta c)) =
  (false, snd (Car.update cfg delta c)).
Proof.
  intros H. pose proof (update_outcome cfg delta c) as Ho. rewrite H in Ho.
  apply update_idle. now left.
Qed.

Lemma release_lower_bound (car : Car.t) (destinations : list Destination.t) :
  totalWaiting destinations - 1
    <= totalWaiting (TrafficManager.release car destinations).
Proof.
  unfold TrafficManager.release.
  destruct (Car.targetDestination car) as [target|]; [|lia].
  induction destinations as [|d rest IH]; simpl; [lia|].
  destruct (TrafficManager.atTarget target d); simpl; lia.
Qed.

Lemma traffic_update_survivors (cfg : GameConfig.t) (delta : float)
    (cars : list Car.t) :
  forall destinations,
    fst (TrafficManager.update cfg delta cars destinations) =
    map (fun c => snd (Car.update cfg delta c))
        (filter (fun c => negb (fst (Car.update cfg delta c))) cars) /\
    totalWaiting destinations - Z.of_nat (arrivals cfg delta cars)
      <= totalWaiting (snd (TrafficManager.update cfg delta cars destinations)).
Proof.
  unfold arrivals.
  induction cars as [|car rest IH]; intros destinations; simpl.
  - split; [reflexivity | lia].
  - destruct (IH destinations) as [Hs Hw].
    destruct (TrafficManager.update cfg delta rest destinations)
      as [rest' destinations1].
    destruct (Car.update cfg delta car) as [reached car'] eqn:Hu.
    cbn [fst snd] in *.
    destruct reached; simpl; rewrite ?Hu; cbn [fst snd]; split.
    + assumption.
    + pose proof (release_lower_bound car' destinations1). lia.
    + now rewrite Hs.
    + assumption.
Qed.

(** C7, as the code has it.  In one pass of [TrafficManager.update]:
    a moving car with a non-empty path whose index has reached the end of
    the path is reported as arrived and stopped; a car that is not moving
    or whose path is empty is left alone and stays live; the survivors are
    exactly the cars that did not report, none of them in the arrived
    state; each reported car is dropped from the list and lowers the
    counters by one at most; a reported car would not report again. *)
Theorem traffic_update_retires_arrived
    (cfg : GameConfig.t) (delta : float)
    (cars : list Car.t) (destinations : list Destination.t) :
  let cars' := fst (TrafficManager.update cfg delta cars destinations) in
  let destinations' :=
    snd (TrafficManager.update cfg delta cars destinations) in
  (forall c, In c cars -> arrivedState c ->
             Car.update cfg delta c = (true, Car.stopped c)) /\
  (forall c, In c cars -> Car.isMoving c = false \/ Car.path c = [] ->
             Car.update cfg delta c = (false, c) /\ In c cars') /\
  cars' = map (fun c => snd (Car.update cfg delta c))
              (filter (fun c => negb (fst (Car.update cfg delta c))) cars) /\
  (forall c', In c' cars' -> ~ arrivedState c') /\
  (List.length cars' + arrivals cfg delta cars = List.length cars)%nat /\
  totalWaiting destinations - Z.of_nat (arrivals cfg delta cars)
    <= totalWaiting destinations' /\
  (forall c delta', fst (Car.update cfg delta c) = true ->
     Car.update cfg delta' (snd (Car.update cfg delta c)) =
     (false, snd (Car.update cfg delta c))).
Proof.
  intros cars' destinations'.
  destruct (traffic_update_survivors cfg delta cars destinations) as [Hs Hw].
  fold cars' in Hs. fold destinations' in Hw.
  split; [intros c _; apply update_arrived|].
  split.
  { intros c Hc Hidle. pose proof (update_idle cfg delta c Hidle) as Hu.
    split; [assumption|]. rewrite Hs. apply in_map_iff. exists c.
    rewrite Hu. split; [reflexivity|]. apply filter_In. rewrite Hu. auto. }
  split; [assumption|]. split.
  { intros c' Hc'. rewrite Hs in Hc'. apply in_map_iff in Hc'.
    destruct Hc' as (c & <- & Hc). apply filter_In in Hc.
    destruct Hc as [_ Hf]. apply negb_true_iff in Hf.
    pose proof (update_outcome cfg delta c) as Ho. now rewrite Hf in Ho. }
  split.
  { rewrite Hs, length_map. unfold arrivals. clear.
    induction cars as [|c rest IH]; simpl; [reflexivity|].
    destruct (fst (Car.update cfg delta c)); simpl; lia. }
  split; [assumption|].
  intros c delta'. apply update_reported_once.
Qed.

(** C7 as stated fails for a car whose path is empty: its index (0) is
    not below the length of its path (0), yet the tick neither retires it
    nor touches its destination's counter. *)
Lemma idle_car_survives_tick :
  let destinations :=
    [Destination.addWaitingCar (Destination.create (4, 1) 0xff6b6b)] in
  (List.length (Car.path idleCar) <= Car.currentPathIndex idleCar)%nat /\
  Car.update GameConfig.original 16 idleCar = (false, idleCar) /\
  TrafficManager.update GameConfig.original 16 [idleCar] destinations =
  ([idleCar], destinations).
Proof.
  cbv zeta. split; [vm_compute; lia|]. split; reflexivity.
Qed.

(* ------------------------------------------------------------------ *)
(** ** Building placement *)

Lemma manhattan_sym (a b : GridPos) :
  SpawnManager.manhattan a b = SpawnManager.manhattan b a.
Proof. unfold SpawnManager.manhattan. lia. Qed.

Lemma pairwiseApart_app (l1 l2 : list GridPos) :
  pairwiseApart (l1 ++ l2) <->
  pairwiseApart l1 /\ pairwiseApart l2 /\
  forall a b, In a l1 -> In b l2 -> 3 <= SpawnManager.manhattan a b.
Proof.
  induction l1 as [|a l1 IH]; simpl.
  - intuition.
  - rewrite IH. split.
    + intros (Ha & H1 & H2 & Hx). repeat split; try assumption.
      * intros b Hb. apply Ha, in_app_iff. now left.
      * intros a' b [<- | Ha'] Hb; [|auto]. apply Ha, in_app_iff. now right.
    + intros ((Ha & H1) & H2 & Hx). repeat split; try assumption.
      * intros b Hb. apply in_app_iff in Hb. destruct Hb; auto.
      * intros a' b Ha' Hb. auto.
Qed.

Lemma pairwiseApart_spaced (cells : list GridPos) :
  pairwiseApart cells -> spaced cells.
Proof.
  unfold spaced. induction cells as [|c cells IH]; intros Hp i j a b Hij Ha Hb.
  - destruct i; discriminate.
  - destruct Hp as [Hc Hrest].
    destruct i as [|i], j as [|j]; simpl in Ha, Hb.
    + congruence.
    + injection Ha as <-. apply Hc. eapply nth_error_In; eassumption.
    + injection Hb as <-. rewrite manhattan_sym. apply Hc.
      eapply nth_error_In; eassumption.
    + apply (IH Hrest i j); auto.
Qed.

(** A cell that passes [isValidSpawnPosition] is off the road and three
    steps or more from every building. *)
Lemma isValidSpawnPosition_sound (road : Road.t) (st : SpawnManager.t)
    (p : GridPos) :
  SpawnManager.isValidSpawnPosition road st p = true ->
  Road.hasSegment p road = false /\
  forall b, In b (SpawnManager.buildings st) ->
            3 <= SpawnManager.manhattan b p.
Proof.
  unfold SpawnManager.isValidSpawnPosition.
  destruct (Road.hasSegment p road); [discriminate|].
  destruct (existsb _ (SpawnManager.houses st)) eqn:Hh; [discriminate|].
  destruct (existsb _ (SpawnManager.destinations st)) eqn:Hd; [discriminate|].
  intros _. split; [reflexivity|].
  intros b Hb. unfold SpawnManager.buildings in Hb.
  apply in_app_iff in Hb. destruct Hb as [Hb | Hb];
    apply in_map_iff in Hb; destruct Hb as (x & <- & Hx).
  - rewrite <- not_true_iff_false, existsb_exists in Hh.
    destruct (Z.ltb_spec (SpawnManager.manhattan (House.getGridPosition x) p) 3);
      [|assumption].
    exfalso. apply Hh. exists x. split; [assumption|]. now apply Z.ltb_lt.
  - rewrite <- not_true_iff_false, existsb_exists in Hd.
    destruct (Z.ltb_spec
                (SpawnManager.manhattan (Destination.getGridPosition x) p) 3);
      [|assumption].
    exfalso. apply Hd. exists x. split; [assumption|]. now apply Z.ltb_lt.
Qed.

Lemma tryPositions_spec (random : nat -> float) (cfg : GameConfig.t)
    (road : Road.t) (st : SpawnManager.t) (attempts : nat) :
  forall i,
    match SpawnManager.tryPositions attempts random cfg road st i with
    | (None, i') =>
        i' = (i + 2 * attempts)%nat /\
        forall k, (k < attempts)%nat ->
          SpawnManager.isValidSpawnPosition road st
            (candidate random cfg (i + 2 * k)) = false
    | (Some p, i') =>
        exists k, (k < attempts)%nat /\
          i' = (i + 2 * k + 2)%nat /\
          p = candidate random cfg (i + 2 * k) /\
          SpawnManager.isValidSpawnPosition road st p = true /\
          forall j, (j < k)%nat ->
            SpawnManager.isValidSpawnPosition road st
              (candidate random cfg (i + 2 * j)) = false
    end.
Proof.
  induction attempts as [|attempts IH]; intros i;
    cbn [SpawnManager.tryPositions].
  - split; [lia | intros k Hk; lia].
  - fold (candidate random cfg i).
    destruct (SpawnManager.isValidSpawnPosition road st (candidate random cfg i))
      eqn:Hv.
    + exists 0%nat. replace (i + 2 * 0)%nat with i by lia.
      split; [lia|]. split; [lia|]. split; [reflexivity|].
      split; [assumption|]. intros j Hj. lia.
    + specialize (IH (S (S i))).
      destruct (SpawnManager.tryPositions attempts random cfg road st (S (S i)))
        as [[p|] i'].
      * destruct IH as (k & Hk & Hi' & Hp & Hvalid & Hbefore).
        exists (S k). replace (i + 2 * S k)%nat with (S (S i) + 2 * k)%nat by lia.
        split; [lia|]. split; [lia|]. split; [assumption|].
        split; [assumption|].
        intros [|j] Hj.
        -- now replace (i + 2 * 0)%nat with i by lia.
        -- replace (i + 2 * S j)%nat with (S (S i) + 2 * j)%nat by lia.
           apply Hbefore. lia.
      * destruct IH as (Hi' & Hall). split; [lia|].
        intros [|k] Hk.
        -- now replace (i + 2 * 0)%nat with i by lia.
        -- replace (i + 2 * S k)%nat with (S (S i) + 2 * k)%nat by lia.
           apply Hall. lia.
Qed.

Lemma spawnHouse_outcome random cfg road st :
  let st' := SpawnManager.spawnHouse random cfg road st in
  spawnOutcome random cfg road st st' /\
  (SpawnManager.draws st' <=
   SpawnManager.draws st + 2 * SpawnManager.maxAttempts + 3)%nat.
Proof.
  unfold SpawnManager.spawnHouse, SpawnManager.findValidSpawnPosition.
  pose proof (tryPositions_spec random cfg road st SpawnManager.maxAttempts
                (SpawnManager.draws st)) as H.
  destruct (SpawnManager.tryPositions _ _ _ _ _ _) as [[p|] i'].
  - destruct H as (k & Hk & -> & Hp & Hv & Hb). cbn zeta. split.
    + right. exists k, p.
      split; [assumption|]. split; [assumption|]. split; [assumption|].
      split; [assumption|].
      left. eexists. split; reflexivity.
    + cbn [SpawnManager.draws]. lia.
  - destruct H as (-> & Hall). cbn zeta. split.
    + left. split; [reflexivity|]. split; [reflexivity|]. assumption.
    + cbn [SpawnManager.draws]. lia.
Qed.

Lemma spawnDestination_outcome random cfg road st :
  let st' := SpawnManager.spawnDestination random cfg road st in
  spawnOutcome random cfg road st st' /\
  (SpawnManager.draws st' <=
   SpawnManager.draws st + 2 * SpawnManager.maxAttempts + 3)%nat.
Proof.
  unfold SpawnManager.spawnDestination, SpawnManager.findValidSpawnPosition.
  pose proof (tryPositions_spec random cfg road st SpawnManager.maxAttempts
                (SpawnManager.draws st)) as H.
  destruct (SpawnManager.tryPositions _ _ _ _ _ _) as [[p|] i'].
  - destruct H as (k & Hk & -> & Hp & Hv & Hb). cbn zeta. split.
    + right. exists k, p.
      split; [assumption|]. split; [assumption|]. split; [assumption|].
      split; [assumption|].
      right. eexists. split; reflexivity.
    + cbn [SpawnManager.draws]. destruct (_ && _); lia.
  - destruct H as (-> & Hall). cbn zeta. split.
    + left. split; [reflexivity|]. split; [reflexivity|]. assumption.
    + cbn [SpawnManager.draws]. lia.
Qed.

Lemma applySpawn_outcome random cfg st call :
  let st' := applySpawn random cfg st call in
  spawnOutcome random cfg (roadOf call) st st' /\
  (SpawnManager.draws st' <=
   SpawnManager.draws st + 2 * SpawnManager.maxAttempts + 3)%nat.
Proof.
  destruct call as [road | road | road]; simpl.
  - apply spawnHouse_outcome.
  - apply spawnDestination_outcome.
  - unfold SpawnManager.spawnBuilding.
    destruct (_ <=? _)%nat;
      [apply spawnHouse_outcome | apply spawnDestination_outcome].
Qed.

Lemma house_create_position (p : GridPos) (c : Z) :
  House.getGridPosition (House.create p c) = p.
Proof. now destruct p. Qed.

Lemma destination_create_position (p : GridPos) (c : Z) :
  Destination.getGridPosition (Destination.create p c) = p.
Proof. now destruct p. Qed.

Lemma spawnOutcome_apart random cfg road st st' :
  spawnOutcome random cfg road st st' ->
  pairwiseApart (SpawnManager.buildings st) ->
  pairwiseApart (SpawnManager.buildings st').
Proof.
  unfold SpawnManager.buildings.
  intros [(Hh & Hd & _) | (k & p & _ & _ & Hv & _ & Hnew)] Hap.
  - now rewrite Hh, Hd.
  - apply isValidSpawnPosition_sound in Hv. destruct Hv as [_ Hfar].
    unfold SpawnManager.buildings in Hfar.
    apply pairwiseApart_app in Hap. destruct Hap as (H1 & H2 & Hx).
    assert (Hone : pairwiseApart [p]) by (simpl; tauto).
    destruct Hnew as [(c & -> & ->) | (c & -> & ->)];
      rewrite map_app; simpl map;
      rewrite ?house_create_position, ?destination_create_position.
    + apply pairwiseApart_app. split; [|split; [assumption|]].
      * apply pairwiseApart_app. split; [assumption|]. split; [assumption|].
        intros a b Ha [<- | []]. apply Hfar, in_app_iff. now left.
      * intros a b Ha Hb. apply in_app_iff in Ha.
        destruct Ha as [Ha | [<- | []]]; [auto|].
        rewrite manhattan_sym. apply Hfar, in_app_iff. now right.
    + apply pairwiseApart_app. split; [assumption|]. split.
      * apply pairwiseApart_app. split; [assumption|]. split; [assumption|].
        intros a b Ha [<- | []]. apply Hfar, in_app_iff. now right.
      * intros a b Ha Hb. apply in_app_iff in Hb.
        destruct Hb as [Hb | [<- | []]]; [auto|].
        apply Hfar, in_app_iff. now left.
Qed.

Lemma runSpawns_apart random cfg (calls : list SpawnCall) :
  pairwiseApart (SpawnManager.buildings (runSpawns random cfg calls)).
Proof.
  unfold runSpawns.
  assert (H0 : pairwiseApart (SpawnManager.buildings SpawnManager.create))
    by exact I.
  revert H0. generalize SpawnManager.create.
  induction calls as [|call calls IH]; intros st Hst; simpl; [assumption|].
  apply IH. eapply spawnOutcome_apart; [|eassumption].
  apply applySpawn_outcome.
Qed.

(** C8. After any sequence of spawn calls, made against whatever roads
    exist at the time and whatever the random draws are, every two
    buildings are at Manhattan distance 3 or more.  Each further call
    samples at most [maxAttempts = 50] cells: it either places nothing,
    all 50 having been rejected, or places one building on the first
    sampled cell that is off the road of that moment and 3 or more away
    from every building already placed. *)
Theorem placement_keeps_spacing
    (random : nat -> float) (cfg : GameConfig.t) (calls : list SpawnCall) :
  let st := runSpawns random cfg calls in
  spaced (SpawnManager.buildings st) /\
  forall call,
    let st' := applySpawn random cfg st call in
    spawnOutcome random cfg (roadOf call) st st' /\
    (SpawnManager.draws st' <=
     SpawnManager.draws st + 2 * SpawnManager.maxAttempts + 3)%nat /\
    (forall p, In p (SpawnManager.buildings st') ->
               In p (SpawnManager.buildings st) \/
               (Road.hasSegment p (roadOf call) = false /\
                forall b, In b (SpawnManager.buildings st) ->
                          3 <= SpawnManager.manhattan b p)) /\
    spaced (SpawnManager.buildings st').
Proof.
  intros st. split; [apply pairwiseApart_spaced, runSpawns_apart|].
  intros call st'.
  destruct (applySpawn_outcome random cfg st call) as [Hout Hdraws].
  fold st' in Hout, Hdraws.
  split; [assumption|]. split; [assumption|]. split.
  - intros p Hp. unfold SpawnManager.buildings in *.
    destruct Hout as [(Hh & Hd & _) | (k & q & _ & _ & Hv & _ & Hnew)].
    + left. now rewrite <- Hh, <- Hd.
    + apply isValidSpawnPosition_sound in Hv.
      destruct Hnew as [(c & Hh & Hd) | (c & Hd & Hh)];
        rewrite Hh, Hd, map_app in Hp; simpl map in Hp;
        rewrite ?house_create_position, ?destination_create_position in Hp;
        rewrite !in_app_iff in Hp; simpl in Hp; rewrite in_app_iff;
        destruct Hp as [Hp | Hp]; try tauto;
        destruct Hp as [Hp | Hp]; try tauto;
        try (subst q; right; exact Hv);
        destruct Hp as [<- | []]; right; exact Hv.
  - apply pairwiseApart_spaced.
    apply (spawnOutcome_apart random cfg (roadOf call) st st' Hout).
    apply runSpawns_apart.
Qed.

(* ================================================================== *)
(** * Further properties of the code *)

(* ------------------------------------------------------------------ *)
(** ** Road: insertion, removal and lookup *)

Lemma jsmap_size_keys {V : Type} (m : JsMap.t V) :
  JsMap.size m = List.length (JsMap.keys m).
Proof. unfold JsMap.size, JsMap.keys. now rewrite length_map. Qed.

Lemma jsmap_size_delete {V : Type} (k : string) (m : JsMap.t V) :
  NoDup (JsMap.keys m) -> In k (JsMap.keys m) ->
  S (JsMap.size (JsMap.delete k m)) = JsMap.size m.
Proof.
  unfold JsMap.size, JsMap.delete.
  induction m as [|[k0 v0] m IH]; simpl; [tauto|].
  intros Hnd Hin. inversion Hnd as [|? ? Hnot Hnd']; subst.
  destruct (String.eqb_spec k k0) as [->|Hne]; simpl.
  - f_equal. clear IH Hin Hnd Hnd'.
    induction m as [|[k1 v1] m IH]; [reflexivity|].
    simpl in *. destruct (String.eqb_spec k0 k1) as [->|Hne]; [tauto|].
    simpl. f_equal. apply IH. tauto.
  - f_equal. apply IH; [assumption|]. destruct Hin; [congruence | assumption].
Qed.

(** [addSegment] answers whether the cell was free; afterwards the cell is
    occupied and no other cell has changed state; on an occupied cell the
    road is left as it is, on a free one it grows by one segment. *)
Theorem addSegment_lookup (ops : list RoadOp) (p : GridPos) :
  let r := buildRoad ops in
  let r' := snd (Road.addSegment p r) in
  fst (Road.addSegment p r) = negb (Road.hasSegment p r) /\
  (forall c, Road.hasSegment c r' = true <->
             c = p \/ Road.hasSegment c r = true) /\
  (Road.hasSegment p r = true -> r' = r) /\
  (Road.hasSegment p r = false ->
   List.length (Road.getAllSegments r')
   = S (List.length (Road.getAllSegments r))).
Proof.
  intros r r'. unfold r'. clear r'.
  destruct (Road.hasSegment p r) eqn:Hocc.
  - rewrite addSegment_occupied by assumption. simpl.
    split; [reflexivity|]. split; [|split; [reflexivity | discriminate]].
    intros c. split; [tauto|]. intros [-> | H]; assumption.
  - destruct (addSegment_free p r Hocc) as (seg & m & -> & Hk & _).
    simpl. split; [reflexivity|]. split; [|split; [discriminate|]].
    + intros c. unfold Road.hasSegment. rewrite !jsmap_has_keys.
      unfold JsMap.keys. rewrite map_app, in_app_iff. fold (JsMap.keys m).
      rewrite Hk. simpl. split.
      * intros [H | [H | []]]; [tauto|]. left. now apply cellKey_inj.
      * intros [-> | H]; tauto.
    + intros _. unfold Road.getAllSegments, JsMap.values.
      rewrite !length_map, length_app. simpl.
      rewrite <- (length_map fst m), <- (length_map fst r).
      fold (JsMap.keys m). fold (JsMap.keys r). rewrite Hk. lia.
Qed.

(** [removeSegment] answers whether the cell was occupied; afterwards the
    cell is free and no other cell has changed state; on a free cell the
    road is left as it is, on an occupied one it shrinks by one segment,
    and a second removal is refused. *)
Theorem removeSegment_lookup (ops : list RoadOp) (p : GridPos) :
  let r := buildRoad ops in
  let r' := snd (Road.removeSegment p r) in
  fst (Road.removeSegment p r) = Road.hasSegment p r /\
  (forall c, Road.hasSegment c r' = true <->
             c <> p /\ Road.hasSegment c r = true) /\
  (Road.hasSegment p r = false -> r' = r) /\
  (Road.hasSegment p r = true ->
   S (List.length (Road.getAllSegments r'))
   = List.length (Road.getAllSegments r)) /\
  Road.removeSegment p r' = (false, r').
Proof.
  intros r r'.
  pose proof (buildRoad_invariant ops) as [Hnd _]. fold r in Hnd.
  assert (Hlook : forall c, Road.hasSegment c r' = true <->
                            c <> p /\ Road.hasSegment c r = true).
  { intros c. unfold r', Road.removeSegment, Road.hasSegment.
    destruct (JsMap.get (cellKey p) r) as [seg|] eqn:Hseg; simpl.
    - destruct (disconnect_fold (cellKey p) (Road.neighbors seg) r) as [Hk _].
      rewrite jsmap_has_delete, andb_true_iff, negb_true_iff, String.eqb_neq.
      rewrite (jsmap_has_same_keys _ _ r Hk). split.
      + intros [Hne H]. split; [|assumption]. intros ->. now apply Hne.
      + intros [Hne H]. split; [|assumption]. intros He. apply Hne.
        now apply cellKey_inj.
    - split; [|tauto]. intros H. split; [|assumption]. intros ->.
      apply jsmap_has_get in H. destruct H as [v H]. congruence. }
  assert (Hgone : Road.hasSegment p r' = false).
  { apply not_true_is_false. intros H. apply Hlook in H. tauto. }
  split; [|split; [assumption|]].
  { unfold Road.removeSegment, Road.hasSegment, JsMap.has.
    now destruct (JsMap.get (cellKey p) r). }
  split; [|split].
  - unfold r', Road.removeSegment, Road.hasSegment, JsMap.has.
    now destruct (JsMap.get (cellKey p) r).
  - intros Hocc. unfold r', Road.removeSegment.
    apply jsmap_has_get in Hocc. destruct Hocc as [seg Hseg]. rewrite Hseg.
    simpl. unfold Road.getAllSegments, JsMap.values. rewrite !length_map.
    destruct (disconnect_fold (cellKey p) (Road.neighbors seg) r) as [Hk _].
    change (List.length r) with (JsMap.size r).
    rewrite (jsmap_size_keys r), <- Hk, <- jsmap_size_keys.
    apply jsmap_size_delete.
    + now rewrite Hk.
    + rewrite Hk. apply jsmap_has_keys, jsmap_has_get. eauto.
  - unfold Road.removeSegment at 1. unfold Road.hasSegment, JsMap.has in Hgone.
    now destruct (JsMap.get (cellKey p) r').
Qed.

(* ------------------------------------------------------------------ *)
(** ** Road: the graph depends on the occupied cells only *)

Lemma same_cells_roadPath (r r' : Road.t) (a e : GridPos) (p : list GridPos) :
  (forall c, Road.hasSegment c r = Road.hasSegment c r') ->
  roadPath r a e p -> roadPath r' a e p.
Proof.
  intros Hsame. induction 1 as [a Ha | a b e p Ha Hadj Hp IH].
  - constructor. now rewrite <- Hsame.
  - econstructor; [now rewrite <- Hsame | eassumption | assumption].
Qed.

(** Two histories, on cells within [coordLimit], that leave the same
    cells occupied leave the same neighbour sets (as sets), and the router
    finds routes of the same length on both, though not always the same
    route. *)
Theorem same_cells_same_routes (ops ops' : list RoadOp) :
  let r := buildRoad ops in
  let r' := buildRoad ops' in
  opsInRange ops = true ->
  opsInRange ops' = true ->
  (forall c, Road.hasSegment c r = Road.hasSegment c r') ->
  (forall a k, In k (neighborKeys r a) <-> In k (neighborKeys r' a)) /\
  (forall start goal,
      inRange start = true -> inRange goal = true ->
      exists p p',
        Pathfinding.findPath r start goal = Some p /\
        Pathfinding.findPath r' start goal = Some p' /\
        List.length p = List.length p').
Proof.
  intros r r' _ _ Hsame.
  pose proof (buildRoad_invariant ops) as Hr. fold r in Hr.
  pose proof (buildRoad_invariant ops') as Hr'. fold r' in Hr'.
  split.
  - intros a k. rewrite !neighborKeys_spec by assumption.
    split; intros (b & ? & ? & Ha & Hb); exists b;
      [rewrite <- !Hsame | rewrite !Hsame]; tauto.
  - intros start goal _ _.
    destruct (findPath_spec r start goal Hr) as (p & Hp & Hfree & Hocc).
    destruct (findPath_spec r' start goal Hr') as (p' & Hp' & Hfree' & Hocc').
    exists p, p'. split; [assumption|]. split; [assumption|].
    destruct (Road.hasSegment start r) eqn:Hs.
    2:{ rewrite Hfree by now left. rewrite Hfree'; [reflexivity|].
        left. now rewrite <- Hsame. }
    destruct (Road.hasSegment goal r) eqn:Hg.
    2:{ rewrite Hfree by now right. rewrite Hfree'; [reflexivity|].
        right. now rewrite <- Hsame. }
    destruct (Hocc eq_refl eq_refl) as [_ Hcase].
    destruct Hocc' as [_ Hcase']; [now rewrite <- Hsame ..|].
    assert (Hsym : forall c, Road.hasSegment c r' = Road.hasSegment c r)
      by (intros c; symmetry; apply Hsame).
    destruct Hcase as [[-> Hnone] | [Hpath Hmin]];
      destruct Hcase' as [[-> Hnone'] | [Hpath' Hmin']].
    + reflexivity.
    + exfalso. apply (Hnone (edgeCount p')).
      apply roadPath_walk; [assumption|].
      now apply (same_cells_roadPath r' r).
    + exfalso. apply (Hnone' (edgeCount p)).
      apply roadPath_walk; [assumption|].
      now apply (same_cells_roadPath r r').
    + assert (H1 : edgeCount p <= edgeCount p').
      { apply Hmin. apply roadPath_walk; [assumption|].
        now apply (same_cells_roadPath r' r). }
      assert (H2 : edgeCount p' <= edgeCount p).
      { apply Hmin'. apply roadPath_walk; [assumption|].
        now apply (same_cells_roadPath r r'). }
      unfold edgeCount in *. lia.
Qed.

Lemma same_cells_same_routes_witness :
  opsInRange ringOps = true /\
  opsInRange counterRingOps = true /\
  (forall c, Road.hasSegment c (buildRoad ringOps)
             = Road.hasSegment c (buildRoad counterRingOps)) /\
  exists p p',
    Pathfinding.findPath (buildRoad ringOps) (0, 0) (2, 2) = Some p /\
    Pathfinding.findPath (buildRoad counterRingOps) (0, 0) (2, 2) = Some p' /\
    List.length p = List.length p'.
Proof.
  assert (H : forall c, Road.hasSegment c (buildRoad ringOps)
                        = Road.hasSegment c (buildRoad counterRingOps)).
  { intros c. unfold Road.hasSegment. apply eq_true_iff_eq.
    rewrite !jsmap_has_keys. vm_compute. tauto. }
  split; [reflexivity|]. split; [reflexivity|]. split; [exact H|].
  exact (proj2 (same_cells_same_routes ringOps counterRingOps
                  eq_refl eq_refl H) (0, 0) (2, 2) eq_refl eq_refl).
Defined.

(* ------------------------------------------------------------------ *)
(** ** Road: the adjacency list *)

Lemma getGraph_fold (segments : Road.t) :
  forall graph,
    NoDup (JsMap.keys graph ++ JsMap.keys segments) ->
    (forall k s, In (k, s) segments -> k = cellKey (Road.pos s)) ->
    fold_left
      (fun graph segment =>
         JsMap.set (cellKey (Road.pos segment)) (Road.neighbors segment) graph)
      (JsMap.values segments) graph
    = graph ++ map (fun e => (fst e, Road.neighbors (snd e))) segments.
Proof.
  induction segments as [|[k s] segments IH]; intros graph Hnd Hkeys; simpl.
  - now rewrite app_nil_r.
  - assert (Hk : k = cellKey (Road.pos s)) by (apply Hkeys; now left).
    rewrite <- Hk.
    assert (Hfree : JsMap.has k graph = false).
    { apply not_true_is_false. intros H. apply jsmap_has_keys in H.
      simpl in Hnd. apply NoDup_remove_2 in Hnd. apply Hnd.
      apply in_app_iff. now left. }
    rewrite jsmap_set_new by assumption.
    rewrite IH.
    + now rewrite <- app_assoc.
    + unfold JsMap.keys in *. rewrite map_app. simpl.
      rewrite <- app_assoc. simpl. exact Hnd.
    + intros k' s' Hin. apply Hkeys. now right.
Qed.

(** On a road reached by any history of calls, [getGraph] has one entry
    per occupied cell, in insertion order, holding that cell's neighbour
    keys; a free cell has no entry; and the lists are symmetric: [b]'s key
    is in [a]'s list exactly when [a]'s key is in [b]'s. *)
Theorem getGraph_adjacency (ops : list RoadOp) :
  let r := buildRoad ops in
  let graph := Road.getGraph r in
  JsMap.keys graph = JsMap.keys r /\
  (forall a, JsMap.get (cellKey a) graph =
             if Road.hasSegment a r then Some (neighborKeys r a) else None) /\
  (forall a b la lb,
      JsMap.get (cellKey a) graph = Some la ->
      JsMap.get (cellKey b) graph = Some lb ->
      (In (cellKey b) la <-> In (cellKey a) lb)).
Proof.
  intros r graph.
  pose proof (buildRoad_invariant ops) as Hinv. fold r in Hinv.
  assert (Hgraph : graph = map (fun e => (fst e, Road.neighbors (snd e))) r).
  { unfold graph, Road.getGraph. rewrite getGraph_fold.
    - reflexivity.
    - apply Hinv.
    - intros k s Hin. destruct Hinv as [Hnd Hok].
      apply (Hok k s). now apply jsmap_In_get. }
  assert (Hget : forall k, JsMap.get k graph
                           = option_map Road.neighbors (JsMap.get k r)).
  { intros k. rewrite Hgraph. clear. induction r as [|[k0 s0] r IH].
    - reflexivity.
    - simpl. rewrite !jsmap_get_cons. destruct (String.eqb k k0); auto. }
  assert (Hcell : forall a, JsMap.get (cellKey a) graph =
             if Road.hasSegment a r then Some (neighborKeys r a) else None).
  { intros a. rewrite Hget. unfold Road.hasSegment, JsMap.has, neighborKeys.
    now destruct (JsMap.get (cellKey a) r). }
  split; [|split; [assumption|]].
  - rewrite Hgraph. unfold JsMap.keys. rewrite map_map. reflexivity.
  - intros a b la lb. rewrite !Hcell.
    destruct (Road.hasSegment a r) eqn:Ha; [|discriminate].
    destruct (Road.hasSegment b r) eqn:Hb; [|discriminate].
    intros [= <-] [= <-].
    rewrite !neighborKeys_spec by assumption. split.
    + intros (q & Hq & Hadj & _). apply cellKey_inj in Hq. subst q.
      exists a. repeat split; auto using adjacent4_sym.
    + intros (q & Hq & Hadj & _). apply cellKey_inj in Hq. subst q.
      exists b. repeat split; auto using adjacent4_sym.
Qed.

(* ------------------------------------------------------------------ *)
(** ** Pathfinding: the nearest road cell *)

Lemma nearer_from_some (position : GridPos) (maxDistance : Z)
    (segments : list Road.RoadSegment) :
  forall p0 d0,
    d0 <= maxDistance ->
    exists res,
      fst (fold_left (Pathfinding.nearer position maxDistance) segments
             (Some p0, Some d0)) = Some res /\
      ((res = p0 /\
        forall t, In t segments ->
                  d0 <= Pathfinding.distanceFrom position t) \/
       (exists pre s post,
          segments = pre ++ s :: post /\
          res = Road.pos s /\
          Pathfinding.distanceFrom position s < d0 /\
          (forall t, In t pre ->
             Pathfinding.distanceFrom position s
               < Pathfinding.distanceFrom position t) /\
          (forall t, In t post ->
             Pathfinding.distanceFrom position s
               <= Pathfinding.distanceFrom position t))).
Proof.
  induction segments as [|seg rest IH]; intros p0 d0 Hd0; simpl.
  - exists p0. split; [reflexivity|]. left. split; [reflexivity | intros ? []].
  - unfold Pathfinding.nearer at 2. cbn [snd].
    destruct (Z.ltb_spec (Pathfinding.distanceFrom position seg) d0)
      as [Hlt | Hge]; cbn [andb].
    + assert ((Pathfinding.distanceFrom position seg <=? maxDistance) = true)
        as -> by (apply Z.leb_le; lia).
      destruct (IH (Road.pos seg) (Pathfinding.distanceFrom position seg))
        as (res & Hres & Hcase); [lia|].
      exists res. split; [assumption|]. right.
      destruct Hcase as [[-> Hall] | (pre & s & post & -> & -> & Hs & Hpre & Hpost)].
      * exists [], seg, rest. simpl.
        split; [reflexivity|]. split; [reflexivity|]. split; [assumption|].
        split; [intros ? [] | assumption].
      * exists (seg :: pre), s, post. simpl.
        split; [reflexivity|]. split; [reflexivity|]. split; [lia|].
        split; [|assumption]. intros t [<- | Ht]; [lia | auto].
    + destruct (IH p0 d0 Hd0) as (res & Hres & Hcase).
      exists res. split; [assumption|].
      destruct Hcase as [[-> Hall] | (pre & s & post & -> & -> & Hs & Hpre & Hpost)].
      * left. split; [reflexivity|]. intros t [<- | Ht]; [lia | auto].
      * right. exists (seg :: pre), s, post. simpl.
        split; [reflexivity|]. split; [reflexivity|]. split; [assumption|].
        split; [|assumption]. intros t [<- | Ht]; [lia | auto].
Qed.

Lemma nearer_from_none (position : GridPos) (maxDistance : Z)
    (segments : list Road.RoadSegment) :
  match fst (fold_left (Pathfinding.nearer position maxDistance) segments
               (None, None)) with
  | None =>
      forall t, In t segments ->
                maxDistance < Pathfinding.distanceFrom position t
  | Some res =>
      exists pre s post,
        segments = pre ++ s :: post /\
        res = Road.pos s /\
        Pathfinding.distanceFrom position s <= maxDistance /\
        (forall t, In t pre ->
           Pathfinding.distanceFrom position s
             < Pathfinding.distanceFrom position t) /\
        (forall t, In t post ->
           Pathfinding.distanceFrom position s
             <= Pathfinding.distanceFrom position t)
  end.
Proof.
  induction segments as [|seg rest IH]; simpl.
  - intros ? [].
  - unfold Pathfinding.nearer at 2. cbn [snd andb].
    destruct (Z.leb_spec (Pathfinding.distanceFrom position seg) maxDistance)
      as [Hle | Hgt].
    + destruct (nearer_from_some position maxDistance rest (Road.pos seg)
                  (Pathfinding.distanceFrom position seg) Hle)
        as (res & -> & Hcase).
      destruct Hcase as [[-> Hall] | (pre & s & post & -> & -> & Hs & Hpre & Hpost)].
      * exists [], seg, rest. simpl.
        split; [reflexivity|]. split; [reflexivity|]. split; [assumption|].
        split; [intros ? [] | assumption].
      * exists (seg :: pre), s, post. simpl.
        split; [reflexivity|]. split; [reflexivity|]. split; [lia|].
        split; [|assumption]. intros t [<- | Ht]; [lia | auto].
    + destruct (fst (fold_left _ rest (None, None))) as [res|].
      * destruct IH as (pre & s & post & -> & -> & Hs & Hpre & Hpost).
        exists (seg :: pre), s, post. simpl.
        split; [reflexivity|]. split; [reflexivity|]. split; [assumption|].
        split; [|assumption]. intros t [<- | Ht]; [lia | auto].
      * intros t [<- | Ht]; [lia | auto].
Qed.

Lemma segment_of_cell (r : Road.t) (c : GridPos) :
  roadInvariant r -> Road.hasSegment c r = true ->
  exists s, In s (Road.getAllSegments r) /\ Road.pos s = c.
Proof.
  intros Hinv Hc. apply jsmap_has_get in Hc. destruct Hc as [s Hs].
  exists s. split.
  - apply jsmap_get_In in Hs. now apply (in_map snd) in Hs.
  - now apply (invariant_pos r c s).
Qed.

Lemma cell_of_segment (r : Road.t) (s : Road.RoadSegment) :
  roadInvariant r -> In s (Road.getAllSegments r) ->
  Road.hasSegment (Road.pos s) r = true.
Proof.
  intros [Hnd Hok] Hs. unfold Road.getAllSegments, JsMap.values in Hs.
  apply in_map_iff in Hs. destruct Hs as ([k s'] & <- & Hin). simpl.
  apply (jsmap_In_get _ _ _ Hnd) in Hin.
  destruct (Hok _ _ Hin) as (Hk & _). unfold Road.hasSegment.
  rewrite <- Hk. apply jsmap_has_get. eauto.
Qed.

Lemma distanceFrom_pos (position : GridPos) (s : Road.RoadSegment) :
  Pathfinding.distanceFrom position s
  = Pathfinding.heuristic (Road.pos s) position.
Proof. reflexivity. Qed.

(** On a road reached by any history of calls, for cells and a position
    within [coordLimit] and a [maxDistance] below [2 ^ 53],
    [findNearestRoad] answers [null] exactly when every occupied cell is
    farther than [maxDistance] (Manhattan); otherwise it answers an
    occupied cell within [maxDistance] that no occupied cell beats, and
    among equally close cells the one whose segment was inserted first. *)
Theorem findNearestRoad_closest
    (ops : list RoadOp) (position : GridPos) (maxDistance : Z) :
  let r := buildRoad ops in
  opsInRange ops = true ->
  inRange position = true ->
  Z.abs maxDistance < 2 ^ 53 ->
  match Pathfinding.findNearestRoad r position maxDistance with
  | None =>
      forall c, Road.hasSegment c r = true ->
                maxDistance < Pathfinding.heuristic c position
  | Some p =>
      Road.hasSegment p r = true /\
      Pathfinding.heuristic p position <= maxDistance /\
      (forall c, Road.hasSegment c r = true ->
         Pathfinding.heuristic p position
           <= Pathfinding.heuristic c position) /\
      exists pre s post,
        Road.getAllSegments r = pre ++ s :: post /\
        p = Road.pos s /\
        forall t, In t pre ->
          Pathfinding.heuristic p position
            < Pathfinding.heuristic (Road.pos t) position
  end.
Proof.
  intros r _ _ _. pose proof (buildRoad_invariant ops) as Hinv. fold r in Hinv.
  unfold Pathfinding.findNearestRoad.
  pose proof (nearer_from_none position maxDistance (Road.getAllSegments r))
    as H.
  destruct (fst (fold_left _ _ _)) as [p|].
  - destruct H as (pre & s & post & Hsplit & -> & Hs & Hpre & Hpost).
    rewrite distanceFrom_pos in Hs.
    split; [|split; [assumption|split]].
    + apply cell_of_segment; [assumption|]. rewrite Hsplit.
      apply in_app_iff. right. now left.
    + intros c Hc. destruct (segment_of_cell r c Hinv Hc) as (t & Ht & <-).
      rewrite Hsplit in Ht. apply in_app_iff in Ht.
      rewrite <- !distanceFrom_pos.
      destruct Ht as [Ht | [<- | Ht]]; [apply Hpre in Ht | | apply Hpost in Ht];
        lia.
    + exists pre, s, post. split; [assumption|]. split; [reflexivity|].
      intros t Ht. rewrite <- !distanceFrom_pos. now apply Hpre.
  - intros c Hc. destruct (segment_of_cell r c Hinv Hc) as (t & Ht & <-).
    rewrite <- distanceFrom_pos. now apply H.
Qed.

Lemma findNearestRoad_closest_witness :
  opsInRange corridorOps = true /\
  inRange (1, 2) = true /\
  Z.abs 3 < 2 ^ 53 /\
  Pathfinding.findNearestRoad (buildRoad corridorOps) (1, 2) 3
  = Some (1, 0) /\
  forall c, Road.hasSegment c (buildRoad corridorOps) = true ->
            Pathfinding.heuristic (1, 0) (1, 2)
            <= Pathfinding.heuristic c (1, 2).
Proof.
  assert (H3 : Z.abs 3 < 2 ^ 53) by (cbn; lia).
  split; [reflexivity|]. split; [reflexivity|]. split; [exact H3|].
  split; [reflexivity|].
  pose proof (findNearestRoad_closest corridorOps (1, 2) 3
                eq_refl eq_refl H3) as H.
  cbv zeta in H.
  change (Pathfinding.findNearestRoad (buildRoad corridorOps) (1, 2) 3)
    with (Some ((1, 0) : GridPos)) in H.
  exact (proj1 (proj2 (proj2 H))).
Defined.

(* ------------------------------------------------------------------ *)
(** ** Pathfinding: shape of the routes *)

Lemma GridPos_eq_dec (a b : GridPos) : {a = b} + {a <> b}.
Proof. decide equality; apply Z.eq_dec. Qed.

Lemma roadPath_head r a e p : roadPath r a e p -> hd_error p = Some a.
Proof. destruct 1; reflexivity. Qed.

Lemma roadPath_last r a e p : forall d, roadPath r a e p -> last p d = e.
Proof.
  intros d. induction 1 as [a Ha | a b e p Ha Hadj Hp IH]; [reflexivity|].
  destruct p as [|c p]; [inversion Hp | exact IH].
Qed.

Lemma roadPath_manhattan r a e p :
  roadPath r a e p -> Pathfinding.heuristic a e <= edgeCount p.
Proof.
  unfold edgeCount.
  induction 1 as [a Ha | a b e p Ha Hadj Hp IH].
  - unfold Pathfinding.heuristic. simpl. lia.
  - pose proof (heuristic_consistent a b e Hadj).
    simpl List.length. lia.
Qed.

Lemma roadPath_suffix r a e l1 c l2 :
  roadPath r a e (l1 ++ c :: l2) -> roadPath r c e (c :: l2).
Proof.
  revert a. induction l1 as [|x l1 IH]; intros a Hp; simpl in Hp.
  - pose proof (roadPath_head _ _ _ _ Hp) as Hh. injection Hh as ->.
    assumption.
  - inversion Hp as [? ? Heq | ? b ? ? Ha Hadj Hrest]; subst.
    + destruct l1; discriminate.
    + eapply IH; eassumption.
Qed.

Lemma roadPath_rev r a e p : roadPath r a e p -> roadPath r e a (rev p).
Proof.
  induction 1 as [a Ha | a b e p Ha Hadj Hp IH]; simpl.
  - now constructor.
  - apply roadPath_snoc with b; [assumption | now apply adjacent4_sym |].
    assumption.
Qed.

(** A path that visits a cell twice can be shortened. *)
Lemma roadPath_simple_or_shorter r a e p :
  roadPath r a e p ->
  NoDup p \/
  exists q, roadPath r a e q /\ (List.length q < List.length p)%nat.
Proof.
  induction 1 as [a Ha | a b e p Ha Hadj Hp IH].
  - left. repeat constructor. simpl. tauto.
  - destruct IH as [Hnd | (q & Hq & Hlen)].
    + destruct (in_dec GridPos_eq_dec a p) as [Hin | Hnot].
      * right. apply in_split in Hin. destruct Hin as (l1 & l2 & ->).
        exists (a :: l2). split; [eapply roadPath_suffix; eassumption|].
        simpl. rewrite length_app. simpl. lia.
      * left. now constructor.
    + right. exists (a :: q). split; [econstructor; eassumption|].
      simpl. lia.
Qed.

(** Whenever [findPath] returns a non-empty list on a road reached by any
    history of calls, for cells within [coordLimit], the list goes from
    [start] to [goal] through occupied 4-adjacent cells, visits no cell
    twice, and has at least as many edges as the Manhattan distance
    between the two cells. *)
Theorem findPath_route_shape
    (ops : list RoadOp) (start goal : GridPos) (p : list GridPos) :
  let r := buildRoad ops in
  opsInRange ops = true ->
  inRange start = true ->
  inRange goal = true ->
  Pathfinding.findPath r start goal = Some p ->
  p <> [] ->
  roadPath r start goal p /\
  hd_error p = Some start /\
  last p start = goal /\
  NoDup p /\
  Pathfinding.heuristic start goal <= edgeCount p.
Proof.
  intros r _ _ _ Hp Hne.
  pose proof (buildRoad_invariant ops) as Hinv. fold r in Hinv.
  destruct (findPath_spec r start goal Hinv) as (p0 & Hp0 & Hfree & Hocc).
  assert (p0 = p) by congruence. subst p0.
  destruct (Road.hasSegment start r) eqn:Hs;
    [|exfalso; apply Hne, Hfree; now left].
  destruct (Road.hasSegment goal r) eqn:Hg;
    [|exfalso; apply Hne, Hfree; now right].
  destruct (Hocc eq_refl eq_refl) as [_ [[-> _] | [Hpath Hmin]]];
    [contradiction|].
  split; [assumption|].
  split; [eapply roadPath_head; eassumption|].
  split; [eapply roadPath_last; eassumption|].
  split; [|eapply roadPath_manhattan; eassumption].
  destruct (roadPath_simple_or_shorter _ _ _ _ Hpath)
    as [Hnd | (q & Hq & Hlen)]; [assumption|].
  exfalso. specialize (Hmin (edgeCount q) (roadPath_walk _ _ _ _ Hinv Hq)).
  unfold edgeCount in Hmin. lia.
Qed.

Lemma findPath_route_shape_witness :
  opsInRange brokenRingOps = true /\
  Pathfinding.findPath (buildRoad brokenRingOps) (1, 0) (2, 1)
  = Some [(1, 0); (0, 0); (0, 1); (0, 2); (1, 2); (2, 2); (2, 1)] /\
  NoDup [(1, 0); (0, 0); (0, 1); (0, 2); (1, 2); (2, 2); (2, 1)] /\
  Pathfinding.heuristic (1, 0) (2, 1)
  <= edgeCount [(1, 0); (0, 0); (0, 1); (0, 2); (1, 2); (2, 2); (2, 1)].
Proof.
  split; [reflexivity|]. split; [reflexivity|].
  destruct (findPath_route_shape brokenRingOps (1, 0) (2, 1)
              [(1, 0); (0, 0); (0, 1); (0, 2); (1, 2); (2, 2); (2, 1)]
              eq_refl eq_refl eq_refl eq_refl) as (_ & _ & _ & Hnd & Hh).
  - discriminate.
  - split; [exact Hnd | exact Hh].
Defined.

(** The router is symmetric in cost: on a road reached by any history of
    calls, for cells within [coordLimit], the routes it returns from [a]
    to [b] and from [b] to [a] have the same number of cells (both empty
    when there is no route). *)
Theorem findPath_symmetric_length (ops : list RoadOp) (a b : GridPos) :
  let r := buildRoad ops in
  opsInRange ops = true ->
  inRange a = true ->
  inRange b = true ->
  exists p q,
    Pathfinding.findPath r a b = Some p /\
    Pathfinding.findPath r b a = Some q /\
    List.length p = List.length q.
Proof.
  intros r _ _ _. pose proof (buildRoad_invariant ops) as Hinv. fold r in Hinv.
  destruct (findPath_spec r a b Hinv) as (p & Hp & Hfree & Hocc).
  destruct (findPath_spec r b a Hinv) as (q & Hq & Hfree' & Hocc').
  exists p, q. split; [assumption|]. split; [assumption|].
  destruct (Road.hasSegment a r) eqn:Ha.
  2:{ rewrite Hfree by now left. rewrite Hfree' by now right. reflexivity. }
  destruct (Road.hasSegment b r) eqn:Hb.
  2:{ rewrite Hfree by now right. rewrite Hfree' by now left. reflexivity. }
  destruct (Hocc eq_refl eq_refl) as [_ Hcase].
  destruct (Hocc' eq_refl eq_refl) as [_ Hcase'].
  assert (Hrev : forall x y l, roadPath r x y l ->
                               walk r y x (edgeCount l)).
  { intros x y l Hl. apply roadPath_rev in Hl.
    apply roadPath_walk in Hl; [|assumption].
    unfold edgeCount in *. now rewrite length_rev in Hl. }
  destruct Hcase as [[-> Hnone] | [Hpath Hmin]];
    destruct Hcase' as [[-> Hnone'] | [Hpath' Hmin']].
  - reflexivity.
  - exfalso. apply (Hnone (edgeCount q)). now apply Hrev.
  - exfalso. apply (Hnone' (edgeCount p)). now apply Hrev.
  - specialize (Hmin _ (Hrev _ _ _ Hpath')).
    specialize (Hmin' _ (Hrev _ _ _ Hpath)).
    unfold edgeCount in *. lia.
Qed.

Lemma findPath_symmetric_length_witness :
  opsInRange brokenRingOps = true /\
  exists p q,
    Pathfinding.findPath (buildRoad brokenRingOps) (1, 0) (2, 1) = Some p /\
    Pathfinding.findPath (buildRoad brokenRingOps) (2, 1) (1, 0) = Some q /\
    List.length p = List.length q.
Proof.
  split; [reflexivity|].
  exact (findPath_symmetric_length brokenRingOps (1, 0) (2, 1)
           eq_refl eq_refl eq_refl).
Defined.

(* ------------------------------------------------------------------ *)
(** ** Car: the life of a vehicle *)

(** [update] never touches the route, colour, target or speed of a car;
    the path index never goes back and grows by one at most; a stopped car
    is never restarted; and a tick either advances the index or moves the
    car, never both. *)
Theorem car_update_frame (cfg : GameConfig.t) (delta : float) (c : Car.t) :
  let c' := snd (Car.update cfg delta c) in
  Car.path c' = Car.path c /\
  Car.color c' = Car.color c /\
  Car.targetDestination c' = Car.targetDestination c /\
  Car.speed c' = Car.speed c /\
  (Car.currentPathIndex c <= Car.currentPathIndex c'
   <= S (Car.currentPathIndex c))%nat /\
  (Car.isMoving c' = true -> Car.isMoving c = true) /\
  (Car.getPosition c' <> Car.getPosition c ->
   Car.currentPathIndex c' = Car.currentPathIndex c).
Proof.
  unfold Car.update. cbv zeta.
  destruct (negb (Car.isMoving c) || _); [cbn; intuition lia|].
  destruct (_ <=? _)%nat; [cbn; intuition (try lia; try discriminate)|].
  destruct (PrimFloat.ltb _ 3).
  - destruct (_ <=? _)%nat; cbn; intuition (try lia; try discriminate).
  - cbn. intuition lia.
Qed.

(** A car en route stays en route as long as [update] answers [false];
    when [update] answers [true] the car has just reached the end of its
    path, is stopped, and [hasReachedDestination] holds. *)
Theorem car_en_route_or_arrived
    (cfg : GameConfig.t) (delta : float) (c : Car.t) :
  enRoute c ->
  let c' := snd (Car.update cfg delta c) in
  if fst (Car.update cfg delta c)
  then Car.currentPathIndex c' = List.length (Car.path c') /\
       Car.isMoving c' = false /\
       Car.hasReachedDestination c' = true
  else enRoute c' /\ Car.hasReachedDestination c' = false.
Proof.
  intros [Hmov Hidx]. unfold Car.update, Car.hasReachedDestination, enRoute.
  cbv zeta. rewrite Hmov. simpl negb. simpl orb.
  assert ((List.length (Car.path c) =? 0)%nat = false) as ->
    by (apply Nat.eqb_neq; lia).
  assert ((List.length (Car.path c) <=? Car.currentPathIndex c)%nat = false)
    as -> by (apply Nat.leb_gt; lia).
  destruct (PrimFloat.ltb _ 3).
  - cbn [Car.atIndex Car.path Car.currentPathIndex].
    destruct (Nat.leb_spec (List.length (Car.path c))
                           (S (Car.currentPathIndex c))) as [Hle | Hgt]; cbn.
    + split; [lia|]. split; [reflexivity|]. apply Nat.leb_le. lia.
    + rewrite Hmov. split; [split; [reflexivity | lia] | reflexivity].
  - cbn. rewrite Hmov. split; [split; [reflexivity | lia] | reflexivity].
Qed.

Lemma car_en_route_or_arrived_witness :
  enRoute freshCar /\
  enRoute (snd (Car.update GameConfig.original 16 freshCar)) /\
  Car.hasReachedDestination (snd (Car.update GameConfig.original 16 freshCar))
  = false.
Proof.
  assert (H : enRoute freshCar).
  { split; [reflexivity | vm_compute; lia]. }
  split; [exact H|].
  exact (car_en_route_or_arrived GameConfig.original 16 freshCar H).
Defined.

(* ------------------------------------------------------------------ *)
(** ** TrafficManager: spawning a car *)

Lemma findPath_returns (ops : list RoadOp) (a b : GridPos) :
  exists p, Pathfinding.findPath (buildRoad ops) a b = Some p.
Proof.
  destruct (findPath_spec _ a b (buildRoad_invariant ops)) as (p & Hp & _).
  eauto.
Qed.

(** The loop over the destinations picks the first routable one, in
    registration order, and raises the counter of that one only. *)
Lemma chooseDestination_spec (ops : list RoadOp) (color : Z)
    (nearestRoad : GridPos) (destinations : list Destination.t) :
  let r := buildRoad ops in
  exists choice,
    TrafficManager.chooseDestination r color nearestRoad destinations
      = Some choice /\
    match choice with
    | TrafficManager.NoRoute =>
        forall d, In d destinations -> ~ routable r nearestRoad color d
    | TrafficManager.Route path d destinations' =>
        exists l1 l2 destNearestRoad,
          destinations = l1 ++ d :: l2 /\
          destinations' = l1 ++ Destination.addWaitingCar d :: l2 /\
          (forall d', In d' l1 -> ~ routable r nearestRoad color d') /\
          ColorManager.colorsMatch (Destination.color d) color = true /\
          Pathfinding.findNearestRoad r (Destination.getGridPosition d) 3
            = Some destNearestRoad /\
          Pathfinding.findPath r nearestRoad destNearestRoad = Some path /\
          path <> []
    end.
Proof.
  intros r. induction destinations as [|d rest IH].
  - exists TrafficManager.NoRoute. split; [reflexivity | intros ? []].
  - destruct IH as (choice & Hc & Hspec).
    cbn [TrafficManager.chooseDestination]. rewrite Hc.
    assert (Hnext : ~ routable r nearestRoad color d ->
      exists choice',
        match choice with
        | TrafficManager.Route path target rest' =>
            Some (TrafficManager.Route path target (d :: rest'))
        | TrafficManager.NoRoute => Some TrafficManager.NoRoute
        end = Some choice' /\
        match choice' with
        | TrafficManager.NoRoute =>
            forall d0, In d0 (d :: rest) -> ~ routable r nearestRoad color d0
        | TrafficManager.Route path d0 destinations' =>
            exists l1 l2 destNearestRoad,
              d :: rest = l1 ++ d0 :: l2 /\
              destinations' = l1 ++ Destination.addWaitingCar d0 :: l2 /\
              (forall d', In d' l1 -> ~ routable r nearestRoad color d') /\
              ColorManager.colorsMatch (Destination.color d0) color = true /\
              Pathfinding.findNearestRoad r (Destination.getGridPosition d0) 3
                = Some destNearestRoad /\
              Pathfinding.findPath r nearestRoad destNearestRoad = Some path /\
              path <> []
        end).
    { intros Hno. destruct choice as [|path target rest'].
      - exists TrafficManager.NoRoute. split; [reflexivity|].
        intros d0 [<- | Hd0]; auto.
      - destruct Hspec as (l1 & l2 & dnr & -> & -> & Hfirst & Hrest).
        eexists. split; [reflexivity|].
        exists (d :: l1), l2, dnr. split; [reflexivity|].
        split; [reflexivity|]. split; [|exact Hrest].
        intros d' [<- | Hd']; auto. }
    destruct (ColorManager.colorsMatch (Destination.color d) color) eqn:Hcol.
    2:{ destruct choice; apply Hnext; intros (H & _); congruence. }
    destruct (Pathfinding.findNearestRoad r (Destination.getGridPosition d) 3)
      as [dnr|] eqn:Hnr.
    2:{ destruct choice; apply Hnext; intros (_ & ? & ? & H & _);
          congruence. }
    destruct (findPath_returns ops nearestRoad dnr) as (testPath & Hpath).
    fold r in Hpath. rewrite Hpath.
    destruct testPath as [|w ws]; cbn [List.length Nat.ltb Nat.leb].
    + destruct choice; apply Hnext; intros (_ & ? & ? & H1 & H2 & H3);
        congruence.
    + eexists. split; [reflexivity|].
      exists [], rest, dnr. simpl.
      split; [reflexivity|]. split; [reflexivity|].
      split; [intros ? []|]. split; [assumption|]. split; [assumption|].
      split; [assumption | discriminate].
Qed.

Lemma findPath_nonempty_roadPath (r : Road.t) (a b : GridPos)
    (p : list GridPos) :
  roadInvariant r ->
  Pathfinding.findPath r a b = Some p -> p <> [] -> roadPath r a b p.
Proof.
  intros Hinv Hp Hne.
  destruct (findPath_spec r a b Hinv) as (p0 & Hp0 & Hfree & Hocc).
  assert (p0 = p) by congruence. subst p0.
  destruct (Road.hasSegment a r) eqn:Ha;
    [|exfalso; apply Hne, Hfree; now left].
  destruct (Road.hasSegment b r) eqn:Hb;
    [|exfalso; apply Hne, Hfree; now right].
  destruct (Hocc eq_refl eq_refl) as [_ [[-> _] | [Hpath _]]];
    [contradiction | assumption].
Qed.

(** What one firing of [spawnCar] computes on a road reached by any
    history of calls. *)
Lemma spawnCar_spec
    (cfg : GameConfig.t) (ops : list RoadOp) (house : House.t)
    (cars : list Car.t) (destinations : list Destination.t) :
  let r := buildRoad ops in
  exists cars' destinations',
    TrafficManager.spawnCar cfg r house cars destinations
      = Some (cars', destinations') /\
    ((cars' = cars /\ destinations' = destinations /\
      forall nearestRoad d,
        Pathfinding.findNearestRoad r (House.getGridPosition house) 3
          = Some nearestRoad ->
        In d destinations ->
        ~ routable r nearestRoad (House.color house) d)
     \/
     exists nearestRoad d l1 l2 destNearestRoad path,
       Pathfinding.findNearestRoad r (House.getGridPosition house) 3
         = Some nearestRoad /\
       destinations = l1 ++ d :: l2 /\
       destinations' = l1 ++ Destination.addWaitingCar d :: l2 /\
       (forall d', In d' l1 ->
                   ~ routable r nearestRoad (House.color house) d') /\
       Destination.color d = House.color house /\
       Pathfinding.findNearestRoad r (Destination.getGridPosition d) 3
         = Some destNearestRoad /\
       Pathfinding.findPath r nearestRoad destNearestRoad = Some path /\
       roadPath r nearestRoad destNearestRoad path /\
       cars' = cars ++ [spawnedCar cfg house nearestRoad d path]).
Proof.
  intros r. pose proof (buildRoad_invariant ops) as Hinv. fold r in Hinv.
  unfold TrafficManager.spawnCar.
  destruct (Nat.eqb_spec
              (List.length
                 (filter (fun dest =>
                            ColorManager.colorsMatch (Destination.color dest)
                                                     (House.color house))
                         destinations)) 0) as [Hnone | Hsome].
  { exists cars, destinations. split; [reflexivity|]. left.
    split; [reflexivity|]. split; [reflexivity|].
    intros nearestRoad d _ Hd (Hcol & _).
    apply length_zero_iff_nil in Hnone.
    assert (Hin : In d (filter (fun dest =>
                     ColorManager.colorsMatch (Destination.color dest)
                                              (House.color house))
                   destinations)) by (apply filter_In; tauto).
    rewrite Hnone in Hin. destruct Hin. }
  destruct (Pathfinding.findNearestRoad r (House.getGridPosition house) 3)
    as [nearestRoad|] eqn:Hnear.
  2:{ exists cars, destinations. split; [reflexivity|]. left.
      split; [reflexivity|]. split; [reflexivity|]. discriminate. }
  destruct (chooseDestination_spec ops (House.color house) nearestRoad
              destinations) as (choice & Hc & Hspec).
  fold r in Hc, Hspec. rewrite Hc.
  destruct choice as [|path d destinations'].
  { exists cars, destinations. split; [reflexivity|]. left.
    split; [reflexivity|]. split; [reflexivity|].
    intros n d [= <-]. apply Hspec. }
  destruct Hspec as (l1 & l2 & dnr & Hd & Hd' & Hfirst & Hcol & Hdnr & Hpath
                     & Hne).
  pose proof (findPath_nonempty_roadPath r _ _ _ Hinv Hpath Hne) as Hroad.
  rewrite Hdnr. rewrite (roadPath_last _ _ _ _ (0, 0) Hroad).
  rewrite !Z.eqb_refl. cbn [negb orb].
  eexists. eexists. split; [reflexivity|]. right.
  exists nearestRoad, d, l1, l2, dnr, path.
  split; [reflexivity|]. split; [assumption|]. split; [assumption|].
  split; [assumption|].
  split; [now apply Z.eqb_eq in Hcol|].
  split; [assumption|]. split; [assumption|]. split; [assumption|].
  reflexivity.
Qed.

(* ------------------------------------------------------------------ *)
(** ** The scene: counters, live cars and score *)

Lemma headsFor_iff (q : GridPos) (c : Car.t) :
  headsFor q c = true <-> Car.targetDestination c = Some q.
Proof.
  unfold headsFor. destruct (Car.targetDestination c) as [[tx ty]|].
  - destruct q as [qx qy]. simpl.
    rewrite andb_true_iff, !Z.eqb_eq. split.
    + intros [-> ->]. reflexivity.
    + intros [= -> ->]. tauto.
  - split; discriminate.
Qed.

Lemma atTarget_iff (q : GridPos) (d : Destination.t) :
  TrafficManager.atTarget q d = true <-> Destination.getGridPosition d = q.
Proof.
  unfold TrafficManager.atTarget, Destination.getGridPosition.
  destruct q as [qx qy]. simpl. rewrite andb_true_iff, !Z.eqb_eq. split.
  - intros [-> ->]. reflexivity.
  - intros [= -> ->]. tauto.
Qed.

Lemma waitingAt_cons (q : GridPos) (d : Destination.t)
    (rest : list Destination.t) :
  waitingAt q (d :: rest) =
  if TrafficManager.atTarget q d then Destination.waitingCars d
  else waitingAt q rest.
Proof. unfold waitingAt. simpl. now destruct (TrafficManager.atTarget q d). Qed.

Lemma waitingAt_opened (q p : GridPos) (color : Z)
    (destinations : list Destination.t) :
  waitingAt q (destinations ++ [Destination.create p color])
  = waitingAt q destinations.
Proof.
  induction destinations as [|d rest IH]; simpl.
  - rewrite waitingAt_cons. now destruct (TrafficManager.atTarget q _).
  - rewrite !waitingAt_cons, IH. reflexivity.
Qed.

Lemma waitingAt_assigned (q : GridPos) (d : Destination.t)
    (l1 l2 : list Destination.t) :
  NoDup (map Destination.getGridPosition (l1 ++ d :: l2)) ->
  waitingAt q (l1 ++ Destination.addWaitingCar d :: l2)
  = waitingAt q (l1 ++ d :: l2)
    + (if TrafficManager.atTarget q d then 1 else 0).
Proof.
  induction l1 as [|x l1 IH]; simpl; intros Hnd.
  - rewrite !waitingAt_cons.
    change (TrafficManager.atTarget q (Destination.addWaitingCar d))
      with (TrafficManager.atTarget q d).
    destruct (TrafficManager.atTarget q d); simpl; lia.
  - rewrite !waitingAt_cons. inversion Hnd as [|? ? Hnot Hnd']; subst.
    destruct (TrafficManager.atTarget q x) eqn:Ex.
    + destruct (TrafficManager.atTarget q d) eqn:Ed; [|lia].
      exfalso. apply atTarget_iff in Ex, Ed. apply Hnot.
      rewrite Ex, <- Ed. apply in_map, in_app_iff. right. now left.
    + now apply IH.
Qed.

Lemma release_positions (car : Car.t) (destinations : list Destination.t) :
  map Destination.getGridPosition (TrafficManager.release car destinations)
  = map Destination.getGridPosition destinations.
Proof.
  unfold TrafficManager.release.
  destruct (Car.targetDestination car) as [target|]; [|reflexivity].
  induction destinations as [|d rest IH]; simpl; [reflexivity|].
  destruct (TrafficManager.atTarget target d); simpl; [reflexivity|].
  now rewrite IH.
Qed.

Lemma release_waitingAt (q : GridPos) (car : Car.t)
    (destinations : list Destination.t) :
  (headsFor q car = true -> 1 <= waitingAt q destinations) ->
  waitingAt q (TrafficManager.release car destinations)
  = waitingAt q destinations - (if headsFor q car then 1 else 0).
Proof.
  unfold TrafficManager.release.
  destruct (Car.targetDestination car) as [target|] eqn:Ht.
  2:{ unfold headsFor. rewrite Ht. intros _. lia. }
  assert (Hq : headsFor q car = true <-> target = q).
  { rewrite headsFor_iff, Ht. split; congruence. }
  induction destinations as [|d rest IH]; simpl; intros Hw.
  - unfold waitingAt in *. simpl in *.
    destruct (headsFor q car); [specialize (Hw eq_refl)|]; lia.
  - rewrite waitingAt_cons in Hw.
    destruct (TrafficManager.atTarget target d) eqn:Et.
    + rewrite !waitingAt_cons.
      change (TrafficManager.atTarget q (Destination.removeWaitingCar d))
        with (TrafficManager.atTarget q d).
      destruct (TrafficManager.atTarget q d) eqn:Eq.
      * assert (headsFor q car = true) as Hh.
        { apply Hq. apply atTarget_iff in Et, Eq. congruence. }
        rewrite Hh in *. specialize (Hw eq_refl). simpl. lia.
      * destruct (headsFor q car) eqn:Hh; [|lia].
        assert (target = q) by now apply Hq. subst q. congruence.
    + rewrite !waitingAt_cons.
      destruct (TrafficManager.atTarget q d) eqn:Eq.
      * destruct (headsFor q car) eqn:Hh; [|lia].
        assert (target = q) by now apply Hq. subst q. congruence.
      * now apply IH.
Qed.

Lemma update_keeps_target (cfg : GameConfig.t) (delta : float) (c : Car.t) :
  Car.targetDestination (snd (Car.update cfg delta c))
  = Car.targetDestination c.
Proof.
  unfold Car.update. cbv zeta.
  destruct (negb (Car.isMoving c) || _); [reflexivity|].
  destruct (_ <=? _)%nat; [reflexivity|].
  destruct (PrimFloat.ltb _ 3); [|reflexivity].
  destruct (_ <=? _)%nat; reflexivity.
Qed.

Lemma update_keeps_en_route (cfg : GameConfig.t) (delta : float) (c : Car.t) :
  enRoute c -> fst (Car.update cfg delta c) = false ->
  enRoute (snd (Car.update cfg delta c)).
Proof.
  intros [Hmov Hidx]. unfold Car.update, enRoute. cbv zeta.
  rewrite Hmov. simpl negb. simpl orb.
  assert ((List.length (Car.path c) =? 0)%nat = false) as ->
    by (apply Nat.eqb_neq; lia).
  assert ((List.length (Car.path c) <=? Car.currentPathIndex c)%nat = false)
    as -> by (apply Nat.leb_gt; lia).
  destruct (PrimFloat.ltb _ 3).
  - cbn [Car.atIndex Car.path Car.currentPathIndex].
    destruct (Nat.leb_spec (List.length (Car.path c))
                           (S (Car.currentPathIndex c))) as [Hle | Hgt]; cbn.
    + discriminate.
    + intros _. split; [assumption | lia].
  - cbn. intros _. split; [assumption | lia].
Qed.

Lemma headsFor_update (cfg : GameConfig.t) (delta : float) (q : GridPos)
    (c : Car.t) :
  headsFor q (snd (Car.update cfg delta c)) = headsFor q c.
Proof. unfold headsFor. now rewrite update_keeps_target. Qed.

(** One pass of [TrafficManager.update] over cars whose reports the
    counters can absorb: each cell's counter drops by the number of cars
    reported for it, and no destination moves. *)
Lemma update_counters (cfg : GameConfig.t) (delta : float)
    (cars : list Car.t) :
  forall destinations,
    (forall q, reportedFor cfg delta q cars <= waitingAt q destinations) ->
    let destinations' :=
      snd (TrafficManager.update cfg delta cars destinations) in
    map Destination.getGridPosition destinations'
    = map Destination.getGridPosition destinations /\
    forall q, waitingAt q destinations'
              = waitingAt q destinations - reportedFor cfg delta q cars.
Proof.
  unfold reportedFor.
  induction cars as [|car rest IH]; intros destinations Hcap; simpl.
  - split; [reflexivity | intros q; lia].
  - assert (Hcap' : forall q,
              Z.of_nat (List.length
                (filter (fun c => fst (Car.update cfg delta c) && headsFor q c)
                        rest))
              <= waitingAt q destinations).
    { intros q. specialize (Hcap q). simpl in Hcap.
      destruct (fst (Car.update cfg delta car) && headsFor q car);
        simpl in Hcap; lia. }
    destruct (IH destinations Hcap') as [Hpos Hcount].
    destruct (TrafficManager.update cfg delta rest destinations)
      as [rest' destinations1].
    cbn [snd] in Hpos, Hcount.
    destruct (Car.update cfg delta car) as [reached car'] eqn:Hu.
    assert (Hheads : forall q, headsFor q car' = headsFor q car).
    { intros q. replace car' with (snd (Car.update cfg delta car))
        by now rewrite Hu. apply headsFor_update. }
    destruct reached; cbn [fst snd andb].
    + split; [now rewrite release_positions|].
      intros q. specialize (Hcap q). simpl in Hcap. rewrite Hu in Hcap.
      cbn [fst andb] in Hcap.
      rewrite release_waitingAt, Hheads, Hcount.
      * destruct (headsFor q car); simpl List.length; lia.
      * rewrite Hheads, Hcount. intros Hh. rewrite Hh in Hcap.
        simpl List.length in Hcap. lia.
    + split; [assumption|]. intros q. now rewrite Hcount.
Qed.

Lemma survivors_counts (cfg : GameConfig.t) (delta : float) (q : GridPos)
    (cars : list Car.t) (destinations : list Destination.t) :
  carsFor q (fst (TrafficManager.update cfg delta cars destinations))
  = carsFor q cars - reportedFor cfg delta q cars.
Proof.
  rewrite (proj1 (traffic_update_survivors cfg delta cars destinations)).
  unfold carsFor, reportedFor.
  induction cars as [|c rest IH]; simpl; [reflexivity|].
  destruct (fst (Car.update cfg delta c)) eqn:Hf; simpl.
  - destruct (headsFor q c); simpl List.length; lia.
  - rewrite headsFor_update. destruct (headsFor q c); simpl List.length; lia.
Qed.

Lemma survivors_length (cfg : GameConfig.t) (delta : float)
    (cars : list Car.t) (destinations : list Destination.t) :
  (List.length (fst (TrafficManager.update cfg delta cars destinations))
   <= List.length cars)%nat.
Proof.
  rewrite (proj1 (traffic_update_survivors cfg delta cars destinations)).
  rewrite length_map. apply filter_length_le.
Qed.

Lemma spawnedCar_en_route cfg house nearestRoad target path :
  path <> [] -> enRoute (spawnedCar cfg house nearestRoad target path).
Proof.
  intros Hne. destruct path as [|w ws]; [contradiction|].
  split; [reflexivity | simpl; lia].
Qed.

(** One firing of a house's spawner on a road reached by any history of
    calls, with the road's cells, the house and the destinations within
    [coordLimit].  Either nothing changes, or exactly one car is appended
    and exactly one counter is raised by one: that of the first routable
    destination in registration order.  The new car has the house's
    colour, stands at the centre of the house's road cell, is en route at
    index 0 and targets that destination; its route is the router's own
    (the extra final waypoint is never appended), a path of 4-adjacent
    occupied cells between the two road cells. *)
Theorem spawnCar_outcome
    (cfg : GameConfig.t) (ops : list RoadOp) (house : House.t)
    (cars : list Car.t) (destinations : list Destination.t) :
  let r := buildRoad ops in
  cfgInRange cfg = true ->
  opsInRange ops = true ->
  inRange (House.getGridPosition house) = true ->
  destinationsInRange destinations = true ->
  exists cars' destinations',
    TrafficManager.spawnCar cfg r house cars destinations
      = Some (cars', destinations') /\
    ((cars' = cars /\ destinations' = destinations)
     \/
     exists car d l1 l2 nearestRoad destNearestRoad,
       destinations = l1 ++ d :: l2 /\
       destinations' = l1 ++ Destination.addWaitingCar d :: l2 /\
       cars' = cars ++ [car] /\
       (forall d', In d' l1 ->
                   ~ routable r nearestRoad (House.color house) d') /\
       Destination.color d = House.color house /\
       Car.color car = House.color house /\
       Car.targetDestination car = Some (Destination.getGridPosition d) /\
       enRoute car /\
       Car.currentPathIndex car = 0%nat /\
       Car.getPosition car = Grid.gridToWorld cfg nearestRoad /\
       Pathfinding.findNearestRoad r (House.getGridPosition house) 3
         = Some nearestRoad /\
       Pathfinding.findNearestRoad r (Destination.getGridPosition d) 3
         = Some destNearestRoad /\
       Pathfinding.findPath r nearestRoad destNearestRoad
         = Some (Car.path car) /\
       roadPath r nearestRoad destNearestRoad (Car.path car)).
Proof.
  intros r _ _ _ _.
  destruct (spawnCar_spec cfg ops house cars destinations)
    as (cars' & destinations' & Hs & Hcase).
  fold r in Hs, Hcase. exists cars', destinations'. split; [assumption|].
  destruct Hcase as [(-> & -> & _) | Hcase]; [now left|]. right.
  destruct Hcase as (nearestRoad & d & l1 & l2 & dnr & path & Hnear & Hd & Hd'
                     & Hfirst & Hcol & Hdnr & Hpath & Hroad & ->).
  exists (spawnedCar cfg house nearestRoad d path), d, l1, l2, nearestRoad, dnr.
  pose proof (roadPath_nonempty _ _ _ _ Hroad) as Hne.
  split; [assumption|]. split; [assumption|]. split; [reflexivity|].
  split; [assumption|]. split; [assumption|]. split; [reflexivity|].
  split; [reflexivity|]. split; [now apply spawnedCar_en_route|].
  split; [reflexivity|].
  split; [unfold Grid.gridToWorld; reflexivity|].
  split; [assumption|]. split; [assumption|]. split; assumption.
Qed.

Lemma spawnCar_outcome_witness :
  cfgInRange GameConfig.lenient = true /\
  opsInRange corridorOps = true /\
  inRange (House.getGridPosition corridorHouse) = true /\
  destinationsInRange [corridorDestination] = true /\
  exists car,
    TrafficManager.spawnCar GameConfig.lenient (buildRoad corridorOps)
      corridorHouse [] [corridorDestination]
    = Some ([car], [Destination.addWaitingCar corridorDestination]) /\
    Car.path car = [(0, 0); (1, 0); (2, 0); (3, 0); (4, 0)].
Proof.
  split; [reflexivity|]. split; [reflexivity|]. split; [reflexivity|].
  split; [reflexivity|].
  destruct (spawnCar_outcome GameConfig.lenient corridorOps corridorHouse
              [] [corridorDestination] eq_refl eq_refl eq_refl eq_refl)
    as (cars' & destinations' & Hspawn & _).
  vm_compute in Hspawn. injection Hspawn as <- <-.
  eexists. split; [vm_compute; reflexivity | reflexivity].
Defined.

(** With distinct cells, the destination found at a member's cell is that
    member. *)
Lemma waitingAt_member (d : Destination.t)
    (destinations : list Destination.t) :
  NoDup (map Destination.getGridPosition destinations) ->
  In d destinations ->
  waitingAt (Destination.getGridPosition d) destinations
  = Destination.waitingCars d.
Proof.
  intros Hnd Hd. destruct (in_split _ _ Hd) as (l1 & l2 & ->). clear Hd.
  induction l1 as [|x l1 IH]; cbn [app map] in *.
  - rewrite waitingAt_cons.
    assert (TrafficManager.atTarget (Destination.getGridPosition d) d
            = true) as ->; [|reflexivity].
    apply atTarget_iff. reflexivity.
  - rewrite waitingAt_cons. inversion Hnd as [|? ? Hx Hrest]; subst.
    destruct (TrafficManager.atTarget (Destination.getGridPosition d) x)
      eqn:Hat; [|now apply IH].
    apply atTarget_iff in Hat. exfalso. apply Hx. rewrite Hat.
    rewrite map_app. apply in_app_iff. right. now left.
Qed.

Lemma carsFor_app (q : GridPos) (cars : list Car.t) (car : Car.t) :
  carsFor q (cars ++ [car])
  = carsFor q cars + (if headsFor q car then 1 else 0).
Proof.
  unfold carsFor. rewrite filter_app, length_app. simpl.
  destruct (headsFor q car); simpl; lia.
Qed.

Lemma reportedFor_le (cfg : GameConfig.t) (delta : float) (q : GridPos)
    (cars : list Car.t) :
  reportedFor cfg delta q cars <= carsFor q cars.
Proof.
  unfold reportedFor, carsFor.
  induction cars as [|c rest IH]; simpl; [lia|].
  destruct (fst (Car.update cfg delta c)), (headsFor q c);
    simpl List.length; lia.
Qed.

Lemma scene_tick_inv (cfg : GameConfig.t) (seen : list GridPos)
    (delta : float) (s : GameScene.t) (spawned : nat) :
  sceneInv cfg seen s spawned ->
  sceneInv cfg seen (GameScene.update cfg delta s) spawned.
Proof.
  intros Hinv. unfold GameScene.update.
  destruct (negb _); [assumption|].
  destruct Hinv as ((Hnd & Hcars & Hcount) & Hseen & Hle & Hscore).
  pose proof (survivors_length cfg delta (GameScene.cars s)
                (GameScene.destinations s)) as Hlen.
  pose proof (fun q => survivors_counts cfg delta q (GameScene.cars s)
                         (GameScene.destinations s)) as Hsurv.
  pose proof (proj1 (traffic_update_survivors cfg delta (GameScene.cars s)
                       (GameScene.destinations s))) as Hlist.
  destruct (update_counters cfg delta (GameScene.cars s)
              (GameScene.destinations s)) as [Hpos Hwait].
  { intros q. rewrite Hcount. apply reportedFor_le. }
  destruct (TrafficManager.update cfg delta (GameScene.cars s)
              (GameScene.destinations s)) as [cars' destinations'].
  cbn [fst snd] in *.
  assert (Hscore' :
    GameStateManager.score
      (if 0 <? Z.of_nat (List.length (GameScene.cars s))
               - Z.of_nat (List.length cars')
       then GameStateManager.addScore
              ((Z.of_nat (List.length (GameScene.cars s))
                - Z.of_nat (List.length cars'))
               * GameConfig.POINTS_PER_DELIVERY cfg) (GameScene.gameState s)
       else GameScene.gameState s)
    = GameConfig.POINTS_PER_DELIVERY cfg
      * (Z.of_nat spawned - Z.of_nat (List.length cars'))).
  { destruct (Z.ltb_spec 0 (Z.of_nat (List.length (GameScene.cars s))
                            - Z.of_nat (List.length cars'))) as [Hpos' | Hz].
    - simpl. rewrite Hscore. ring.
    - rewrite Hscore.
      replace (Z.of_nat (List.length cars'))
        with (Z.of_nat (List.length (GameScene.cars s))) by lia.
      reflexivity. }
  split; [split; [|split]|split; [|split]].
  - cbn. now rewrite Hpos.
  - cbn. intros c' Hc'. rewrite Hlist in Hc'. apply in_map_iff in Hc'.
    destruct Hc' as (c & <- & Hc). apply filter_In in Hc.
    destruct Hc as [Hc Hrep]. apply negb_true_iff in Hrep.
    destruct (Hcars c Hc) as (Hroute & target & Ht & Hin).
    split; [now apply update_keeps_en_route|].
    exists target. rewrite update_keeps_target, Hpos. tauto.
  - cbn. intros q. rewrite Hwait, Hsurv, Hcount. reflexivity.
  - cbn. now rewrite Hpos.
  - cbn. lia.
  - cbn [GameScene.gameState GameScene.cars].
    destruct (GameStateManager.checkGameOver cfg destinations');
      [|exact Hscore'].
    unfold GameStateManager.endGame. cbn [GameStateManager.score].
    exact Hscore'.
Qed.

Lemma scene_spawn_inv (cfg : GameConfig.t) (seen : list GridPos)
    (history : list RoadOp) (house : House.t)
    (s : GameScene.t) (spawned : nat) :
  sceneInv cfg seen s spawned ->
  exists s' spawned',
    applySceneEvent cfg (Some (s, spawned)) (HouseFires history house)
      = Some (s', spawned') /\
    sceneInv cfg seen s' spawned'.
Proof.
  intros ((Hnd & Hcars & Hcount) & Hseen & Hle & Hscore).
  cbn [applySceneEvent].
  destruct (spawnCar_spec cfg history house (GameScene.cars s)
              (GameScene.destinations s))
    as (cars' & destinations' & -> & Hcase).
  eexists. eexists. split; [reflexivity|].
  destruct Hcase as [(-> & -> & _) | Hcase].
  - rewrite Nat.sub_diag, Nat.add_0_r.
    split; [split; [|split]|split; [|split]]; assumption.
  - destruct Hcase as (nearestRoad & d & l1 & l2 & dnr & path & Hnear & Hd
                       & -> & Hfirst & Hcol & Hdnr & Hpath & Hroad & ->).
    assert (Hposeq :
      map Destination.getGridPosition
          (l1 ++ Destination.addWaitingCar d :: l2)
      = map Destination.getGridPosition (GameScene.destinations s)).
    { rewrite Hd, !map_app. reflexivity. }
    rewrite length_app. simpl List.length.
    replace (spawned + (List.length (GameScene.cars s) + 1
                        - List.length (GameScene.cars s)))%nat
      with (S spawned) by lia.
    split; [split; [|split]|split; [|split]];
      cbn [GameScene.cars GameScene.destinations GameScene.gameState].
    + now rewrite Hposeq.
    + intros c Hc. apply in_app_iff in Hc. destruct Hc as [Hc | [<- | []]].
      * destruct (Hcars c Hc) as (Hroute & target & Ht & Hin).
        split; [assumption|]. exists target. rewrite Hposeq. tauto.
      * split.
        -- apply spawnedCar_en_route.
           eapply roadPath_nonempty; eassumption.
        -- exists (Destination.getGridPosition d). split; [reflexivity|].
           rewrite Hposeq, Hd. apply in_map, in_app_iff. right. now left.
    + intros q. rewrite carsFor_app, <- Hcount, Hd.
      rewrite Hd in Hnd. rewrite (waitingAt_assigned q d l1 l2 Hnd).
      enough (TrafficManager.atTarget q d
              = headsFor q (spawnedCar cfg house nearestRoad d path)) as ->
        by reflexivity.
      apply eq_true_iff_eq. rewrite atTarget_iff, headsFor_iff. cbn.
      split; congruence.
    + now rewrite Hposeq.
    + rewrite length_app. simpl List.length. lia.
    + rewrite Hscore, length_app. simpl List.length. f_equal. lia.
Qed.

Lemma scene_open_inv (cfg : GameConfig.t) (seen : list GridPos)
    (p : GridPos) (color : Z) (s : GameScene.t) (spawned : nat) :
  sceneInv cfg seen s spawned -> ~ In p seen ->
  sceneInv cfg (p :: seen)
    {| GameScene.gameState := GameScene.gameState s;
       GameScene.cars := GameScene.cars s;
       GameScene.destinations :=
         GameScene.destinations s ++ [Destination.create p color] |}
    spawned.
Proof.
  intros ((Hnd & Hcars & Hcount) & Hseen & Hle & Hscore) Hfresh.
  assert (Hpos :
    map Destination.getGridPosition
        (GameScene.destinations s ++ [Destination.create p color])
    = map Destination.getGridPosition (GameScene.destinations s) ++ [p]).
  { rewrite map_app. simpl. now destruct p. }
  split; [split; [|split]|split; [|split]]; cbn.
  - rewrite Hpos. apply NoDup_app; [assumption | repeat constructor; simpl; tauto|].
    intros a Ha [<- | []]. auto.
  - intros c Hc. destruct (Hcars c Hc) as (Hroute & target & Ht & Hin).
    split; [assumption|]. exists target. rewrite Hpos, in_app_iff. tauto.
  - intros q. now rewrite waitingAt_opened.
  - rewrite Hpos. intros a Ha. apply in_app_iff in Ha. simpl.
    destruct Ha as [Ha | [<- | []]]; auto.
  - assumption.
  - assumption.
Qed.

(** Any run of the scene whose destinations open on distinct cells goes
    through, and keeps the invariant. *)
Lemma scene_run_inv (cfg : GameConfig.t) (events : list SceneEvent) :
  forall seen s spawned,
    sceneInv cfg seen s spawned ->
    freshOpenings seen events ->
    exists s' spawned' seen',
      fold_left (applySceneEvent cfg) events (Some (s, spawned))
        = Some (s', spawned') /\
      sceneInv cfg seen' s' spawned'.
Proof.
  induction events as [|e events IH]; intros seen s spawned Hinv Hfresh.
  - exists s, spawned, seen. split; [reflexivity | assumption].
  - cbn [fold_left]. destruct e as [history house | delta | p color].
    + destruct (scene_spawn_inv cfg seen history house s spawned Hinv)
        as (s1 & spawned1 & -> & Hinv1).
      now apply (IH seen).
    + cbn [applySceneEvent].
      apply (IH seen); [now apply scene_tick_inv | assumption].
    + cbn [applySceneEvent]. destruct Hfresh as [Hnew Hrest].
      apply (IH (p :: seen)); [now apply scene_open_inv | assumption].
Qed.

Lemma scene_initial_inv (cfg : GameConfig.t) (now : Z) :
  sceneInv cfg [] (GameScene.create now) 0.
Proof.
  split; [split; [|split]|split; [|split]]; cbn.
  - constructor.
  - intros c [].
  - intros q. reflexivity.
  - intros p [].
  - lia.
  - lia.
Qed.

(** Bookkeeping of a whole run of the scene (houses firing on whatever
    road has been built by then, frames, destinations opening on distinct
    cells): the run goes through, and at its end every destination's
    counter is exactly the number of live cars heading for its cell; every
    live car is en route to a registered destination.  In particular the
    clamp of [removeWaitingCar] is never exercised by the scene. *)
Theorem scene_counters_match_cars
    (cfg : GameConfig.t) (now : Z) (events : list SceneEvent) :
  freshOpenings [] events ->
  exists s spawned,
    runScene cfg now events = Some (s, spawned) /\
    NoDup (map Destination.getGridPosition (GameScene.destinations s)) /\
    (forall d, In d (GameScene.destinations s) ->
       Destination.waitingCars d
       = carsFor (Destination.getGridPosition d) (GameScene.cars s)) /\
    (forall c, In c (GameScene.cars s) ->
       enRoute c /\
       exists d, In d (GameScene.destinations s) /\
                 Car.targetDestination c
                 = Some (Destination.getGridPosition d)).
Proof.
  intros Hfresh.
  destruct (scene_run_inv cfg events [] (GameScene.create now) 0
              (scene_initial_inv cfg now) Hfresh)
    as (s & spawned & seen & Hrun & (Hnd & Hcars & Hcount) & _).
  exists s, spawned. split; [exact Hrun|]. split; [exact Hnd|]. split.
  - intros d Hd. rewrite <- Hcount. symmetry. now apply waitingAt_member.
  - intros c Hc. destruct (Hcars c Hc) as (Hroute & target & Ht & Hin).
    split; [exact Hroute|]. apply in_map_iff in Hin.
    destruct Hin as (d & <- & Hd). now exists d.
Qed.

Lemma scene_counters_match_cars_witness :
  freshOpenings [] corridorRun /\
  exists s spawned,
    runScene GameConfig.lenient 0 corridorRun = Some (s, spawned) /\
    NoDup (map Destination.getGridPosition (GameScene.destinations s)) /\
    (forall d, In d (GameScene.destinations s) ->
       Destination.waitingCars d
       = carsFor (Destination.getGridPosition d) (GameScene.cars s)) /\
    (forall c, In c (GameScene.cars s) ->
       enRoute c /\
       exists d, In d (GameScene.destinations s) /\
                 Car.targetDestination c
                 = Some (Destination.getGridPosition d)).
Proof.
  assert (H : freshOpenings [] corridorRun).
  { simpl. split; [intros [] | exact I]. }
  split; [exact H|].
  exact (scene_counters_match_cars GameConfig.lenient 0 corridorRun H).
Defined.

(** The score at the end of such a run is [POINTS_PER_DELIVERY] times the
    number of cars spawned and no longer live: every car that leaves the
    live list has been paid for once, and nothing else changes the score. *)
Theorem scene_score_counts_deliveries
    (cfg : GameConfig.t) (now : Z) (events : list SceneEvent) :
  freshOpenings [] events ->
  exists s spawned,
    runScene cfg now events = Some (s, spawned) /\
    (List.length (GameScene.cars s) <= spawned)%nat /\
    GameStateManager.getScore (GameScene.gameState s)
    = GameConfig.POINTS_PER_DELIVERY cfg
      * Z.of_nat (spawned - List.length (GameScene.cars s)).
Proof.
  intros Hfresh.
  destruct (scene_run_inv cfg events [] (GameScene.create now) 0
              (scene_initial_inv cfg now) Hfresh)
    as (s & spawned & seen & Hrun & _ & _ & Hle & Hscore).
  exists s, spawned. split; [exact Hrun|]. split; [exact Hle|].
  unfold GameStateManager.getScore. rewrite Hscore. f_equal. lia.
Qed.

Lemma scene_score_counts_deliveries_witness :
  freshOpenings [] corridorRun /\
  exists s spawned,
    runScene GameConfig.original 0 corridorRun = Some (s, spawned) /\
    (List.length (GameScene.cars s) <= spawned)%nat /\
    GameStateManager.getScore (GameScene.gameState s)
    = GameConfig.POINTS_PER_DELIVERY GameConfig.original
      * Z.of_nat (spawned - List.length (GameScene.cars s)).
Proof.
  assert (H : freshOpenings [] corridorRun).
  { simpl. split; [intros [] | exact I]. }
  split; [exact H|].
  exact (scene_score_counts_deliveries GameConfig.original 0 corridorRun H).
Defined.

(* ------------------------------------------------------------------ *)
(** ** The line of [RoadBuilder.getPathBetween] *)

Lemma last_cons_default {A : Type} (a d : A) (l : list A) :
  last (a :: l) d = last l a.
Proof.
  revert a d. induction l as [|b l IH]; intros a d; [reflexivity|].
  change (last (a :: b :: l) d) with (last (b :: l) d).
  now rewrite (IH b d), (IH b a).
Qed.

(** The loop from a state with [a] columns and [b] rows still to cover:
    the error term is then [dx - dy + a * dy - b * dx], the loop never
    steps past the end on either axis, and it steps on the longer axis
    at every turn. *)
Lemma trace_line (fuel : nat) :
  forall x y x1 y1 dx dy sx sy err a b,
    0 <= a <= dx -> 0 <= b <= dy ->
    sx = 1 \/ sx = -1 -> sy = 1 \/ sy = -1 ->
    x1 = x + sx * a -> y1 = y + sy * b ->
    err = dx - dy + a * dy - b * dx ->
    (dy < dx -> dx - 2 * dy <= 2 * err) ->
    (dx < dy -> 2 * err <= 2 * dx - dy) ->
    (dx = dy -> err = 0) ->
    (Z.to_nat (a + b) < fuel)%nat ->
    exists path,
      RoadBuilder.trace fuel x y x1 y1 dx dy sx sy err
        = Some ((x, y) :: path) /\
      last path (x, y) = (x1, y1) /\
      stepwise (stepTowards (x1, y1)) ((x, y) :: path) /\
      (dy <= dx -> Z.of_nat (List.length path) = a) /\
      (dx <= dy -> Z.of_nat (List.length path) = b).
Proof.
  induction fuel as [|fuel IH];
    intros x y x1 y1 dx dy sx sy err a b Ha Hb Hsx Hsy Hx Hy Herr HP HQ HE
           Hfuel; [lia|].
  cbn [RoadBuilder.trace].
  destruct (Z.eqb_spec x x1) as [Hxe | Hxn];
    [destruct (Z.eqb_spec y y1) as [Hye | Hyn]|]; cbn [andb].
  - exists []. assert (a = 0) by lia. assert (b = 0) by lia. subst a b.
    split; [reflexivity|]. split; [cbn; congruence|]. split; [exact I|].
    split; reflexivity.
  - (* the column is reached, rows remain *)
    assert (a = 0) by lia. subst a.
    assert (0 < b) by lia.
    assert (0 <= dx * (b - 1)) by (apply Z.mul_nonneg_nonneg; lia).
    assert (Hnx : (- dy <? 2 * err) = false) by (apply Z.ltb_ge; lia).
    assert (Hsy' : (2 * err <? dx) = true) by (apply Z.ltb_lt; lia).
    cbv zeta. rewrite Hnx, Hsy'.
    destruct (IH x (y + sy) x1 y1 dx dy sx sy (err + dx) 0 (b - 1))
      as (path & Hp & Hlast & Hchain & Hlx & Hly); try lia.
    exists ((x, y + sy) :: path). rewrite Hp. cbn [option_map].
    split; [reflexivity|]. split; [now rewrite last_cons_default|].
    split; [|split; intros; cbn [List.length]; lia].
    split; [|exact Hchain].
    split; [intros [=]; lia|]. cbn [fst snd]. split; [now left|]. right. lia.
  - destruct (Z.ltb_spec (- dy) (2 * err)) as [HstepX | HnoX];
      destruct (Z.ltb_spec (2 * err) dx) as [HstepY | HnoY]; cbv zeta.
    + (* both axes step *)
      assert (0 < a) by lia.
      assert (0 < b).
      { destruct (Z.eq_dec b 0) as [-> | ]; [|lia].
        assert (0 <= dy * (a - 1)) by (apply Z.mul_nonneg_nonneg; lia).
        lia. }
      destruct (IH (x + sx) (y + sy) x1 y1 dx dy sx sy (err - dy + dx)
                  (a - 1) (b - 1))
        as (path & Hp & Hlast & Hchain & Hlx & Hly); try lia.
      exists ((x + sx, y + sy) :: path). rewrite Hp. cbn [option_map].
      split; [reflexivity|]. split; [now rewrite last_cons_default|].
      split; [|split; intros; cbn [List.length]; lia].
      split; [|exact Hchain].
      split; [intros [=]; lia|]. cbn [fst snd]. split; right; lia.
    + (* the column steps alone *)
      assert (0 < a) by lia.
      assert (dy <= dx) by lia.
      destruct (IH (x + sx) y x1 y1 dx dy sx sy (err - dy) (a - 1) b)
        as (path & Hp & Hlast & Hchain & Hlx & Hly); try lia.
      exists ((x + sx, y) :: path). rewrite Hp. cbn [option_map].
      split; [reflexivity|]. split; [now rewrite last_cons_default|].
      split; [|split; intros; cbn [List.length]; lia].
      split; [|exact Hchain].
      split; [intros [=]; lia|]. cbn [fst snd]. split; [right; lia | now left].
    + (* the row steps alone *)
      assert (0 < b).
      { destruct (Z.eq_dec b 0) as [-> | ]; [|lia].
        assert (0 <= dy * (a - 1)) by (apply Z.mul_nonneg_nonneg; lia).
        lia. }
      assert (dx <= dy) by lia.
      destruct (IH x (y + sy) x1 y1 dx dy sx sy (err + dx) a (b - 1))
        as (path & Hp & Hlast & Hchain & Hlx & Hly); try lia.
      exists ((x, y + sy) :: path). rewrite Hp. cbn [option_map].
      split; [reflexivity|]. split; [now rewrite last_cons_default|].
      split; [|split; intros; cbn [List.length]; lia].
      split; [|exact Hchain].
      split; [intros [=]; lia|]. cbn [fst snd]. split; [now left | right; lia].
    + lia.
Qed.

Lemma stepTowards_closer (finish a b : GridPos) :
  stepTowards finish a b ->
  Pathfinding.heuristic b finish < Pathfinding.heuristic a finish.
Proof.
  unfold stepTowards, Pathfinding.heuristic.
  destruct a as [ax ay], b as [bx by_], finish as [fx fy]. cbn [fst snd].
  intros (Hne & Hx & Hy).
  assert (bx <> ax \/ by_ <> ay).
  { destruct (Z.eq_dec bx ax) as [-> | ]; [|now left].
    right. intros ->. now apply Hne. }
  lia.
Qed.

Lemma stepwise_later (finish a : GridPos) (path : list GridPos) :
  stepwise (stepTowards finish) (a :: path) ->
  forall c, In c path ->
            Pathfinding.heuristic c finish < Pathfinding.heuristic a finish.
Proof.
  revert a. induction path as [|b path IH]; intros a Hchain c Hc; [easy|].
  destruct Hchain as [Hstep Hrest].
  pose proof (stepTowards_closer _ _ _ Hstep).
  destruct Hc as [<- | Hc]; [assumption|].
  specialize (IH b Hrest c Hc). lia.
Qed.

Lemma stepwise_NoDup (finish : GridPos) (path : list GridPos) :
  stepwise (stepTowards finish) path -> NoDup path.
Proof.
  induction path as [|a path IH]; intros Hchain; constructor.
  - intros Hin. pose proof (stepwise_later finish a path Hchain a Hin). lia.
  - apply IH. destruct path; [exact I | apply Hchain].
Qed.

Lemma stepwise_aligned (finish a : GridPos) (path : list GridPos) :
  aligned a finish ->
  stepwise (stepTowards finish) (a :: path) ->
  stepwise adjacent4 (a :: path).
Proof.
  revert a. induction path as [|b path IH]; intros a Hal Hchain; [exact I|].
  destruct Hchain as [Hstep Hrest].
  assert (Hb : adjacent4 a b /\ aligned b finish).
  { unfold stepTowards, aligned, adjacent4, directions, shift in *.
    destruct a as [ax ay], b as [bx by_], finish as [fx fy].
    cbn [fst snd] in *. destruct Hstep as (Hne & Hx & Hy).
    assert (bx <> ax \/ by_ <> ay).
    { destruct (Z.eq_dec bx ax) as [-> | ]; [|now left].
      right. intros ->. now apply Hne. }
    destruct Hal as [Hal | Hal].
    - assert (bx = ax) by lia. subst bx. split; [|left; lia].
      destruct (Z.eq_dec by_ (ay + 1)) as [-> | ].
      + exists (0, 1). cbn. split; [tauto | f_equal; lia].
      + exists (0, -1). cbn. split; [tauto | f_equal; lia].
    - assert (by_ = ay) by lia. subst by_. split; [|right; lia].
      destruct (Z.eq_dec bx (ax + 1)) as [-> | ].
      + exists (1, 0). cbn. split; [tauto | f_equal; lia].
      + exists (-1, 0). cbn. split; [tauto | f_equal; lia]. }
  split; [apply Hb | apply IH; [apply Hb | exact Hrest]].
Qed.

(** What [getPathBetween] returns, for any two cells. *)
Lemma getPathBetween_spec (start finish : GridPos) :
  exists path,
    RoadBuilder.getPathBetween start finish = Some (start :: path) /\
    last path start = finish /\
    stepwise (stepTowards finish) (start :: path) /\
    Z.of_nat (List.length path)
    = Z.max (Z.abs (fst finish - fst start)) (Z.abs (snd finish - snd start)).
Proof.
  destruct start as [x0 y0], finish as [x1 y1].
  unfold RoadBuilder.getPathBetween, RoadBuilder.getPathBetweenWithin,
    RoadBuilder.traceBound. cbn [fst snd]. cbv zeta.
  destruct (trace_line
              (S (Z.to_nat (Z.abs (x1 - x0) + Z.abs (y1 - y0))))
              x0 y0 x1 y1 (Z.abs (x1 - x0)) (Z.abs (y1 - y0))
              (if x0 <? x1 then 1 else -1) (if y0 <? y1 then 1 else -1)
              (Z.abs (x1 - x0) - Z.abs (y1 - y0))
              (Z.abs (x1 - x0)) (Z.abs (y1 - y0)))
    as (path & Hp & Hlast & Hchain & Hlx & Hly);
    try (destruct (Z.ltb_spec x0 x1), (Z.ltb_spec y0 y1); lia).
  exists path. split; [exact Hp|]. split; [exact Hlast|].
  split; [exact Hchain|].
  destruct (Z.le_ge_cases (Z.abs (y1 - y0)) (Z.abs (x1 - x0))) as [H | H].
  - etransitivity; [exact (Hlx H) | lia].
  - etransitivity; [exact (Hly H) | lia].
Qed.

(** The line between two cells within [coordLimit]: the loop ends, the
    path runs from the start cell to the end cell, every step moves one
    cell towards the end along one or both axes (so a step may be
    diagonal), no cell is visited twice, and the number of steps is the
    longer of the two extents.  Between two cells of one row or one column
    every step is to one of the four neighbours. *)
Theorem getPathBetween_line (start finish : GridPos) :
  inRange start = true ->
  inRange finish = true ->
  exists path,
    RoadBuilder.getPathBetween start finish = Some path /\
    hd_error path = Some start /\
    last path start = finish /\
    stepwise (stepTowards finish) path /\
    NoDup path /\
    edgeCount path
    = Z.max (Z.abs (fst finish - fst start)) (Z.abs (snd finish - snd start)) /\
    (aligned start finish -> stepwise adjacent4 path).
Proof.
  intros _ _.
  destruct (getPathBetween_spec start finish)
    as (path & Hp & Hlast & Hchain & Hlen).
  exists (start :: path). split; [exact Hp|]. split; [reflexivity|].
  split; [now rewrite last_cons_default|]. split; [exact Hchain|].
  split; [now apply (stepwise_NoDup finish)|].
  split; [unfold edgeCount; cbn [List.length]; lia|].
  intros Hal. now apply (stepwise_aligned finish).
Qed.

Lemma getPathBetween_line_witness :
  inRange (0, 0) = true /\
  inRange (5, 2) = true /\
  exists path,
    RoadBuilder.getPathBetween (0, 0) (5, 2) = Some path /\
    last path (0, 0) = (5, 2) /\
    NoDup path /\
    edgeCount path = 5.
Proof.
  split; [reflexivity|]. split; [reflexivity|].
  destruct (getPathBetween_line (0, 0) (5, 2) eq_refl eq_refl)
    as (path & Hp & _ & Hlast & _ & Hnd & Hlen & _).
  exists path. split; [exact Hp|]. split; [exact Hlast|].
  split; [exact Hnd | exact Hlen].
Defined.

Lemma last_in_cons {A : Type} (a : A) (l : list A) : In (last l a) (a :: l).
Proof.
  revert a. induction l as [|b l IH]; intros a; [now left|].
  right. rewrite last_cons_default. apply IH.
Qed.

Lemma addSegment_cells (p c : GridPos) (r : Road.t) :
  Road.hasSegment c (snd (Road.addSegment p r)) = true <->
  c = p \/ Road.hasSegment c r = true.
Proof.
  destruct (Road.hasSegment p r) eqn:Hocc.
  - rewrite addSegment_occupied by assumption. simpl.
    split; [tauto|]. intros [-> | H]; assumption.
  - destruct (addSegment_free p r Hocc) as (seg & m & -> & Hk & _).
    simpl. unfold Road.hasSegment. rewrite !jsmap_has_keys.
    unfold JsMap.keys. rewrite map_app, in_app_iff. fold (JsMap.keys m).
    rewrite Hk. simpl. split.
    + intros [H | [H | []]]; [tauto|]. left. now apply cellKey_inj.
    + intros [-> | H]; tauto.
Qed.

Lemma addSegments_cells (path : list GridPos) (c : GridPos) :
  forall r,
    Road.hasSegment c
      (fold_left (fun r segment => snd (Road.addSegment segment r)) path r)
    = true
    <-> In c path \/ Road.hasSegment c r = true.
Proof.
  induction path as [|p path IH]; intros r; cbn [fold_left In].
  - tauto.
  - rewrite IH, addSegment_cells. split.
    + intros [H | [H | H]]; auto.
    + intros [[H | H] | H]; auto.
Qed.

Lemma buildRoad_then_add (ops : list RoadOp) (path : list GridPos) :
  fold_left (fun r segment => snd (Road.addSegment segment r)) path
            (buildRoad ops)
  = buildRoad (ops ++ map AddSegment path).
Proof.
  unfold buildRoad. rewrite fold_left_app. generalize (fold_left applyOp ops Road.create).
  induction path as [|p path IH]; intros r; [reflexivity|]. apply IH.
Qed.

Lemma stepwise_roadPath (r : Road.t) (e : GridPos) (path : list GridPos) :
  forall a,
    stepwise adjacent4 (a :: path) ->
    (forall c, In c (a :: path) -> Road.hasSegment c r = true) ->
    last path a = e ->
    roadPath r a e (a :: path).
Proof.
  induction path as [|b path IH]; intros a Hchain Hocc Hlast.
  - cbn in Hlast. subst e. constructor. apply Hocc. now left.
  - destruct Hchain as [Hstep Hrest].
    apply roadPath_cons with (b := b); [apply Hocc; now left | exact Hstep|].
    apply IH; [exact Hrest | intros c Hc; apply Hocc; now right|].
    now rewrite <- last_cons_default with (d := a).
Qed.

(** Dragging a road between two cells of one row or one column, on a road
    reached by any history of calls, all cells within [coordLimit]:
    afterwards the occupied cells are the old ones and those of the line,
    and the router finds a route from the start cell to the end cell whose
    length is their distance. *)
Theorem straight_drag_connects
    (ops : list RoadOp) (start finish : GridPos) :
  opsInRange ops = true ->
  inRange start = true ->
  inRange finish = true ->
  aligned start finish ->
  exists path r' p,
    RoadBuilder.getPathBetween start finish = Some path /\
    RoadBuilder.buildRoadPath (buildRoad ops) start finish = Some r' /\
    (forall c, Road.hasSegment c r' = true <->
               In c path \/ Road.hasSegment c (buildRoad ops) = true) /\
    Pathfinding.findPath r' start finish = Some p /\
    roadPath r' start finish p /\
    edgeCount p = Pathfinding.heuristic start finish.
Proof.
  intros _ _ _ Hal.
  destruct (getPathBetween_spec start finish)
    as (path & Hp & Hlast & Hchain & Hlen).
  unfold RoadBuilder.buildRoadPath. rewrite Hp. cbn [option_map].
  set (r' := fold_left _ (start :: path) (buildRoad ops)).
  assert (Hcells : forall c, Road.hasSegment c r' = true <->
                     In c (start :: path)
                     \/ Road.hasSegment c (buildRoad ops) = true)
    by (intros c; apply addSegments_cells).
  assert (Hinv : roadInvariant r').
  { unfold r'. rewrite buildRoad_then_add. apply buildRoad_invariant. }
  assert (Hline : roadPath r' start finish (start :: path)).
  { apply stepwise_roadPath; [now apply (stepwise_aligned finish)| |exact Hlast].
    intros c Hc. apply Hcells. now left. }
  pose proof (roadPath_walk _ _ _ _ Hinv Hline) as Hwalk.
  destruct (findPath_spec r' start finish Hinv) as (p & Hfp & _ & Hocc).
  exists (start :: path), r', p.
  split; [reflexivity|]. split; [reflexivity|]. split; [exact Hcells|].
  split; [exact Hfp|].
  destruct Hocc as [_ [[_ Hno] | [Hroute Hmin]]].
  - apply Hcells. left. now left.
  - apply Hcells. left. rewrite <- Hlast. apply last_in_cons.
  - exfalso. exact (Hno _ Hwalk).
  - split; [exact Hroute|].
    pose proof (roadPath_manhattan _ _ _ _ Hroute).
    pose proof (Hmin _ Hwalk) as Hle.
    unfold edgeCount in *. cbn [List.length] in Hle.
    unfold Pathfinding.heuristic, aligned in *.
    destruct start as [x0 y0], finish as [x1 y1]. cbn [fst snd] in *. lia.
Qed.

Lemma straight_drag_connects_witness :
  opsInRange corridorOps = true /\
  aligned (2, 0) (2, 3) /\
  exists path r' p,
    RoadBuilder.getPathBetween (2, 0) (2, 3) = Some path /\
    RoadBuilder.buildRoadPath (buildRoad corridorOps) (2, 0) (2, 3)
      = Some r' /\
    (forall c, Road.hasSegment c r' = true <->
               In c path \/ Road.hasSegment c (buildRoad corridorOps) = true) /\
    Pathfinding.findPath r' (2, 0) (2, 3) = Some p /\
    roadPath r' (2, 0) (2, 3) p /\
    edgeCount p = Pathfinding.heuristic (2, 0) (2, 3).
Proof.
  assert (H : aligned (2, 0) (2, 3)) by (left; reflexivity).
  split; [reflexivity|]. split; [exact H|].
  exact (straight_drag_connects corridorOps (2, 0) (2, 3)
           eq_refl eq_refl eq_refl H).
Defined.

Lemma stepwise_no_farther (finish a : GridPos) (path : list GridPos) :
  stepwise (stepTowards finish) (a :: path) ->
  forall c, In c path ->
    Z.abs (fst finish - fst c) <= Z.abs (fst finish - fst a) /\
    Z.abs (snd finish - snd c) <= Z.abs (snd finish - snd a).
Proof.
  revert a. induction path as [|b path IH]; intros a Hchain c Hc; [easy|].
  destruct Hchain as [(_ & Hx & Hy) Hrest].
  assert (Z.abs (fst finish - fst b) <= Z.abs (fst finish - fst a) /\
          Z.abs (snd finish - snd b) <= Z.abs (snd finish - snd a)) by lia.
  destruct Hc as [<- | Hc]; [assumption|].
  specialize (IH b Hrest c Hc). lia.
Qed.

Lemma stepwise_extent (finish : GridPos) (path : list GridPos) :
  forall a,
    stepwise (stepTowards finish) (a :: path) ->
    last path a = finish ->
    Z.abs (fst finish - fst a) <= Z.of_nat (List.length path) /\
    Z.abs (snd finish - snd a) <= Z.of_nat (List.length path).
Proof.
  induction path as [|b path IH]; intros a Hchain Hlast.
  - cbn in Hlast. subst a. cbn. lia.
  - destruct Hchain as [(_ & Hx & Hy) Hrest].
    rewrite last_cons_default in Hlast.
    specialize (IH b Hrest Hlast). cbn [List.length]. lia.
Qed.

(** On a diagonal line every cell after the first lies in another row and
    another column than the first. *)
Lemma diagonal_cells_apart (start finish : GridPos) (path : list GridPos) :
  stepwise (stepTowards finish) (start :: path) ->
  last path start = finish ->
  Z.of_nat (List.length path) = Z.abs (fst finish - fst start) ->
  Z.abs (fst finish - fst start) = Z.abs (snd finish - snd start) ->
  forall c, In c path -> fst c <> fst start /\ snd c <> snd start.
Proof.
  intros Hchain Hlast Hlen Hdiag c Hc.
  destruct path as [|b path]; [easy|].
  destruct Hchain as [(_ & Hx & Hy) Hrest].
  rewrite last_cons_default in Hlast.
  pose proof (stepwise_extent finish path b Hrest Hlast) as [Hex Hey].
  cbn [List.length] in Hlen.
  destruct Hc as [<- | Hc]; [lia|].
  pose proof (stepwise_no_farther finish b path Hrest c Hc). lia.
Qed.

(** Dragging a road along an exact diagonal from a cell none of whose four
    neighbours is occupied, all cells within [coordLimit]: both ends
    become road cells, yet the start cell still has no neighbour, since no
    two cells of the line share a side, and the router finds no route
    between the two ends. *)
Theorem diagonal_drag_stays_isolated
    (ops : list RoadOp) (start finish : GridPos) :
  opsInRange ops = true ->
  inRange start = true ->
  inRange finish = true ->
  Z.abs (fst finish - fst start) = Z.abs (snd finish - snd start) ->
  start <> finish ->
  (forall c, adjacent4 start c ->
             Road.hasSegment c (buildRoad ops) = false) ->
  exists r',
    RoadBuilder.buildRoadPath (buildRoad ops) start finish = Some r' /\
    Road.hasSegment start r' = true /\
    Road.hasSegment finish r' = true /\
    Road.getNeighbors start r' = [] /\
    Pathfinding.findPath r' start finish = Some [].
Proof.
  intros _ _ _ Hdiag Hne Hfree.
  destruct (getPathBetween_spec start finish)
    as (path & Hp & Hlast & Hchain & Hlen).
  unfold RoadBuilder.buildRoadPath. rewrite Hp. cbn [option_map].
  set (r' := fold_left _ (start :: path) (buildRoad ops)).
  assert (Hcells : forall c, Road.hasSegment c r' = true <->
                     In c (start :: path)
                     \/ Road.hasSegment c (buildRoad ops) = true)
    by (intros c; apply addSegments_cells).
  assert (Hinv : roadInvariant r').
  { unfold r'. rewrite buildRoad_then_add. apply buildRoad_invariant. }
  assert (Hs : Road.hasSegment start r' = true).
  { apply Hcells. left. now left. }
  assert (Hf : Road.hasSegment finish r' = true).
  { apply Hcells. left. rewrite <- Hlast. apply last_in_cons. }
  assert (Hnone : Road.getNeighbors start r' = []).
  { destruct (Road.getNeighbors start r') as [|b rest] eqn:Hn; [reflexivity|].
    exfalso.
    assert (Hb : In b (Road.getNeighbors start r')) by (rewrite Hn; now left).
    apply (getNeighbors_spec r' start b Hinv) in Hb.
    destruct Hb as (Hadj & _ & Hocc).
    apply Hcells in Hocc. destruct Hocc as [[<- | Hin] | Hold].
    - destruct Hadj as (d & Hd & Heq). unfold shift in Heq.
      destruct start as [x y]. cbn [fst snd] in Heq.
      destruct Hd as [<- | [<- | [<- | [<- | []]]]]; cbn in Heq;
        injection Heq; lia.
    - assert (Hl : Z.of_nat (List.length path)
                   = Z.abs (fst finish - fst start)) by lia.
      destruct (diagonal_cells_apart start finish path Hchain Hlast Hl Hdiag
                  b Hin) as [Hx Hy].
      destruct Hadj as (d & Hd & ->). unfold shift in Hx, Hy.
      cbn [fst snd] in Hx, Hy.
      destruct Hd as [<- | [<- | [<- | [<- | []]]]]; cbn in Hx, Hy; lia.
    - rewrite (Hfree b Hadj) in Hold. discriminate. }
  assert (Hstay : forall c n, walk r' start c n -> c = start).
  { intros c n Hw. induction Hw as [|c w n Hw IH Hin]; [reflexivity|].
    subst c. rewrite Hnone in Hin. destruct Hin. }
  exists r'. split; [reflexivity|]. split; [exact Hs|]. split; [exact Hf|].
  split; [exact Hnone|].
  destruct (findPath_spec r' start finish Hinv) as (p & Hfp & _ & Hocc).
  rewrite Hfp. f_equal.
  destruct (Hocc Hs Hf) as [_ [[Hnil _] | [Hroute _]]]; [exact Hnil|].
  exfalso. apply Hne. symmetry.
  exact (Hstay _ _ (roadPath_walk _ _ _ _ Hinv Hroute)).
Qed.

Lemma diagonal_drag_stays_isolated_witness :
  opsInRange [] = true /\
  inRange (0, 0) = true /\
  inRange (3, 3) = true /\
  Z.abs (fst (3, 3) - fst (0, 0)) = Z.abs (snd (3, 3) - snd (0, 0)) /\
  (0, 0) <> (3, 3) /\
  (forall c, adjacent4 (0, 0) c -> Road.hasSegment c (buildRoad []) = false) /\
  exists r',
    RoadBuilder.buildRoadPath (buildRoad []) (0, 0) (3, 3) = Some r' /\
    Road.hasSegment (0, 0) r' = true /\
    Road.hasSegment (3, 3) r' = true /\
    Road.getNeighbors (0, 0) r' = [] /\
    Pathfinding.findPath r' (0, 0) (3, 3) = Some [].
Proof.
  assert (H1 : Z.abs (fst (3, 3) - fst (0, 0))
               = Z.abs (snd (3, 3) - snd (0, 0))) by reflexivity.
  assert (H2 : (0, 0) <> (3, 3)) by discriminate.
  assert (H3 : forall c, adjacent4 (0, 0) c ->
                         Road.hasSegment c (buildRoad []) = false)
    by (intros c _; reflexivity).
  split; [reflexivity|]. split; [reflexivity|]. split; [reflexivity|].
  split; [exact H1|]. split; [exact H2|]. split; [exact H3|].
  exact (diagonal_drag_stays_isolated [] (0, 0) (3, 3)
           eq_refl eq_refl eq_refl H1 H2 H3).
Defined.

(* ------------------------------------------------------------------ *)
(** ** Bookkeeping of [UpgradeManager] *)

Lemma hasUpgradeAt_cells (p : GridPos) (m : UpgradeManager.t) :
  UpgradeManager.hasUpgradeAt p m = true <->
  In p (map upgradeCell (UpgradeManager.upgrades m)).
Proof.
  unfold UpgradeManager.hasUpgradeAt. rewrite existsb_exists, in_map_iff.
  split; intros (u & H1 & H2); exists u.
  - split; [|assumption]. unfold UpgradeManager.atCell in H2.
    apply andb_true_iff in H2. destruct H2 as [Hx Hy].
    apply Z.eqb_eq in Hx, Hy. destruct p. unfold upgradeCell.
    cbn [fst snd] in *. congruence.
  - split; [assumption|]. subst p. unfold UpgradeManager.atCell, upgradeCell.
    cbn [fst snd]. now rewrite !Z.eqb_refl.
Qed.

Lemma getUpgradeCount_placed (m : UpgradeManager.t)
    (upgrades : list UpgradeManager.Upgrade)
    (selected type : UpgradeManager.UpgradeType) (n : Z) :
  UpgradeManager.getUpgradeCount type
    {| UpgradeManager.upgrades := upgrades;
       UpgradeManager.selectedUpgradeType :=
         UpgradeManager.selectedUpgradeType m;
       UpgradeManager.upgradeCounts :=
         JsMap.set (UpgradeManager.typeKey selected) n
                   (UpgradeManager.upgradeCounts m) |}
  = if UpgradeType_eqb selected type then n
    else UpgradeManager.getUpgradeCount type m.
Proof.
  unfold UpgradeManager.getUpgradeCount. cbn [UpgradeManager.upgradeCounts].
  rewrite jsmap_get_set. now destruct selected, type.
Qed.

(** What every sequence of selections and placements preserves. *)
Lemma runUpgradeCalls_inv (calls : list UpgradeCall) :
  let m := runUpgradeCalls calls in
  NoDup (map upgradeCell (UpgradeManager.upgrades m)) /\
  (forall type,
     UpgradeManager.getUpgradeCount type m
     = placedOfType type (UpgradeManager.upgrades m)) /\
  (forall u, In u (UpgradeManager.upgrades m) ->
     exists road,
       In (PlaceUpgrade road (upgradeCell u)) calls /\
       Road.hasSegment (upgradeCell u) road = true).
Proof.
  unfold runUpgradeCalls.
  induction calls as [|c calls IH] using rev_ind.
  - cbn. split; [constructor|]. split; [now intros []|]. intros u [].
  - rewrite fold_left_app. cbn [fold_left].
    set (m := fold_left applyUpgradeCall calls UpgradeManager.create) in *.
    cbv zeta in IH. destruct IH as (Hnd & Hcount & Hplaced).
    assert (Hkeep : forall u, In u (UpgradeManager.upgrades m) ->
              exists road,
                In (PlaceUpgrade road (upgradeCell u)) (calls ++ [c]) /\
                Road.hasSegment (upgradeCell u) road = true).
    { intros u Hu. destruct (Hplaced u Hu) as (road & Hin & Hocc).
      exists road. split; [|exact Hocc]. apply in_app_iff. now left. }
    destruct c as [type | road p]; cbn [applyUpgradeCall].
    + split; [exact Hnd|]. split; [exact Hcount | exact Hkeep].
    + unfold UpgradeManager.placeUpgrade.
      destruct (UpgradeManager.selectedUpgradeType m) as [selected|] eqn:Hsel;
        [|now split; [|split]].
      destruct (Road.hasSegment p road) eqn:Hroad; cbn [negb];
        [|now split; [|split]].
      destruct (UpgradeManager.hasUpgradeAt p m) eqn:Hhas;
        [now split; [|split]|].
      cbn [snd]. rewrite <- Hsel. split; [|split].
      * cbn [UpgradeManager.upgrades]. rewrite map_app. cbn [map].
        replace (upgradeCell _) with p by now destruct p.
        apply NoDup_app; [exact Hnd | repeat constructor; simpl; tauto|].
        intros a Ha [<- | []].
        apply hasUpgradeAt_cells in Ha. congruence.
      * intros type. rewrite getUpgradeCount_placed.
        cbn [UpgradeManager.upgrades]. unfold placedOfType.
        rewrite filter_app, length_app. cbn [filter UpgradeManager.type].
        rewrite !Hcount. unfold placedOfType.
        destruct selected, type; cbn [UpgradeType_eqb List.length]; lia.
      * cbn [UpgradeManager.upgrades]. intros u Hu.
        apply in_app_iff in Hu. destruct Hu as [Hu | [<- | []]];
          [now apply Hkeep|].
        exists road. replace (upgradeCell _) with p by now destruct p.
        split; [|exact Hroad]. apply in_app_iff. right. now left.
Qed.

(** The state of an [UpgradeManager] after any sequence of selections and
    placements: no two upgrades share a cell, the count kept for each type
    is the number of placed upgrades of that type, every upgrade was
    placed by a call on its cell made while that cell was a road cell,
    and [getUpgradeAt] answers the one upgrade on the cell, or [null]
    exactly when [hasUpgradeAt] answers [false]. *)
Theorem upgrades_bookkeeping (calls : list UpgradeCall) :
  let m := runUpgradeCalls calls in
  NoDup (map upgradeCell (UpgradeManager.upgrades m)) /\
  (forall type,
     UpgradeManager.getUpgradeCount type m
     = placedOfType type (UpgradeManager.upgrades m)) /\
  (forall u, In u (UpgradeManager.upgrades m) ->
     exists road,
       In (PlaceUpgrade road (upgradeCell u)) calls /\
       Road.hasSegment (upgradeCell u) road = true) /\
  (forall p,
     match UpgradeManager.getUpgradeAt p m with
     | Some u =>
         UpgradeManager.hasUpgradeAt p m = true /\
         forall u', In u' (UpgradeManager.upgrades m) ->
                    (upgradeCell u' = p <-> u' = u)
     | None => UpgradeManager.hasUpgradeAt p m = false
     end).
Proof.
  intros m. destruct (runUpgradeCalls_inv calls) as (Hnd & Hcount & Hplaced).
  fold m in Hnd, Hcount, Hplaced.
  split; [exact Hnd|]. split; [exact Hcount|]. split; [exact Hplaced|].
  intros p. unfold UpgradeManager.getUpgradeAt, UpgradeManager.hasUpgradeAt.
  destruct (find (UpgradeManager.atCell p) (UpgradeManager.upgrades m))
    as [u|] eqn:Hfind.
  - apply find_some in Hfind. destruct Hfind as [Hu Hat].
    assert (Hcell : upgradeCell u = p).
    { unfold UpgradeManager.atCell in Hat. apply andb_true_iff in Hat.
      destruct Hat as [Hx Hy]. apply Z.eqb_eq in Hx, Hy.
      destruct p. unfold upgradeCell. cbn [fst snd] in *. congruence. }
    split; [apply existsb_exists; now exists u|].
    intros u' Hu'. split; [|now intros ->].
    intros Hcell'. rewrite <- Hcell in Hcell'.
    clear - Hnd Hu Hu' Hcell'.
    induction (UpgradeManager.upgrades m) as [|x l IH]; [destruct Hu|].
    cbn [map] in Hnd. inversion Hnd as [|? ? Hx Hl]; subst.
    destruct Hu as [-> | Hu], Hu' as [-> | Hu']; [reflexivity | | |auto].
    + exfalso. apply Hx. rewrite <- Hcell'. now apply in_map.
    + exfalso. apply Hx. rewrite Hcell'. now apply in_map.
  - apply not_true_is_false. intros Hex. apply existsb_exists in Hex.
    destruct Hex as (u & Hu & Hat).
    now rewrite (find_none _ _ Hfind u Hu) in Hat.
Qed.

(* ------------------------------------------------------------------ *)
(** ** The alternation of [SpawnManager.spawnBuilding] *)

Lemma spawnHouse_counts random cfg road st :
  let st' := SpawnManager.spawnHouse random cfg road st in
  SpawnManager.destinations st' = SpawnManager.destinations st /\
  (SpawnManager.houses st' = SpawnManager.houses st \/
   exists house, SpawnManager.houses st' = SpawnManager.houses st ++ [house]).
Proof.
  unfold SpawnManager.spawnHouse.
  destruct (SpawnManager.findValidSpawnPosition random cfg road st)
    as [[position|] i]; cbn; eauto.
Qed.

Lemma spawnDestination_counts random cfg road st :
  let st' := SpawnManager.spawnDestination random cfg road st in
  SpawnManager.houses st' = SpawnManager.houses st /\
  (SpawnManager.destinations st' = SpawnManager.destinations st \/
   exists destination,
     SpawnManager.destinations st'
     = SpawnManager.destinations st ++ [destination]).
Proof.
  unfold SpawnManager.spawnDestination.
  destruct (SpawnManager.findValidSpawnPosition random cfg road st)
    as [[position|] i]; cbn; eauto.
Qed.

(** When buildings are placed by [spawnBuilding] only, as the spawn timer
    does, houses and destinations alternate, whatever the random draws and
    whichever placements fail: there are never fewer houses than
    destinations and never more than one house in excess, and each call
    places at most one building. *)
Theorem spawnBuilding_alternates
    (random : nat -> float) (cfg : GameConfig.t) (roads : list Road.t) :
  let st := runSpawns random cfg (map CallSpawnBuilding roads) in
  let houses := List.length (SpawnManager.houses st) in
  let destinations := List.length (SpawnManager.destinations st) in
  (destinations <= houses <= destinations + 1)%nat /\
  (houses + destinations <= List.length roads)%nat.
Proof.
  unfold runSpawns. induction roads as [|road roads IH] using rev_ind.
  - cbn. lia.
  - rewrite map_app, fold_left_app. cbn [map fold_left applySpawn].
    set (st := fold_left (applySpawn random cfg) (map CallSpawnBuilding roads)
                 SpawnManager.create) in *.
    cbv zeta in IH |- *. rewrite length_app. cbn [List.length].
    unfold SpawnManager.spawnBuilding.
    destruct (Nat.leb_spec (List.length (SpawnManager.houses st))
                           (List.length (SpawnManager.destinations st))).
    + destruct (spawnHouse_counts random cfg road st) as [-> [-> | [h ->]]];
        rewrite ?length_app; cbn [List.length]; lia.
    + destruct (spawnDestination_counts random cfg road st)
        as [-> [-> | [d ->]]];
        rewrite ?length_app; cbn [List.length]; lia.
Qed.

(* ------------------------------------------------------------------ *)
(** ** The spawn cadence *)

(** The delay armed by the [n + 1]-th call of [scheduleNextSpawn], when
    the configured decrease is not negative: the initial interval lowered
    by [n + 1] decreases, but never below the configured minimum; the
    delays never grow, and once the minimum is reached it is kept. *)
Theorem scheduleNextSpawn_ramp (c : SpawnCadence.t) (n : nat) :
  0 <= SpawnCadence.SPAWN_INTERVAL_DECREASE c ->
  SpawnCadence.intervalAfter c (S n)
  = Z.max (SpawnCadence.MIN_SPAWN_INTERVAL c)
          (SpawnCadence.SPAWN_INTERVAL c
           - Z.of_nat (S n) * SpawnCadence.SPAWN_INTERVAL_DECREASE c) /\
  SpawnCadence.MIN_SPAWN_INTERVAL c <= SpawnCadence.intervalAfter c (S n) /\
  SpawnCadence.intervalAfter c (S (S n))
  <= SpawnCadence.intervalAfter c (S n) /\
  (SpawnCadence.intervalAfter c (S n) = SpawnCadence.MIN_SPAWN_INTERVAL c ->
   SpawnCadence.intervalAfter c (S (S n))
   = SpawnCadence.MIN_SPAWN_INTERVAL c).
Proof.
  intros Hdec.
  assert (Hform : forall k,
    SpawnCadence.intervalAfter c (S k)
    = Z.max (SpawnCadence.MIN_SPAWN_INTERVAL c)
            (SpawnCadence.SPAWN_INTERVAL c
             - Z.of_nat (S k) * SpawnCadence.SPAWN_INTERVAL_DECREASE c)).
  { induction k as [|k IH].
    - unfold SpawnCadence.intervalAfter, SpawnCadence.scheduleNextSpawn.
      cbv [Nat.iter nat_rect]. lia.
    - change (SpawnCadence.intervalAfter c (S (S k)))
        with (SpawnCadence.scheduleNextSpawn c
                (SpawnCadence.intervalAfter c (S k))).
      rewrite IH. unfold SpawnCadence.scheduleNextSpawn.
      rewrite (Nat2Z.inj_succ (S k)), Z.mul_succ_l. lia. }
  split; [apply Hform|].
  rewrite (Hform (S n)), (Hform n). lia.
Qed.

Lemma scheduleNextSpawn_ramp_witness :
  0 <= SpawnCadence.SPAWN_INTERVAL_DECREASE SpawnCadence.lenient /\
  SpawnCadence.intervalAfter SpawnCadence.lenient 100 = 4000.
Proof.
  assert (H : 0 <= SpawnCadence.SPAWN_INTERVAL_DECREASE SpawnCadence.lenient)
    by (cbn; lia).
  split; [exact H|].
  rewrite (proj1 (scheduleNextSpawn_ramp SpawnCadence.lenient 99 H)).
  reflexivity.
Defined.

(* ------------------------------------------------------------------ *)
(** ** When the scene ends the game *)

Lemma checkGameOver_iff (cfg : GameConfig.t)
    (destinations : list Destination.t) :
  GameStateManager.checkGameOver cfg destinations = true <->
  exists d, In d destinations /\
            GameConfig.MAX_CARS_PER_DESTINATION cfg
              <= Destination.waitingCars d.
Proof.
  induction destinations as [|d0 rest IH]; cbn [GameStateManager.checkGameOver].
  - split; [discriminate | intros (d & [] & _)].
  - unfold Destination.getWaitingCars.
    destruct (Z.leb_spec (GameConfig.MAX_CARS_PER_DESTINATION cfg)
                         (Destination.waitingCars d0)) as [Hle | Hlt].
    + split; [|reflexivity]. intros _. exists d0. split; [now left | exact Hle].
    + rewrite IH. split.
      * intros (d & Hd & Hle). exists d. split; [now right | exact Hle].
      * intros (d & [<- | Hd] & Hle); [lia|]. now exists d.
Qed.

Lemma scene_tick_over (cfg : GameConfig.t) (delta : float) (s : GameScene.t) :
  overInv cfg s -> overInv cfg (GameScene.update cfg delta s).
Proof.
  intros Hover. unfold GameScene.update.
  destruct (negb _) eqn:Hplaying; [exact Hover|].
  destruct (TrafficManager.update cfg delta (GameScene.cars s)
              (GameScene.destinations s)) as [cars' destinations'].
  unfold overInv. cbn [GameScene.gameState GameScene.destinations].
  assert (Hstate : GameStateManager.getState (GameScene.gameState s)
                   = GameStateManager.PLAYING).
  { destruct (GameStateManager.getState (GameScene.gameState s));
      [discriminate | reflexivity | discriminate]. }
  destruct (GameStateManager.checkGameOver cfg destinations') eqn:Hover'.
  - right. split; reflexivity.
  - left. destruct (0 <? _); exact Hstate.
Qed.

Lemma scene_run_over (cfg : GameConfig.t) (events : list SceneEvent) :
  forall s spawned s' spawned',
    fold_left (applySceneEvent cfg) events (Some (s, spawned))
      = Some (s', spawned') ->
    overInv cfg s -> overInv cfg s'.
Proof.
  induction events as [|e events IH];
    intros s spawned s' spawned' Hrun Hover.
  - cbn in Hrun. now injection Hrun as <- _.
  - cbn [fold_left] in Hrun.
    destruct e as [history house | delta | p color].
    + cbn [applySceneEvent] in Hrun.
      destruct (spawnCar_spec cfg history house (GameScene.cars s)
                  (GameScene.destinations s))
        as (cars' & destinations' & Hspawn & Hcase).
      rewrite Hspawn in Hrun. apply (IH _ _ _ _ Hrun).
      destruct Hover as [Hplay | [Hstate Hcrowd]]; [now left|]. right.
      split; [exact Hstate|]. cbn [GameScene.destinations].
      destruct Hcase as [(_ & -> & _) | Hcase]; [exact Hcrowd|].
      destruct Hcase as (_ & d & l1 & l2 & _ & _ & _ & Hd & -> & _).
      rewrite Hd in Hcrowd. apply checkGameOver_iff in Hcrowd.
      apply checkGameOver_iff. destruct Hcrowd as (d0 & Hin & Hle).
      apply in_app_iff in Hin. destruct Hin as [Hin | [<- | Hin]].
      * exists d0. split; [apply in_app_iff; now left | exact Hle].
      * exists (Destination.addWaitingCar d).
        split; [apply in_app_iff; right; now left | cbn; lia].
      * exists d0. split; [apply in_app_iff; right; now right | exact Hle].
    + cbn [applySceneEvent] in Hrun. apply (IH _ _ _ _ Hrun).
      now apply scene_tick_over.
    + cbn [applySceneEvent] in Hrun. apply (IH _ _ _ _ Hrun).
      destruct Hover as [Hplay | [Hstate Hcrowd]]; [now left|]. right.
      split; [exact Hstate|]. cbn [GameScene.destinations].
      apply checkGameOver_iff in Hcrowd. apply checkGameOver_iff.
      destruct Hcrowd as (d0 & Hin & Hle). exists d0.
      split; [apply in_app_iff; now left | exact Hle].
Qed.

(** After a run of the scene that ends with a frame, the game is over
    exactly when some destination has at least [MAX_CARS_PER_DESTINATION]
    live cars heading for it, and is otherwise still on: what the limit
    counts is the cars under way to a destination, from the moment they
    are spawned. *)
Theorem scene_over_iff_crowded
    (cfg : GameConfig.t) (now : Z) (events : list SceneEvent)
    (delta : float) :
  freshOpenings [] events ->
  exists s spawned,
    runScene cfg now (events ++ [FrameTick delta]) = Some (s, spawned) /\
    (GameStateManager.getState (GameScene.gameState s)
       = GameStateManager.GAME_OVER <->
     exists d, In d (GameScene.destinations s) /\
       GameConfig.MAX_CARS_PER_DESTINATION cfg
       <= carsFor (Destination.getGridPosition d) (GameScene.cars s)) /\
    (GameStateManager.getState (GameScene.gameState s)
       = GameStateManager.PLAYING <->
     forall d, In d (GameScene.destinations s) ->
       carsFor (Destination.getGridPosition d) (GameScene.cars s)
       < GameConfig.MAX_CARS_PER_DESTINATION cfg).
Proof.
  intros Hfresh. unfold runScene. rewrite fold_left_app. cbn [fold_left].
  destruct (scene_run_inv cfg events [] (GameScene.create now) 0
              (scene_initial_inv cfg now) Hfresh)
    as (s0 & spawned & seen & Hrun & Hinv0).
  assert (Hover0 : overInv cfg s0).
  { apply (scene_run_over cfg events _ _ _ _ Hrun). now left. }
  rewrite Hrun. cbn [applySceneEvent].
  exists (GameScene.update cfg delta s0), spawned. split; [reflexivity|].
  pose proof (scene_tick_inv cfg seen delta s0 spawned Hinv0)
    as ((Hnd & _ & Hcount) & _).
  assert (Hover : overInv cfg (GameScene.update cfg delta s0)).
  { now apply scene_tick_over. }
  set (s := GameScene.update cfg delta s0) in *.
  assert (Hcounter : forall d, In d (GameScene.destinations s) ->
            Destination.waitingCars d
            = carsFor (Destination.getGridPosition d) (GameScene.cars s)).
  { intros d Hd. rewrite <- Hcount. symmetry. now apply waitingAt_member. }
  assert (Hcrowd :
    GameStateManager.checkGameOver cfg (GameScene.destinations s) = true <->
    exists d, In d (GameScene.destinations s) /\
      GameConfig.MAX_CARS_PER_DESTINATION cfg
      <= carsFor (Destination.getGridPosition d) (GameScene.cars s)).
  { rewrite checkGameOver_iff.
    split; intros (d & Hd & Hle); exists d; (split; [exact Hd|]);
      [rewrite <- (Hcounter d Hd) | rewrite (Hcounter d Hd)]; exact Hle. }
  assert (Hplay :
    GameStateManager.getState (GameScene.gameState s)
      = GameStateManager.PLAYING ->
    GameStateManager.checkGameOver cfg (GameScene.destinations s) = false).
  { unfold s, GameScene.update.
    destruct (negb _) eqn:Hplaying.
    - intros E. rewrite E in Hplaying. discriminate.
    - destruct (TrafficManager.update cfg delta (GameScene.cars s0)
                  (GameScene.destinations s0)) as [cars' destinations'].
      cbn [GameScene.gameState GameScene.destinations].
      destruct (GameStateManager.checkGameOver cfg destinations');
        [discriminate | reflexivity]. }
  split.
  - split.
    + intros Hstate. apply Hcrowd.
      destruct Hover as [E | [_ E]]; [congruence | exact E].
    + intros Hex. apply Hcrowd in Hex.
      destruct Hover as [E | [E _]]; [|exact E].
      rewrite (Hplay E) in Hex. discriminate.
  - split.
    + intros Hstate d Hd.
      destruct (Z.lt_ge_cases
                  (carsFor (Destination.getGridPosition d) (GameScene.cars s))
                  (GameConfig.MAX_CARS_PER_DESTINATION cfg)) as [Hlt | Hge];
        [exact Hlt|].
      assert (E : GameStateManager.checkGameOver cfg
                    (GameScene.destinations s) = true)
        by (apply Hcrowd; now exists d).
      rewrite (Hplay Hstate) in E. discriminate.
    + intros Hall. destruct Hover as [E | [_ E]]; [exact E|].
      apply Hcrowd in E. destruct E as (d & Hd & Hle).
      specialize (Hall d Hd). lia.
Qed.

Lemma scene_over_iff_crowded_witness :
  freshOpenings [] corridorRun /\
  exists s spawned,
    runScene GameConfig.lenient 0 (corridorRun ++ [FrameTick 16])
      = Some (s, spawned) /\
    GameStateManager.getState (GameScene.gameState s)
      = GameStateManager.PLAYING.
Proof.
  assert (H : freshOpenings [] corridorRun).
  { simpl. split; [intros [] | exact I]. }
  split; [exact H|].
  destruct (scene_over_iff_crowded GameConfig.lenient 0 corridorRun 16 H)
    as (s & spawned & Hrun & _ & Hplay).
  exists s, spawned. split; [exact Hrun|].
  apply Hplay. intros d Hd.
  vm_compute in Hrun. injection Hrun as <- _.
  destruct Hd as [<- | []]. vm_compute. reflexivity.
Defined.

(* ------------------------------------------------------------------ *)
(** ** utils/Grid and utils/ColorManager *)

(** [Grid.getNeighbors] lists exactly the cells one step up, right, down
    or left that lie on the grid, each once; between cells of the grid
    the relation is symmetric, and a cell off the border has all four. *)
Theorem grid_neighbors_exact (cfg : GameConfig.t) (p : GridPos) :
  (forall n, In n (Grid.getNeighbors cfg p) <->
             adjacent4 p n /\ Grid.isValidGridPosition cfg n = true) /\
  NoDup (Grid.getNeighbors cfg p) /\
  (forall n, Grid.isValidGridPosition cfg p = true ->
             In n (Grid.getNeighbors cfg p) ->
             In p (Grid.getNeighbors cfg n)) /\
  (0 < fst p < GameConfig.GAME_WIDTH cfg - 1 ->
   0 < snd p < GameConfig.GAME_HEIGHT cfg - 1 ->
   Grid.getNeighbors cfg p = map (shift p) directions).
Proof.
  assert (Hexact : forall q n, In n (Grid.getNeighbors cfg q) <->
            adjacent4 q n /\ Grid.isValidGridPosition cfg n = true).
  { intros q n. unfold Grid.getNeighbors, adjacent4.
    rewrite filter_In, in_map_iff. split.
    - intros [(d & <- & Hd) Hv]. split; [now exists d | exact Hv].
    - intros [(d & Hd & ->) Hv]. split; [now exists d | exact Hv]. }
  split; [apply Hexact|]. split; [|split].
  - unfold Grid.getNeighbors. apply NoDup_filter.
    destruct p as [x y]. unfold shift, directions. cbn [map fst snd].
    repeat constructor; cbn [In]; intros H;
      repeat (destruct H as [H | H]; [injection H; lia|]); exact H.
  - intros n Hp Hn. apply Hexact in Hn. apply Hexact.
    split; [apply adjacent4_sym; tauto | exact Hp].
  - intros Hx Hy. unfold Grid.getNeighbors.
    destruct p as [x y]. cbn [fst snd] in Hx, Hy.
    unfold directions, shift, Grid.isValidGridPosition.
    cbn [map filter fst snd].
    repeat match goal with
    | |- context [?a <=? ?b] =>
        destruct (Z.leb_spec a b); [|lia]
    | |- context [?a <? ?b] =>
        destruct (Z.ltb_spec a b); [|lia]
    end.
    reflexivity.
Qed.

Lemma centre_round_trip (x : Z) :
  -4096 <= x <= 4096 -> centreRoundTrips x = true.
Proof.
  intros Hx.
  assert (Hall : forallb centreRoundTrips
                   (map (fun n => Z.of_nat n - 4096) (seq 0 (Z.to_nat 8193)))
          = true)
    by (vm_compute; reflexivity).
  rewrite forallb_forall in Hall. apply Hall.
  apply in_map_iff. exists (Z.to_nat (x + 4096)).
  split; [lia|]. apply in_seq. lia.
Qed.

(** With the shipped cell size of 25, the centre of a cell maps back to
    that cell, for every cell of the grid and 4096 cells beyond it on
    each side; so snapping a point twice is the same as snapping it
    once. *)
Theorem grid_round_trip (cfg : GameConfig.t) (p : GridPos) :
  GameConfig.GRID_SIZE cfg = 25 ->
  -4096 <= fst p <= 4096 -> -4096 <= snd p <= 4096 ->
  Grid.worldToGrid cfg (fst (Grid.gridToWorld cfg p))
                       (snd (Grid.gridToWorld cfg p)) = p /\
  forall x y,
    Grid.worldToGrid cfg x y = p ->
    Grid.snapToGrid cfg (fst (Grid.snapToGrid cfg x y))
                        (snd (Grid.snapToGrid cfg x y))
    = Grid.snapToGrid cfg x y.
Proof.
  intros Hsize Hx Hy.
  assert (Hback : Grid.worldToGrid cfg (fst (Grid.gridToWorld cfg p))
                                       (snd (Grid.gridToWorld cfg p)) = p).
  { unfold Grid.worldToGrid, Grid.gridToWorld. rewrite Hsize.
    cbn [fst snd]. destruct p as [x y]. cbn [fst snd] in *.
    pose proof (centre_round_trip x Hx) as Ex.
    pose proof (centre_round_trip y Hy) as Ey.
    unfold centreRoundTrips in Ex, Ey. apply Z.eqb_eq in Ex, Ey.
    now rewrite Ex, Ey. }
  split; [exact Hback|].
  intros x y Hp. unfold Grid.snapToGrid. rewrite Hp, Hback. reflexivity.
Qed.

Lemma grid_round_trip_witness :
  GameConfig.GRID_SIZE GameConfig.lenient = 25 /\
  Grid.worldToGrid GameConfig.lenient
    (fst (Grid.gridToWorld GameConfig.lenient (47, 31)))
    (snd (Grid.gridToWorld GameConfig.lenient (47, 31))) = (47, 31).
Proof.
  assert (H : GameConfig.GRID_SIZE GameConfig.lenient = 25) by reflexivity.
  split; [exact H|].
  apply (grid_round_trip GameConfig.lenient (47, 31) H); cbn; lia.
Defined.

(** [getColor] on a non-empty palette: an index from zero up reads the
    palette cyclically, so the result is a palette colour and repeats
    with the palette's length; a negative index that is not a multiple of
    the length reads nothing, because the remainder keeps the sign of the
    index. *)
Theorem getColor_wraps (cfg : GameConfig.t) (index : Z) :
  GameConfig.COLORS cfg <> [] ->
  let n := Z.of_nat (List.length (GameConfig.COLORS cfg)) in
  (0 <= index ->
   exists color,
     ColorManager.getColor cfg index = Some color /\
     In color (GameConfig.COLORS cfg) /\
     nth_error (GameConfig.COLORS cfg) (Z.to_nat (index mod n)) = Some color /\
     ColorManager.getColor cfg (index + n) = Some color) /\
  (index < 0 -> Z.rem index n <> 0 ->
   ColorManager.getColor cfg index = None).
Proof.
  intros Hne n.
  assert (Hn : 0 < n).
  { unfold n. destruct (GameConfig.COLORS cfg); [contradiction | cbn; lia]. }
  assert (Hget : forall i, 0 <= i ->
            ColorManager.getColor cfg i
            = nth_error (GameConfig.COLORS cfg) (Z.to_nat (i mod n))).
  { intros i Hi. unfold ColorManager.getColor. cbv zeta. fold n.
    rewrite Z.rem_mod_nonneg by lia.
    pose proof (Z.mod_pos_bound i n Hn).
    destruct (Z.ltb_spec (i mod n) 0); [lia | reflexivity]. }
  split.
  - intros Hi.
    pose proof (Z.mod_pos_bound index n Hn) as Hb.
    destruct (nth_error (GameConfig.COLORS cfg) (Z.to_nat (index mod n)))
      as [color|] eqn:Hnth.
    + exists color. split; [now rewrite Hget|].
      split; [eapply nth_error_In; eassumption|]. split; [reflexivity|].
      rewrite Hget by lia.
      replace ((index + n) mod n) with (index mod n); [exact Hnth|].
      rewrite <- (Z.mul_1_l n) at 2. now rewrite Z.mod_add by lia.
    + apply nth_error_None in Hnth. unfold n in *. lia.
  - intros Hi Hrem. unfold ColorManager.getColor. cbv zeta.
    pose proof (Z.rem_nonpos index n) as Hle. unfold n in *. clear n.
    destruct (Z.ltb_spec
                (Z.rem index
                   (Z.of_nat (List.length (GameConfig.COLORS cfg)))) 0);
      [reflexivity | lia].
Qed.

Lemma getColor_wraps_witness :
  GameConfig.COLORS GameConfig.lenient <> [] /\
  ColorManager.getColor GameConfig.lenient (-1) = None.
Proof.
  assert (H : GameConfig.COLORS GameConfig.lenient <> []) by discriminate.
  split; [exact H|].
  apply (getColor_wraps GameConfig.lenient (-1) H); [lia | discriminate].
Defined.

(* ------------------------------------------------------------------ *)
(** ** Building a road by dragging *)






Lemma removeSegment_cells (p c : GridPos) (r : Road.t) :
  Road.hasSegment c (snd (Road.removeSegment p r)) = true <->
  c <> p /\ Road.hasSegment c r = true.
Proof.
  unfold Road.removeSegment, Road.hasSegment.
  destruct (JsMap.get (cellKey p) r) as [seg|] eqn:Hseg; simpl.
  - destruct (disconnect_fold (cellKey p) (Road.neighbors seg) r) as [Hk _].
    rewrite jsmap_has_delete, andb_true_iff, negb_true_iff, String.eqb_neq.
    rewrite (jsmap_has_same_keys _ _ r Hk). split.
    + intros [Hne H]. split; [|assumption]. intros ->. now apply Hne.
    + intros [Hne H]. split; [|assumption]. intros He. apply Hne.
      now apply cellKey_inj.
  - split; [|tauto]. intros H. split; [|assumption]. intros ->.
    apply jsmap_has_get in H. destruct H as [v H]. congruence.
Qed.

Lemma eraseAt_cells (cfg : GameConfig.t) (x y : float) (ops : list RoadOp) :
  exists ops',
    RoadBuilder.eraseAt cfg x y (buildRoad ops) = buildRoad ops' /\
    forall c,
      Road.hasSegment c (buildRoad ops') = true <->
      Road.hasSegment c (buildRoad ops) = true /\
      ~ (Grid.isValidGridPosition cfg c = true /\
         c = Grid.worldToGrid cfg x y).
Proof.
  unfold RoadBuilder.eraseAt. cbv zeta.
  destruct (Grid.isValidGridPosition cfg (Grid.worldToGrid cfg x y))
    eqn:Hvalid;
    [destruct (Road.hasSegment (Grid.worldToGrid cfg x y) (buildRoad ops))
       eqn:Hocc|].
  - exists (ops ++ [RemoveSegment (Grid.worldToGrid cfg x y)]).
    split; [unfold buildRoad; now rewrite fold_left_app|].
    intros c. unfold buildRoad at 1. rewrite fold_left_app. cbn [fold_left applyOp].
    fold (buildRoad ops). rewrite removeSegment_cells. split.
    + intros [Hne Hc]. split; [exact Hc|]. intros [_ E]. now apply Hne.
    + intros [Hc Hne]. split; [|exact Hc]. intros E. apply Hne.
      split; [now rewrite E | exact E].
  - exists ops. split; [reflexivity|]. intros c. split; [|tauto].
    intros Hc. split; [exact Hc|]. intros [_ E]. congruence.
  - exists ops. split; [reflexivity|]. intros c. split; [|tauto].
    intros Hc. split; [exact Hc|]. intros [Hv E]. congruence.
Qed.

Lemma erase_moves (cfg : GameConfig.t) (moves : list RoadBuilder.Pointer) :
  forall st ops,
    RoadBuilder.isErasing st = true ->
    exists ops',
      fold_left (handleInput cfg) (map PointerMove moves)
                (Some (st, buildRoad ops))
      = Some (st, buildRoad ops') /\
      forall c,
        Road.hasSegment c (buildRoad ops') = true <->
        Road.hasSegment c (buildRoad ops) = true /\
        ~ (Grid.isValidGridPosition cfg c = true /\
           exists p, In p moves /\ RoadBuilder.isDown p = true /\
                     c = pointerCell cfg p).
Proof.
  induction moves as [|p moves IH]; intros st ops He.
  - exists ops. split; [reflexivity|]. intros c. split; [|tauto].
    intros Hc. split; [exact Hc|]. intros (_ & q & [] & _).
  - cbn [map fold_left handleInput]. unfold RoadBuilder.onPointerMove.
    rewrite He. cbn [andb].
    destruct (RoadBuilder.isDown p) eqn:Hdown.
    + destruct (eraseAt_cells cfg (RoadBuilder.x p) (RoadBuilder.y p) ops)
        as (ops1 & -> & Hcells1).
      destruct (IH st ops1 He) as (ops' & Hrun & Hcells).
      exists ops'. split; [exact Hrun|]. intros c.
      rewrite Hcells, Hcells1. fold (pointerCell cfg p). split.
      * intros [[Hc Hp] Hrest]. split; [exact Hc|].
        intros (Hv & q & [<- | Hq] & Hd & E).
        -- apply Hp. now split.
        -- apply Hrest. split; [exact Hv|]. now exists q.
      * intros [Hc Hnone]. split; [split; [exact Hc|]|].
        -- intros [Hv E]. apply Hnone. split; [exact Hv|].
           exists p. split; [now left|]. now split.
        -- intros (Hv & q & Hq & Hd & E). apply Hnone. split; [exact Hv|].
           exists q. split; [now right|]. now split.
    + rewrite andb_false_r.
      destruct (IH st ops He) as (ops' & Hrun & Hcells).
      exists ops'. split; [exact Hrun|]. intros c. rewrite Hcells. split.
      * intros [Hc Hrest]. split; [exact Hc|].
        intros (Hv & q & [<- | Hq] & Hd & E); [congruence|].
        apply Hrest. split; [exact Hv|]. now exists q.
      * intros [Hc Hnone]. split; [exact Hc|].
        intros (Hv & q & Hq & Hd & E). apply Hnone. split; [exact Hv|].
        exists q. split; [now right|]. now split.
Qed.

(** A right-button press followed by any moves, on a road reached by any
    history of calls; every pointer position gives finite quotients, and
    the grid and the road's cells are within [coordLimit].  The builder
    stays in erasing mode and never adds a cell; afterwards the road
    cells are exactly the old ones that were not, while on the grid,
    under the pointer at the press or at a move made with the button
    held. *)
Theorem erase_drag_only_removes
    (cfg : GameConfig.t) (ops : list RoadOp) (st0 : RoadBuilder.t)
    (upgradeSelected : bool)
    (press : RoadBuilder.Pointer) (moves : list RoadBuilder.Pointer) :
  cfgInRange cfg = true ->
  opsInRange ops = true ->
  finitePointer cfg press = true ->
  Forall (fun p => finitePointer cfg p = true) moves ->
  RoadBuilder.rightButtonDown press = true ->
  exists st r',
    fold_left (handleInput cfg)
              (PointerDown upgradeSelected press :: map PointerMove moves)
              (Some (st0, buildRoad ops))
    = Some (st, r') /\
    RoadBuilder.isErasing st = true /\
    RoadBuilder.isBuilding st = RoadBuilder.isBuilding st0 /\
    RoadBuilder.lastBuiltPos st = RoadBuilder.lastBuiltPos st0 /\
    forall c,
      Road.hasSegment c r' = true <->
      Road.hasSegment c (buildRoad ops) = true /\
      ~ erasedBy cfg press moves c.
Proof.
  intros _ _ _ _ Hright. cbn [fold_left handleInput].
  unfold RoadBuilder.onPointerDown. rewrite Hright.
  destruct (eraseAt_cells cfg (RoadBuilder.x press) (RoadBuilder.y press) ops)
    as (ops1 & -> & Hcells1).
  destruct (erase_moves cfg moves
              {| RoadBuilder.isBuilding := RoadBuilder.isBuilding st0;
                 RoadBuilder.isErasing := true;
                 RoadBuilder.lastBuiltPos := RoadBuilder.lastBuiltPos st0 |}
              ops1 eq_refl) as (ops' & Hrun & Hcells).
  eexists. exists (buildRoad ops'). split; [exact Hrun|].
  split; [reflexivity|]. split; [reflexivity|]. split; [reflexivity|].
  intros c. rewrite Hcells, Hcells1. unfold erasedBy.
  fold (pointerCell cfg press). tauto.
Qed.

Lemma erase_drag_only_removes_witness :
  cfgInRange GameConfig.lenient = true /\
  opsInRange corridorOps = true /\
  finitePointer GameConfig.lenient erasePress = true /\
  Forall (fun p => finitePointer GameConfig.lenient p = true) eraseDrag /\
  RoadBuilder.rightButtonDown erasePress = true /\
  exists st r',
    fold_left (handleInput GameConfig.lenient)
              (PointerDown false erasePress :: map PointerMove eraseDrag)
              (Some (RoadBuilder.create, buildRoad corridorOps))
    = Some (st, r') /\
    Road.hasSegment (2, 0) r' = false /\
    Road.hasSegment (3, 0) r' = false /\
    Road.hasSegment (1, 0) r' = true.
Proof.
  assert (Hfin : Forall (fun p => finitePointer GameConfig.lenient p = true)
                        eraseDrag) by (repeat constructor).
  assert (H : RoadBuilder.rightButtonDown erasePress = true) by reflexivity.
  split; [reflexivity|]. split; [reflexivity|]. split; [reflexivity|].
  split; [exact Hfin|]. split; [exact H|].
  destruct (erase_drag_only_removes GameConfig.lenient corridorOps
              RoadBuilder.create false erasePress eraseDrag
              eq_refl eq_refl eq_refl Hfin H)
    as (st & r' & Hrun & _ & _ & _ & Hcells).
  exists st, r'. split; [exact Hrun|]. split; [|split].
  - apply not_true_is_false. intros Hc. apply Hcells in Hc.
    destruct Hc as [_ Hne]. apply Hne. split; [reflexivity|]. left.
    vm_compute. reflexivity.
  - apply not_true_is_false. intros Hc. apply Hcells in Hc.
    destruct Hc as [_ Hne]. apply Hne. split; [reflexivity|]. right.
    eexists. split; [now left|]. split; [reflexivity|].
    vm_compute. reflexivity.
  - apply Hcells. split; [vm_compute; reflexivity|].
    intros (_ & [E | (p & [<- | []] & _ & E)]); vm_compute in E;
      discriminate.
Defined.

(* ------------------------------------------------------------------ *)
(** ** Car: a whole drive *)

Lemma update_true_reached (cfg : GameConfig.t) (delta : float) (c : Car.t) :
  fst (Car.update cfg delta c) = true ->
  Car.hasReachedDestination (snd (Car.update cfg delta c)) = true /\
  Car.isMoving (snd (Car.update cfg delta c)) = false /\
  (enRoute c -> List.length (Car.path c) = S (Car.currentPathIndex c)).
Proof.
  unfold Car.update, Car.hasReachedDestination, enRoute.
  destruct (negb (Car.isMoving c) || (List.length (Car.path c) =? 0)%nat);
    [discriminate|].
  destruct (Nat.leb_spec (List.length (Car.path c)) (Car.currentPathIndex c))
    as [Hle | Hlt].
  - intros _. cbn. split; [now apply Nat.leb_le|]. split; [reflexivity|].
    intros [_ H]. lia.
  - cbv zeta. destruct (PrimFloat.ltb _ 3); [|discriminate].
    cbn [Car.atIndex Car.path Car.currentPathIndex].
    destruct (Nat.leb_spec (List.length (Car.path c))
                           (S (Car.currentPathIndex c))) as [Hle | Hgt];
      [|discriminate].
    intros _. cbn. split; [now apply Nat.leb_le|]. split; [reflexivity|].
    intros _. lia.
Qed.

Lemma update_false_index (cfg : GameConfig.t) (delta : float) (c : Car.t) :
  Car.path (snd (Car.update cfg delta c)) = Car.path c /\
  (Car.currentPathIndex (snd (Car.update cfg delta c))
   <= S (Car.currentPathIndex c))%nat.
Proof.
  unfold Car.update.
  destruct (negb (Car.isMoving c) || (List.length (Car.path c) =? 0)%nat);
    [cbn; split; [reflexivity | lia]|].
  destruct (List.length (Car.path c) <=? Car.currentPathIndex c)%nat;
    [cbn; split; [reflexivity | lia]|].
  cbv zeta. destruct (PrimFloat.ltb _ 3); [|cbn; split; [reflexivity | lia]].
  destruct (_ <=? _)%nat; cbn; (split; [reflexivity | lia]).
Qed.

Lemma driveCar_stopped (cfg : GameConfig.t) (deltas : list float)
    (c : Car.t) :
  Car.isMoving c = false ->
  driveCar cfg deltas c = (repeat false (List.length deltas), c).
Proof.
  intros Hstop. induction deltas as [|delta rest IH]; [reflexivity|].
  cbn [driveCar]. rewrite update_idle by now left. now rewrite IH.
Qed.

(** A whole drive, frame after frame with any deltas: [update] answers
    [true] at most once; if it ever does, the car ends stopped with
    [hasReachedDestination] true; and a car that is en route with [m]
    waypoints left cannot have [true] answered before its [m]-th call,
    however large the deltas. *)
Theorem car_drive_arrives_once
    (cfg : GameConfig.t) (deltas : list float) (c : Car.t) :
  let flags := fst (driveCar cfg deltas c) in
  let c' := snd (driveCar cfg deltas c) in
  (count_occ Bool.bool_dec flags true <= 1)%nat /\
  (In true flags ->
   Car.hasReachedDestination c' = true /\ Car.isMoving c' = false) /\
  (enRoute c ->
   forall k, nth_error flags k = Some true ->
     (List.length (Car.path c) - Car.currentPathIndex c <= S k)%nat).
Proof.
  cbv zeta. revert c. induction deltas as [|delta rest IH]; intros c.
  - cbn. split; [lia|]. split; [intros []|]. intros _ [|k]; discriminate.
  - cbn [driveCar].
    pose proof (update_true_reached cfg delta c) as Htrue.
    pose proof (update_false_index cfg delta c) as [Hpath Hidx].
    pose proof (update_keeps_en_route cfg delta c) as Hkeep.
    destruct (Car.update cfg delta c) as [flag c1]. cbn [fst snd] in *.
    destruct flag.
    + destruct (Htrue eq_refl) as (Hreached & Hstop & Hlen).
      rewrite (driveCar_stopped cfg rest c1 Hstop). cbn [fst snd].
      assert (Hnone : ~ In true (repeat false (List.length rest))).
      { intros Hin. apply repeat_spec in Hin. discriminate. }
      split.
      { cbn [count_occ]. destruct (Bool.bool_dec true true); [|congruence].
        rewrite (proj1 (count_occ_not_In Bool.bool_dec _ _) Hnone). lia. }
      split; [intros _; now split|].
      intros Hroute [|k] Hk; [rewrite (Hlen Hroute); lia|].
      cbn in Hk. apply nth_error_In in Hk. contradiction.
    + specialize (IH c1).
      destruct (driveCar cfg rest c1) as [flags c2]. cbn [fst snd] in *.
      destruct IH as (Hcount & Hreach & Hearly).
      split.
      { cbn [count_occ]. destruct (Bool.bool_dec false true); [discriminate|].
        exact Hcount. }
      split.
      { intros [E | Hin]; [discriminate | now apply Hreach]. }
      intros Hroute [|k] Hk; [discriminate|].
      cbn in Hk. specialize (Hearly (Hkeep Hroute eq_refl) k Hk).
      rewrite Hpath in Hearly. lia.
Qed.

Lemma car_drive_arrives_once_witness :
  enRoute freshCar /\
  forall k,
    nth_error (fst (driveCar GameConfig.original [16; 16; 16]%float freshCar)) k
    = Some true ->
    (2 <= S k)%nat.
Proof.
  assert (H : enRoute freshCar) by (split; [reflexivity | cbn; lia]).
  split; [exact H|].
  exact (proj2 (proj2 (car_drive_arrives_once GameConfig.original
                         [16; 16; 16]%float freshCar)) H).
Defined.
